(** * vibe-runner server: a shallow embedding of the simulation core

    The Go packages [game], [generation] and [network] are embedded as Rocq
    modules of the same names; [Handler] is the file handler.go of the
    package [network], and [Main] is the server [main] starts, as the events
    of its goroutines.  Go's [float64] is the kernel's primitive
    binary64 type ([PrimFloat.float]): every arithmetic operation below is the
    IEEE 754 operation the compiled server executes, each one rounded on its
    own (Go does not contract them on amd64).  Go's [int] is a 64-bit signed
    integer, embedded as [Z] with the wrap-around written out.  Go maps are
    stdpp [gmap]s; the pointers stored in them are identified with their
    keys.  Locks protect the maps at the granularity of the operations
    modelled here, so each operation is one atomic state transformer. *)

From Stdlib Require Import ZArith Lia List Uint63 Floats DecimalString.
From stdpp Require Import gmap strings list.

Local Open Scope Z_scope.

(** ** Go's numeric types *)

Module GoNum.

Definition min_int64 : Z := - 2 ^ 63.
Definition max_int64 : Z := 2 ^ 63 - 1.

(** Two's complement wrap-around of [int] arithmetic. *)
Definition wrap64 (z : Z) : Z := (z + 2 ^ 63) mod 2 ^ 64 - 2 ^ 63.

(** [float64(n)] for an [int] [n]: the nearest binary64 value, ties to
    even.  The kernel converts a non-negative 63-bit integer
    ([of_uint63]); a negative [n] is the opposite of the conversion of
    [-n], and the smallest [int64] is a power of two. *)
Definition float64_of_int (n : Z) : float :=
  if n <? 0 then
    if n =? min_int64 then (-9223372036854775808)%float
    else (- of_uint63 (Uint63.of_Z (- n)))%float
  else of_uint63 (Uint63.of_Z n).

(** [int(f)] for a [float64] [f]: truncation toward zero.  The Go
    specification leaves the result open when the truncated value does not
    fit (or [f] is a NaN or an infinity); amd64 yields the smallest
    [int64] there, which is what is modelled. *)
Definition int_of_float64 (f : float) : Z :=
  match Prim2SF f with
  | S754_zero _ => 0
  | S754_finite s m e =>
      let t := cond_Zopp s (if 0 <=? e then Z.pos m * 2 ^ e
                            else Z.pos m / 2 ^ (- e)) in
      if (min_int64 <=? t) && (t <=? max_int64) then t else min_int64
  | S754_infinity _ | S754_nan => min_int64
  end.

(** [%d] of [fmt.Sprintf]. *)
Definition itoa (n : Z) : string := NilZero.string_of_int (Z.to_int n).

End GoNum.

(** ** Package game *)

Module Game.

Import GoNum.

(** *** player.go *)

Record Player := mkPlayer {
  ID : Z;
  Name : string;
  X : float;
  Y : float;
  VelocityY : float;
  IsGrounded : bool;
  IsAlive : bool
}.

Definition NewPlayer (id : Z) (name : string) : Player :=
  {| ID := id; Name := name;
     X := 100%float; Y := 440%float; VelocityY := 0%float;
     IsGrounded := true; IsAlive := true |}.

Definition Jump (p : Player) : Player :=
  if IsGrounded p && IsAlive p then
    {| ID := ID p; Name := Name p; X := X p; Y := Y p;
       VelocityY := (-600)%float;
       IsGrounded := false; IsAlive := IsAlive p |}
  else p.

Definition Kill (p : Player) : Player :=
  {| ID := ID p; Name := Name p; X := X p; Y := Y p;
     VelocityY := VelocityY p;
     IsGrounded := IsGrounded p; IsAlive := false |}.

(** *** state.go: the player registry *)

Record GameState := mkGameState { players : gmap Z Player }.

Definition NewGameState : GameState := {| players := ∅ |}.

Definition AddPlayer (player : Player) (g : GameState) : GameState :=
  {| players := <[ID player := player]> (players g) |}.

Definition RemovePlayer (playerID : Z) (g : GameState) : GameState :=
  {| players := delete playerID (players g) |}.

Definition GetPlayer (playerID : Z) (g : GameState) : option Player :=
  players g !! playerID.

(** The snapshot is a slice of pointers; a pointer is the key under which
    the registry holds the player.  Go leaves the order of a map
    iteration open; [map_to_list] fixes one. *)
Definition GetAllPlayers (g : GameState) : list Z :=
  (map_to_list (players g)).*1.

Definition GetPlayerCount (g : GameState) : Z := Z.of_nat (size (players g)).

(** *** ticker.go *)

Definition Gravity : float := 1200%float.
Definition JumpVelocity : float := (-600)%float.
Definition GroundY : float := 440%float.
Definition TickRate : Z := 20.

(** [1.0 / float64(TickRate)], a typed constant: the binary64 value nearest
    to 1/20.  [Gravity * DeltaTime] is a constant expression as well; its
    exact value rounds to 60, which is also the rounded product of the
    two binary64 values. *)
Definition DeltaTime : float := (1 / float64_of_int TickRate)%float.

Definition updatePlayerPhysics (player : Player) : Player :=
  let velocityY := (VelocityY player + Gravity * DeltaTime)%float in
  let y := (Y player + velocityY * DeltaTime)%float in
  if (GroundY <=? y)%float then
    {| ID := ID player; Name := Name player; X := X player;
       Y := GroundY; VelocityY := 0%float;
       IsGrounded := true; IsAlive := IsAlive player |}
  else
    {| ID := ID player; Name := Name player; X := X player;
       Y := y; VelocityY := velocityY;
       IsGrounded := false; IsAlive := IsAlive player |}.

(** The body of the ticker's loop over the snapshot, for one player. *)
Definition tickPlayer (player : Player) : Player :=
  if negb (IsAlive player) then player else updatePlayerPhysics player.

(** One iteration of the physics loop: the registry, and the leading and
    trailing positions tracked so far. *)
Definition physicsStep (acc : gmap Z Player * float * float) (ptr : Z)
  : gmap Z Player * float * float :=
  let '(ps, maxPlayerX, minPlayerX) := acc in
  match ps !! ptr with
  | None => acc
  | Some player =>
      if negb (IsAlive player) then acc
      else
        let player' := updatePlayerPhysics player in
        let maxPlayerX :=
          if (maxPlayerX <? X player')%float then X player' else maxPlayerX in
        let minPlayerX :=
          if (X player' <? minPlayerX)%float then X player' else minPlayerX in
        (<[ptr := player']> ps, maxPlayerX, minPlayerX)
  end.

Definition physicsLoop (snapshot : list Z) (ps : gmap Z Player)
  : gmap Z Player * float * float :=
  let x0 := match snapshot with
            | [] => 0%float
            | ptr :: _ => match ps !! ptr with
                          | Some player => X player
                          | None => 0%float
                          end
            end in
  foldl physicsStep (ps, x0, x0) snapshot.

(** The interfaces through which the ticker reaches the other packages.
    [now] stands for the reading of the clock taken by the broadcast. *)
Class Broadcaster (B : Type) := {
  BroadcastState : Z -> GameState -> B -> B
}.

Class ChunkBroadcaster (B D : Type) := {
  BroadcastChunk : Z -> D -> B -> B
}.

Class ChunkManager (C D : Type) := {
  GenerateAheadForPlayer : float -> Z -> C -> C;
  CleanupBehind : float -> Z -> C -> C;
  GetOrGenerateChunkInterface : Z -> C -> option D * C
}.

(** What the goroutine of [StartGameTicker] holds between two ticks. *)
Record Ticker (B C : Type) := mkTicker {
  gameState : GameState;
  broadcaster : B;
  chunkManager : option C;
  tickCount : Z;
  lastBroadcastedChunk : Z
}.
Arguments mkTicker {B C}.
Arguments gameState {B C}.
Arguments broadcaster {B C}.
Arguments chunkManager {B C}.
Arguments tickCount {B C}.
Arguments lastBroadcastedChunk {B C}.

Section Tick.
Context {B C D : Type} `{!Broadcaster B} `{!ChunkManager C D}.
(** The outcome of the type assertion [broadcaster.(ChunkBroadcaster)]. *)
Variable asChunkBroadcaster : option (ChunkBroadcaster B D).

Definition StartGameTicker (gs : GameState) (b : B) (cm : option C)
  : Ticker B C :=
  {| gameState := gs; broadcaster := b; chunkManager := cm;
     tickCount := 0; lastBroadcastedChunk := -1 |}.

(** The chunk management of one tick. *)
Definition chunkPhase (count : Z) (nplayers : nat)
    (maxPlayerX minPlayerX : float) (t : Ticker B C) : B * option C * Z :=
  match chunkManager t with
  | Some cm =>
      if (0 <? Z.of_nat nplayers) then
        let cm := GenerateAheadForPlayer maxPlayerX 2 cm in
        let leadingChunkID := int_of_float64 (maxPlayerX / 5000)%float in
        let nextChunkID := wrap64 (leadingChunkID + 1) in
        let '(b, cm, last) :=
          if lastBroadcastedChunk t <? nextChunkID then
            let '(chunk, cm) := GetOrGenerateChunkInterface nextChunkID cm in
            match chunk, asChunkBroadcaster with
            | Some chunk, Some cb =>
                (@BroadcastChunk _ _ cb nextChunkID chunk (broadcaster t),
                 cm, nextChunkID)
            | _, _ => (broadcaster t, cm, lastBroadcastedChunk t)
            end
          else (broadcaster t, cm, lastBroadcastedChunk t) in
        let cm :=
          if Z.rem count 80 =? 0 then CleanupBehind minPlayerX 1 cm else cm in
        (b, Some cm, last)
      else (broadcaster t, Some cm, lastBroadcastedChunk t)
  | None => (broadcaster t, None, lastBroadcastedChunk t)
  end.

(** One pass through the body of the ticker's loop. *)
Definition tick (now : Z) (t : Ticker B C) : Ticker B C :=
  let count := wrap64 (tickCount t + 1) in
  let snapshot := GetAllPlayers (gameState t) in
  let '(ps, maxPlayerX, minPlayerX) :=
    physicsLoop snapshot (players (gameState t)) in
  let gs := {| players := ps |} in
  let '(b, cm, last) :=
    chunkPhase count (length snapshot) maxPlayerX minPlayerX t in
  {| gameState := gs;
     broadcaster := BroadcastState now gs b;
     chunkManager := cm;
     tickCount := count;
     lastBroadcastedChunk := last |}.
End Tick.

(** The states a player passes through: created by [NewPlayer], then any
    sequence of jumps, kills and physics steps. *)
Inductive reachable : Player -> Prop :=
| reach_new id name : reachable (NewPlayer id name)
| reach_jump p : reachable p -> reachable (Jump p)
| reach_kill p : reachable p -> reachable (Kill p)
| reach_physics p : reachable p -> reachable (updatePlayerPhysics p).

(** Grounded implies at rest. *)
Definition grounded_at_rest (p : Player) : Prop :=
  IsGrounded p = true -> VelocityY p = 0%float.

End Game.

(** ** Package generation *)

Module Generation.

Import GoNum.

(** *** chunk.go *)

Definition ChunkSize : float := 5000%float.
Definition ObstacleTypeTall : Z := 1.
Definition ObstacleTypeLow : Z := 2.
Definition ObstacleTypeSpike : Z := 3.
Definition MinObstaclesPerChunk : Z := 3.
Definition MaxObstaclesPerChunk : Z := 8.
Definition ObstacleSpacing : float := 300%float.

(** The field [Type] of the Go struct is [Type_] here. *)
Record Obstacle := mkObstacle {
  Type_ : Z;
  X : float;
  Y : float
}.

Record Chunk := mkChunk {
  ID : Z;
  Obstacles : list Obstacle
}.

(** What [GenerateChunk] calls in Go's standard library: [sha256.Sum256],
    and a generator [rand.New(rand.NewSource(seed))] with its methods
    [Intn] and [Float64].  [R] is the state of the generator; a draw returns
    the value drawn and the state after it. *)
Class GoLibrary (R : Type) := {
  sha256_Sum256 : list Byte.byte -> list Byte.byte;
  rand_New : Z -> R;
  Intn : Z -> R -> Z * R;
  Float64 : R -> float * R
}.

(** The documented contract of [math/rand]: [Intn n] is in [[0, n)] and
    [Float64] is in [[0.0, 1.0)]. *)
Class GoLibrarySpec (R : Type) `{!GoLibrary R} : Prop := {
  Intn_range : forall n r, 0 < n -> 0 <= (Intn n r).1 < n;
  Float64_range : forall r,
    (0 <=? (Float64 r).1)%float = true /\ ((Float64 r).1 <? 1)%float = true
}.

(** [binary.BigEndian.Uint64]. *)
Definition BigEndian_Uint64 (b : list Byte.byte) : Z :=
  foldl (fun acc x => acc * 256 + Z.of_N (Byte.to_N x)) 0 b.

Section Generate.
Context {R : Type} `{!GoLibrary R}.

Definition chunkSeed (masterSeed : string) (chunkID : Z) : Z :=
  let seedSource := String.append masterSeed (String.append "-" (itoa chunkID)) in
  let hash := sha256_Sum256 (String.list_byte_of_string seedSource) in
  wrap64 (BigEndian_Uint64 (take 8 hash)).

(** The loop of [GenerateChunk]; [n] is [obstacleCount - i]. *)
Fixpoint placeObstacles (n : nat) (rng : R) (currentX chunkEndX : float)
    (obstacles : list Obstacle) : list Obstacle :=
  match n with
  | O => obstacles
  | S n' =>
      if (currentX <? chunkEndX - 500)%float then
        let '(t, rng) := Intn 3 rng in
        let obstacleType := 1 + t in
        let '(f, rng) := Float64 rng in
        let xOffset := (f * 200)%float in
        let obstacleX := (currentX + xOffset)%float in
        if (chunkEndX <=? obstacleX)%float then obstacles
        else
          let obstacleY := 0%float in
          let obstacles :=
            obstacles ++ [ {| Type_ := obstacleType; X := obstacleX;
                              Y := obstacleY |} ] in
          let '(g, rng) := Float64 rng in
          let currentX := (currentX + (ObstacleSpacing + g * 200))%float in
          placeObstacles n' rng currentX chunkEndX obstacles
      else obstacles
  end.

Definition GenerateChunk (masterSeed : string) (chunkID : Z) : Chunk :=
  let seed := chunkSeed masterSeed chunkID in
  let rng := rand_New seed in
  let '(k, rng) :=
    Intn (MaxObstaclesPerChunk - MinObstaclesPerChunk + 1) rng in
  let obstacleCount := MinObstaclesPerChunk + k in
  let chunkStartX := (float64_of_int chunkID * ChunkSize)%float in
  let chunkEndX := (float64_of_int (wrap64 (chunkID + 1)) * ChunkSize)%float in
  let currentX := (chunkStartX + 500)%float in
  {| ID := chunkID;
     Obstacles :=
       placeObstacles (Z.to_nat obstacleCount) rng currentX chunkEndX [] |}.

(** *** manager.go *)

Record ChunkManager := mkChunkManager {
  masterSeed : string;
  chunks : gmap Z Chunk
}.

Definition NewChunkManager (masterSeed : string) : ChunkManager :=
  {| masterSeed := masterSeed; chunks := ∅ |}.

(** The optimistic read and the re-check under the write lock see the same
    map when no other goroutine runs in between. *)
Definition GetOrGenerateChunk (chunkID : Z) (cm : ChunkManager)
  : Chunk * ChunkManager :=
  match chunks cm !! chunkID with
  | Some chunk => (chunk, cm)
  | None =>
      let chunk := GenerateChunk (masterSeed cm) chunkID in
      (chunk, {| masterSeed := masterSeed cm;
                 chunks := <[chunkID := chunk]> (chunks cm) |})
  end.

(** [n] calls of [GetOrGenerateChunk], for the IDs [chunkID], [chunkID+1],
    ...; the chunks are collected in that order. *)
Fixpoint getChunksFrom (n : nat) (chunkID : Z) (cm : ChunkManager)
  : list Chunk * ChunkManager :=
  match n with
  | O => ([], cm)
  | S n' =>
      let '(chunk, cm) := GetOrGenerateChunk chunkID cm in
      let '(rest, cm) := getChunksFrom n' (wrap64 (chunkID + 1)) cm in
      (chunk :: rest, cm)
  end.

(** [None] is the run-time panic of [make] on a negative capacity. *)
Definition GetChunksInRange (startX endX : float) (cm : ChunkManager)
  : option (list Chunk * ChunkManager) :=
  if (endX <=? startX)%float then Some ([], cm)
  else
    let startChunkID := int_of_float64 (startX / ChunkSize)%float in
    let endChunkID := int_of_float64 (endX / ChunkSize)%float in
    let capacity := wrap64 (wrap64 (endChunkID - startChunkID) + 1) in
    if capacity <? 0 then None
    else Some (getChunksFrom (Z.to_nat (endChunkID - startChunkID + 1))
                 startChunkID cm).

Definition GenerateAheadForPlayer (playerX : float) (chunksAhead : Z)
    (cm : ChunkManager) : ChunkManager :=
  let currentChunkID := int_of_float64 (playerX / ChunkSize)%float in
  (getChunksFrom (Z.to_nat (chunksAhead + 1)) currentChunkID cm).2.

Definition CleanupBehind (minPlayerX : float) (keepBehind : Z)
    (cm : ChunkManager) : ChunkManager :=
  let trailingChunkID := int_of_float64 (minPlayerX / ChunkSize)%float in
  let cleanupThreshold := wrap64 (trailingChunkID - keepBehind) in
  {| masterSeed := masterSeed cm;
     chunks := filter (fun kv => ~ kv.1 < cleanupThreshold) (chunks cm) |}.

Definition GetAllChunks (cm : ChunkManager) : list Chunk :=
  (map_to_list (chunks cm)).*2.

Definition GetOrGenerateChunkInterface (chunkID : Z) (cm : ChunkManager)
  : option Chunk * ChunkManager :=
  let '(chunk, cm) := GetOrGenerateChunk chunkID cm in (Some chunk, cm).

#[export] Instance manager_ChunkManager : Game.ChunkManager ChunkManager Chunk := {
  Game.GenerateAheadForPlayer := GenerateAheadForPlayer;
  Game.CleanupBehind := CleanupBehind;
  Game.GetOrGenerateChunkInterface := GetOrGenerateChunkInterface
}.

(** The calls a manager receives between its construction and a lookup. *)
Inductive Call :=
| CallGetOrGenerateChunk (chunkID : Z)
| CallGetChunksInRange (startX endX : float)
| CallGenerateAheadForPlayer (playerX : float) (chunksAhead : Z)
| CallCleanupBehind (minPlayerX : float) (keepBehind : Z)
| CallGetAllChunks.

Definition call (cm : ChunkManager) (c : Call) : ChunkManager :=
  match c with
  | CallGetOrGenerateChunk chunkID => (GetOrGenerateChunk chunkID cm).2
  | CallGetChunksInRange startX endX =>
      match GetChunksInRange startX endX cm with
      | Some (_, cm') => cm'
      | None => cm
      end
  | CallGenerateAheadForPlayer playerX chunksAhead =>
      GenerateAheadForPlayer playerX chunksAhead cm
  | CallCleanupBehind minPlayerX keepBehind =>
      CleanupBehind minPlayerX keepBehind cm
  | CallGetAllChunks => cm
  end.

Definition history (calls : list Call) (cm : ChunkManager) : ChunkManager :=
  foldl call cm calls.

End Generate.

(** A random source that replays a script: draw [d] answers [Intn n] with
    [d mod n] and [Float64] with [(d mod 4) / 4]; an exhausted script
    answers 0.  It stands in for [math/rand] where a concrete run of
    [GenerateChunk] is evaluated. *)
Definition quarter (d : Z) : float :=
  match d mod 4 with
  | 0 => 0%float
  | 1 => 0.25%float
  | 2 => 0.5%float
  | _ => 0.75%float
  end.

Definition scripted (script : list Z) : GoLibrary (list Z) := {|
  sha256_Sum256 := fun _ => replicate 32 Byte.x00;
  rand_New := fun _ => script;
  Intn := fun n r => match r with
                     | [] => (0, [])
                     | d :: r' => (d mod n, r')
                     end;
  Float64 := fun r => match r with
                      | [] => (0%float, [])
                      | d :: r' => (quarter d, r')
                      end
|}.

End Generation.

(** ** Package network *)

Module Network.

Import GoNum.

(** *** messages.go *)

Record PlayerState := mkPlayerState {
  I : Z;
  X : float;
  Y : float
}.

Record StateMessage := mkStateMessage {
  T : Z;
  P : list PlayerState
}.

(** The fields [T], [X] and [Y] of the Go struct [ObstacleData]. *)
Record ObstacleData := mkObstacleData {
  obstacleT : Z;
  obstacleX : float;
  obstacleY : float
}.

(** The fields [ID] and [Obs] of the Go struct [ChunkMessage]. *)
Record ChunkMessage := mkChunkMessage {
  chunkID : Z;
  Obs : list ObstacleData
}.

(** The dynamic type of the field [D]. *)
Inductive Payload :=
| StateData (m : StateMessage)
| ChunkData (m : ChunkMessage).

Record Message := mkMessage {
  E : string;
  D : Payload
}.

(** [json.Marshal]; [None] is its error. *)
Class Json := { Marshal : Message -> option (list Byte.byte) }.

(** *** hub.go *)

(** A buffered channel of encoded messages: what it holds, oldest first,
    and the capacity it was made with. *)
Record Chan := mkChan {
  queue : list (list Byte.byte);
  capacity : nat
}.

Definition make_chan (capacity : nat) : Chan :=
  {| queue := []; capacity := capacity |}.

(** [select { case ch <- m: default: }]: the send happens when the buffer
    has room, and the default branch is taken otherwise. *)
Definition trySend (m : list Byte.byte) (ch : Chan) : Chan :=
  if (length (queue ch) <? capacity ch)%nat then
    {| queue := queue ch ++ [m]; capacity := capacity ch |}
  else ch.

(** A receive by the writer goroutine; [None] when the channel is empty. *)
Definition receive (ch : Chan) : option (list Byte.byte * Chan) :=
  match queue ch with
  | [] => None
  | m :: q => Some (m, {| queue := q; capacity := capacity ch |})
  end.

Record ClientConnection := mkClientConnection {
  PlayerID : Z;
  SendChan : Chan;
  closed : bool
}.

Record ClientHub := mkClientHub { clients : gmap Z ClientConnection }.

Definition NewClientHub : ClientHub := {| clients := ∅ |}.

Definition AddClient (playerID : Z) (h : ClientHub) : ClientHub :=
  let client := {| PlayerID := playerID; SendChan := make_chan 10;
                   closed := false |} in
  {| clients := <[playerID := client]> (clients h) |}.

(** The channel is closed and the entry deleted under one lock, so the
    channel of a registered client is always open. *)
Definition RemoveClient (playerID : Z) (h : ClientHub) : ClientHub :=
  {| clients := delete playerID (clients h) |}.

(** One step of a client's [writeLoop]: the oldest message leaves the
    channel for the socket. *)
Definition writeLoopStep (playerID : Z) (h : ClientHub) : ClientHub :=
  match clients h !! playerID with
  | Some client =>
      match receive (SendChan client) with
      | Some (_, ch) =>
          {| clients := <[playerID := {| PlayerID := PlayerID client;
                                         SendChan := ch;
                                         closed := closed client |}]>
                          (clients h) |}
      | None => h
      end
  | None => h
  end.

Definition sendTo (messageBytes : list Byte.byte) (client : ClientConnection)
  : ClientConnection :=
  {| PlayerID := PlayerID client;
     SendChan := trySend messageBytes (SendChan client);
     closed := closed client |}.

(** The loop [for playerID, client := range h.clients] of both broadcasts:
    one non-blocking send per registered client. *)
Definition sendAll (messageBytes : list Byte.byte) (h : ClientHub) : ClientHub :=
  {| clients := sendTo messageBytes <$> clients h |}.

(** The player states of a state message: the alive players of the
    snapshot, in its order. *)
Definition playerStates (gameState : Game.GameState) : list PlayerState :=
  foldl (fun acc ptr =>
           match Game.players gameState !! ptr with
           | Some player =>
               if Game.IsAlive player then
                 acc ++ [ {| I := Game.ID player; X := Game.X player;
                             Y := Game.Y player |} ]
               else acc
           | None => acc
           end)
        [] (Game.GetAllPlayers gameState).

Definition stateMsg (now : Z) (gameState : Game.GameState) : Message :=
  {| E := "state";
     D := StateData {| T := now; P := playerStates gameState |} |}.

(** A float that [encoding/json] encodes: neither a NaN nor an infinity. *)
Definition json_float (f : float) : bool :=
  negb (PrimFloat.is_nan f || PrimFloat.is_infinity f).

(** The chunk goes through [encoding/json] and back; a float the encoder
    refuses makes the helper return the empty slice. *)
Definition convertChunkToObstacles (chunkData : Generation.Chunk)
  : list ObstacleData :=
  if forallb (fun o => json_float (Generation.X o) && json_float (Generation.Y o))
       (Generation.Obstacles chunkData)
  then
    map (fun o => {| obstacleT := Generation.Type_ o;
                     obstacleX := Generation.X o;
                     obstacleY := Generation.Y o |})
        (Generation.Obstacles chunkData)
  else [].

Definition chunkMsg (id : Z) (chunkData : Generation.Chunk) : Message :=
  {| E := "chunk";
     D := ChunkData {| chunkID := id;
                       Obs := convertChunkToObstacles chunkData |} |}.

Section Hub.
Context `{!Json}.

Definition BroadcastState (now : Z) (gameState : Game.GameState)
    (h : ClientHub) : ClientHub :=
  match Marshal (stateMsg now gameState) with
  | None => h
  | Some messageBytes => sendAll messageBytes h
  end.

Definition BroadcastChunk (id : Z) (chunkData : Generation.Chunk)
    (h : ClientHub) : ClientHub :=
  match Marshal (chunkMsg id chunkData) with
  | None => h
  | Some messageBytes => sendAll messageBytes h
  end.

#[export] Instance hub_Broadcaster : Game.Broadcaster ClientHub := {
  Game.BroadcastState := BroadcastState
}.

#[export] Instance hub_ChunkBroadcaster
  : Game.ChunkBroadcaster ClientHub Generation.Chunk := {
  Game.BroadcastChunk := BroadcastChunk
}.

(** The hubs the server can be in. *)
Inductive hub_reachable : ClientHub -> Prop :=
| hub_new : hub_reachable NewClientHub
| hub_add playerID h : hub_reachable h -> hub_reachable (AddClient playerID h)
| hub_remove playerID h :
    hub_reachable h -> hub_reachable (RemoveClient playerID h)
| hub_write playerID h :
    hub_reachable h -> hub_reachable (writeLoopStep playerID h)
| hub_state now gameState h :
    hub_reachable h -> hub_reachable (BroadcastState now gameState h)
| hub_chunk id chunkData h :
    hub_reachable h -> hub_reachable (BroadcastChunk id chunkData h).

End Hub.

(** *** handler.go: the jump event of [HandleClient] *)
Definition handleJump (playerID : Z) (gameState : Game.GameState)
  : Game.GameState :=
  if playerID =? 0 then gameState
  else
    match Game.GetPlayer playerID gameState with
    | Some player =>
        {| Game.players :=
             <[playerID := Game.Jump player]> (Game.players gameState) |}
    | None => gameState
    end.

(** An encoder that stands in for [json.Marshal] where a concrete run is
    evaluated: every message is encoded as its event name. *)
Definition eventNameJson : Json :=
  {| Marshal := fun m => Some (String.list_byte_of_string (E m)) |}.

End Network.

(** *** handler.go (package network) *)

Module Handler.

Import GoNum Network.

(** [strings.TrimSpace]; its table of Unicode white space belongs to Go's
    library. *)
Class Strings := { TrimSpace : string -> string }.

(** [html.EscapeString] replaces five characters, byte by byte. *)
Definition escapeByte (c : Ascii.ascii) : string :=
  let s := String c EmptyString in
  if String.eqb s "&" then "&amp;"
  else if String.eqb s "'" then "&#39;"
  else if String.eqb s "<" then "&lt;"
  else if String.eqb s ">" then "&gt;"
  else if Ascii.eqb c (Ascii.ascii_of_nat 34) then "&#34;"
  else s.

Fixpoint EscapeString (s : string) : string :=
  match s with
  | EmptyString => EmptyString
  | String c s' => String.append (escapeByte c) (EscapeString s')
  end.

(** The package variable [playerIDCounter], before and after the call. *)
Definition getNextPlayerID (playerIDCounter : Z) : Z * Z :=
  let playerIDCounter := wrap64 (playerIDCounter + 1) in
  (playerIDCounter, playerIDCounter).

Record JoinMessage := mkJoinMessage { N : string }.

Record WelcomeMessage := mkWelcomeMessage {
  ID : Z;
  Seed : string;
  ServerTime : Z
}.

(** A message as [HandleClient] reads it: the event name [msg.E]; what
    [encoding/json] makes of [msg.D] when [handleJoin] decodes it into a
    [JoinMessage] ([None] is its error); the clock; and whether the write of
    the answer to the socket succeeds. *)
Record Received := mkReceived {
  receivedE : string;
  joinMsg : option JoinMessage;
  serverTime : Z;
  written : bool
}.

(** A frame read from the socket: [json.Unmarshal] refuses it, or it is a
    message. *)
Inductive Read :=
| Unparsable
| Parsed (msg : Received).

(** The objects shared by the client goroutines. *)
Record Server := mkServer {
  playerIDCounter : Z;
  gameState : Game.GameState;
  clientHub : ClientHub
}.

(** The variables of one [HandleClient] call. *)
Record Locals := mkLocals {
  playerID : Z;
  playerName : string
}.

Inductive Flow := Continue | Return.

Section Handler.
Context `{!Strings}.

Definition sanitizePlayerName (name : string) : string :=
  let name := TrimSpace name in
  let name :=
    if (30 <? String.length name)%nat then String.substring 0 30 name
    else name in
  let name := EscapeString name in
  if String.eqb name EmptyString then "Player" else name.

(** The three results of [handleJoin] (the last one is [err != nil]), the
    welcome message handed to [sendMessage], and the shared state. *)
Definition handleJoin (msg : Received) (playerIDCounter : Z)
    (gameState : Game.GameState)
  : (Z * string * bool) * option WelcomeMessage * (Z * Game.GameState) :=
  match joinMsg msg with
  | None => ((0, EmptyString, true), None, (playerIDCounter, gameState))
  | Some joinMsg =>
      let playerName := sanitizePlayerName (N joinMsg) in
      let '(playerID, playerIDCounter) := getNextPlayerID playerIDCounter in
      let player := Game.NewPlayer playerID playerName in
      let gameState := Game.AddPlayer player gameState in
      let seed := String.append "vibe-runner-" (itoa playerID) in
      let welcomeData := {| ID := playerID; Seed := seed;
                            ServerTime := serverTime msg |} in
      if written msg then
        ((playerID, playerName, false), Some welcomeData,
         (playerIDCounter, gameState))
      else
        ((0, EmptyString, true), Some welcomeData,
         (playerIDCounter, gameState))
  end.

(** The body of the message loop for one parsed message. *)
Definition handleMessage (msg : Received) (l : Locals) (s : Server)
  : Flow * Locals * Server :=
  if String.eqb (receivedE msg) "join" then
    let '((playerID, playerName, err), _, (counter, gameState)) :=
      handleJoin msg (playerIDCounter s) (gameState s) in
    let l := {| playerID := playerID; playerName := playerName |} in
    if err then
      (Return, l,
       {| playerIDCounter := counter; gameState := gameState;
          clientHub := clientHub s |})
    else
      (Continue, l,
       {| playerIDCounter := counter; gameState := gameState;
          clientHub := AddClient playerID (clientHub s) |})
  else if String.eqb (receivedE msg) "jump" then
    (Continue, l,
     {| playerIDCounter := playerIDCounter s;
        gameState := handleJump (playerID l) (gameState s);
        clientHub := clientHub s |})
  else (Continue, l, s).

(** The deferred function of [HandleClient]. *)
Definition disconnect (l : Locals) (s : Server) : Server :=
  if playerID l =? 0 then s
  else
    {| playerIDCounter := playerIDCounter s;
       gameState := Game.RemovePlayer (playerID l) (gameState s);
       clientHub := RemoveClient (playerID l) (clientHub s) |}.

(** The message loop over the frames the socket delivers; [ReadMessage]
    fails when they are exhausted. *)
Fixpoint messageLoop (reads : list Read) (l : Locals) (s : Server)
  : Locals * Server :=
  match reads with
  | [] => (l, s)
  | Unparsable :: reads => messageLoop reads l s
  | Parsed msg :: reads =>
      match handleMessage msg l s with
      | (Return, l, s) => (l, s)
      | (Continue, l, s) => messageLoop reads l s
      end
  end.

(** [HandleClient] for a connection served with no other goroutine in
    between. *)
Definition HandleClient (reads : list Read) (s : Server) : Server :=
  let '(l, s) :=
    messageLoop reads {| playerID := 0; playerName := EmptyString |} s in
  disconnect l s.

End Handler.

(** A stand-in for [strings.TrimSpace] where a concrete run is evaluated:
    it removes the ASCII white space [strings.TrimSpace] removes, and
    agrees with it on ASCII strings. *)
Definition asciiSpace (c : Ascii.ascii) : bool :=
  let n := Ascii.nat_of_ascii c in ((9 <=? n) && (n <=? 13) || (n =? 32))%nat.

Fixpoint trimLeft (s : string) : string :=
  match s with
  | String c s' => if asciiSpace c then trimLeft s' else s
  | EmptyString => EmptyString
  end.

Fixpoint trimRight (s : string) : string :=
  match s with
  | String c s' =>
      match trimRight s' with
      | EmptyString => if asciiSpace c then EmptyString else String c EmptyString
      | t => String c t
      end
  | EmptyString => EmptyString
  end.

Definition asciiTrim : Strings :=
  {| TrimSpace := fun s => trimRight (trimLeft s) |}.

End Handler.

(** *** main.go *)

Module Main.

Import GoNum Network Handler.

Section Main.
Context {R : Type} `{!Generation.GoLibrary R} `{!Json} `{!Strings}.

(** The server: the objects [main] creates, the variables of the ticker's
    goroutine, and the variables of every running [HandleClient], by
    connection. *)
Record World := mkWorld {
  shared : Server;
  chunkManager : option Generation.ChunkManager;
  tickCount : Z;
  lastBroadcastedChunk : Z;
  handlers : gmap Z Locals
}.

(** [main] up to the start of the HTTP server, in the version that serves
    its connections with the [HandleClient] of handler.go: the ticker is
    started without a chunk manager. *)
Definition main : World :=
  let gameState := Game.NewGameState in
  let clientHub := NewClientHub in
  let t := @Game.StartGameTicker ClientHub Generation.ChunkManager
             gameState clientHub None in
  {| shared := {| playerIDCounter := 0; gameState := Game.gameState t;
                  clientHub := Game.broadcaster t |};
     chunkManager := Game.chunkManager t;
     tickCount := Game.tickCount t;
     lastBroadcastedChunk := Game.lastBroadcastedChunk t;
     handlers := ∅ |}.

(** The chunk manager the later [main] hands to the ticker: the master
    seed is made of the clock, and the chunks 0, 1 and 2 are generated
    before the ticker starts. *)
Definition mainChunkManager (unixTime : Z) : Generation.ChunkManager :=
  let masterSeed := String.append "vibe-runner-" (itoa unixTime) in
  let chunkManager := Generation.NewChunkManager masterSeed in
  foldl (fun cm i => (Generation.GetOrGenerateChunk i cm).2)
        chunkManager [0; 1; 2].

(** What happens in the server, one goroutine at a time. *)
Inductive Event :=
| Accept (conn : Z)
| Receive (conn : Z) (r : Read)
| Close (conn : Z)
| TickerFires (now : Z)
| WriterRuns (playerID : Z).

Definition tickerFires (now : Z) (w : World) : World :=
  let t := @Game.tick _ _ _ hub_Broadcaster Generation.manager_ChunkManager
             (Some hub_ChunkBroadcaster) now
             {| Game.gameState := gameState (shared w);
                Game.broadcaster := clientHub (shared w);
                Game.chunkManager := chunkManager w;
                Game.tickCount := tickCount w;
                Game.lastBroadcastedChunk := lastBroadcastedChunk w |} in
  {| shared := {| playerIDCounter := playerIDCounter (shared w);
                  gameState := Game.gameState t;
                  clientHub := Game.broadcaster t |};
     chunkManager := Game.chunkManager t;
     tickCount := Game.tickCount t;
     lastBroadcastedChunk := Game.lastBroadcastedChunk t;
     handlers := handlers w |}.

Definition withShared (s : Server) (hs : gmap Z Locals) (w : World) : World :=
  {| shared := s; chunkManager := chunkManager w; tickCount := tickCount w;
     lastBroadcastedChunk := lastBroadcastedChunk w; handlers := hs |}.

Definition step (w : World) (e : Event) : World :=
  match e with
  | Accept conn =>
      match handlers w !! conn with
      | Some _ => w
      | None =>
          withShared (shared w)
            (<[conn := {| playerID := 0; playerName := EmptyString |}]>
               (handlers w)) w
      end
  | Receive conn Unparsable => w
  | Receive conn (Parsed msg) =>
      match handlers w !! conn with
      | None => w
      | Some l =>
          match handleMessage msg l (shared w) with
          | (Continue, l, s) => withShared s (<[conn := l]> (handlers w)) w
          | (Return, l, s) =>
              withShared (disconnect l s) (delete conn (handlers w)) w
          end
      end
  | Close conn =>
      match handlers w !! conn with
      | None => w
      | Some l =>
          withShared (disconnect l (shared w)) (delete conn (handlers w)) w
      end
  | TickerFires now => tickerFires now w
  | WriterRuns playerID =>
      withShared
        {| playerIDCounter := playerIDCounter (shared w);
           gameState := gameState (shared w);
           clientHub := writeLoopStep playerID (clientHub (shared w)) |}
        (handlers w) w
  end.

Definition run (events : list Event) (w : World) : World :=
  foldl step w events.

End Main.

End Main.

(** * Verification *)

(** ** Rounding to binary64

    The bounds on generated chunks hold for every draw of the random
    source, so they need the order and the rounding of binary64 values and
    not only their evaluation.  [Rounding] is the arithmetic of rounding to
    nearest, ties to even, on scaled integers; [Binary64] relates it to the
    operations of [SpecFloat], which specify the primitive floats;
    [Float64] states the result for the primitive operations on
    non-negative values. *)

Module Rounding.

(** [v / 2^k] rounded to the nearest integer, ties to even. *)
Definition rne (v k : Z) : Z :=
  let q := v / 2 ^ k in
  let r := v mod 2 ^ k in
  if 2 * r <? 2 ^ k then q
  else if 2 ^ k <? 2 * r then q + 1
  else if Z.even q then q else q + 1.

Lemma rne_cases (v k : Z) :
  0 <= k ->
  exists q r, v = q * 2 ^ k + r /\ 0 <= r < 2 ^ k /\
    ((2 * r < 2 ^ k /\ rne v k = q) \/
     (2 ^ k < 2 * r /\ rne v k = q + 1) \/
     (2 * r = 2 ^ k /\ Z.even q = true /\ rne v k = q) \/
     (2 * r = 2 ^ k /\ Z.even q = false /\ rne v k = q + 1)).
Proof.
  intros Hk. assert (HP : 0 < 2 ^ k) by (apply Z.pow_pos_nonneg; lia).
  exists (v / 2 ^ k), (v mod 2 ^ k).
  pose proof (Z.div_mod v (2 ^ k) ltac:(lia)) as Hdm.
  pose proof (Z.mod_pos_bound v (2 ^ k) HP) as Hb.
  split; [lia |]. split; [lia |]. unfold rne.
  destruct (Z.ltb_spec (2 * (v mod 2 ^ k)) (2 ^ k)); [left; lia |].
  destruct (Z.ltb_spec (2 ^ k) (2 * (v mod 2 ^ k))); [right; left; lia |].
  destruct (Z.even (v / 2 ^ k)) eqn:He; right; right; [left | right];
    repeat split; lia.
Qed.

Lemma rne_exact (a k : Z) : 0 <= k -> rne (a * 2 ^ k) k = a.
Proof.
  intros Hk. assert (HP : 0 < 2 ^ k) by (apply Z.pow_pos_nonneg; lia).
  unfold rne. rewrite Z.div_mul, Z.mod_mul by lia.
  destruct (Z.ltb_spec (2 * 0) (2 ^ k)); [reflexivity | lia].
Qed.

Lemma rne_mono (v w k : Z) : 0 <= k -> v <= w -> rne v k <= rne w k.
Proof.
  intros Hk Hvw. assert (HP : 0 < 2 ^ k) by (apply Z.pow_pos_nonneg; lia).
  destruct (rne_cases v k Hk) as (q & r & Hv & Hr & Hc).
  destruct (rne_cases w k Hk) as (q' & r' & Hw & Hr' & Hc').
  assert (Hq : q <= q') by nia.
  destruct (Z.eq_dec q q') as [<- | Hne].
  - assert (r <= r') by lia.
    destruct Hc as [[? ->] | [[? ->] | [(? & ? & ->) | (? & ? & ->)]]];
    destruct Hc' as [[? ->] | [[? ->] | [(? & ? & ->) | (? & ? & ->)]]];
    try lia; congruence.
  - assert (q + 1 <= q') by lia.
    destruct Hc as [[? ->] | [[? ->] | [(? & ? & ->) | (? & ? & ->)]]];
    destruct Hc' as [[? ->] | [[? ->] | [(? & ? & ->) | (? & ? & ->)]]];
    lia.
Qed.

Lemma rne_small (v k : Z) : 0 <= v -> 2 * v < 2 ^ k -> rne v k = 0.
Proof.
  intros Hv Hk. unfold rne.
  rewrite Z.div_small, Z.mod_small by lia.
  destruct (Z.ltb_spec (2 * v) (2 ^ k)); [reflexivity | lia].
Qed.

Lemma rne_ge (a w k : Z) : 0 <= k -> a * 2 ^ k <= w -> a <= rne w k.
Proof.
  intros Hk Hw. rewrite <- (rne_exact a k Hk). apply rne_mono; assumption.
Qed.

Lemma rne_le (a w k : Z) : 0 <= k -> w <= a * 2 ^ k -> rne w k <= a.
Proof.
  intros Hk Hw. rewrite <- (rne_exact a k Hk). apply rne_mono; assumption.
Qed.

Lemma rne_shift (v k a : Z) :
  0 <= k -> 0 <= a -> rne (v * 2 ^ a) (k + a) = rne v k.
Proof.
  intros Hk Ha.
  assert (HP : 0 < 2 ^ k) by (apply Z.pow_pos_nonneg; lia).
  assert (HA : 0 < 2 ^ a) by (apply Z.pow_pos_nonneg; lia).
  unfold rne. rewrite Z.pow_add_r by lia.
  rewrite (Z.mul_comm (2 ^ k) (2 ^ a)).
  rewrite (Z.mul_comm v (2 ^ a)).
  rewrite Z.div_mul_cancel_l by lia.
  rewrite Z.mul_mod_distr_l by lia.
  set (q := v / 2 ^ k). set (r := v mod 2 ^ k).
  destruct (Z.ltb_spec (2 * r) (2 ^ k)), (Z.ltb_spec (2 * (2 ^ a * r)) (2 ^ a * 2 ^ k));
    try nia; try reflexivity.
  destruct (Z.ltb_spec (2 ^ k) (2 * r)), (Z.ltb_spec (2 ^ a * 2 ^ k) (2 * (2 ^ a * r)));
    try nia; reflexivity.
Qed.

(** The scale: values are counted in units of [2^-2148], so that the
    exact product of two binary64 values is an integer. *)
Definition K : Z := 2148.
Definition U : Z := 2 ^ K.

Definition fexpK (d : Z) : Z := Z.max (d - 53) (K - 1074).

(** Rounding to binary64 (to nearest, ties to even) of a non-negative
    value below the overflow threshold, in units of [2^-2148]. *)
Definition RND (v : Z) : Z :=
  let ex := fexpK (Z.log2 v + 1) in rne v ex * 2 ^ ex.

Lemma fexpK_nonneg d : 0 <= fexpK d.
Proof. unfold fexpK, K. lia. Qed.

Lemma fexpK_mono d d' : d <= d' -> fexpK d <= fexpK d'.
Proof. unfold fexpK. lia. Qed.

Lemma RND_exact (v : Z) :
  0 <= v -> (2 ^ fexpK (Z.log2 v + 1) | v) -> RND v = v.
Proof.
  intros Hv [a Ha]. unfold RND.
  set (ex := fexpK (Z.log2 v + 1)) in *.
  assert (Hr : rne v ex = a).
  { rewrite Ha. apply rne_exact, fexpK_nonneg. }
  rewrite Hr. lia.
Qed.

Lemma RND_nonneg (v : Z) : 0 <= v -> 0 <= RND v.
Proof.
  intros Hv. unfold RND.
  pose proof (fexpK_nonneg (Z.log2 v + 1)) as He.
  assert (0 < 2 ^ fexpK (Z.log2 v + 1)) by (apply Z.pow_pos_nonneg; lia).
  assert (0 <= rne v (fexpK (Z.log2 v + 1))).
  { apply (rne_ge 0); lia. }
  nia.
Qed.

Lemma RND_mono (v w : Z) : 0 <= v -> v <= w -> RND v <= RND w.
Proof.
  intros Hv Hvw.
  destruct (Z.eq_dec v 0) as [-> | Hv0].
  { change (RND 0) with 0. apply RND_nonneg. lia. }
  assert (Hv' : 0 < v) by lia. assert (Hw' : 0 < w) by lia.
  pose proof (Z.log2_le_mono v w Hvw) as Hlog.
  pose proof (Z.log2_spec v Hv') as [Hv1 Hv2].
  pose proof (Z.log2_spec w Hw') as [Hw1 Hw2].
  pose proof (Z.log2_nonneg v) as Hlv. pose proof (Z.log2_nonneg w) as Hlw.
  unfold RND.
  remember (fexpK (Z.log2 v + 1)) as ev eqn:Dev.
  remember (fexpK (Z.log2 w + 1)) as ew eqn:Dew.
  assert (Hev : 0 <= ev) by (subst ev; apply fexpK_nonneg).
  assert (Hew : 0 <= ew) by (subst ew; apply fexpK_nonneg).
  assert (Hevw : ev <= ew) by (subst ev ew; apply fexpK_mono; lia).
  unfold fexpK, K in Dev, Dew.
  destruct (Z.eq_dec ev ew) as [Heq | Hne].
  - rewrite <- Heq.
    assert (0 < 2 ^ ev) by (apply Z.pow_pos_nonneg; lia).
    pose proof (rne_mono v w ev Hev Hvw). nia.
  - (* the binade of [w] is higher: a power of two lies in between *)
    assert (Hlt : ev < ew) by lia.
    assert (Hew' : ew = Z.log2 w - 52) by (clear -Dev Dew Hlt; lia).
    assert (Hlvw : Z.log2 v + 1 <= Z.log2 w) by (clear -Dev Dew Hlt; lia).
    assert (Hup : rne v ev * 2 ^ ev <= 2 ^ (Z.log2 v + 1)).
    { destruct (Z_le_gt_dec ev (Z.log2 v + 1)) as [Hle | Hgt].
      - assert (rne v ev <= 2 ^ (Z.log2 v + 1 - ev)).
        { apply rne_le; [lia |]. rewrite <- Z.pow_add_r by lia.
          replace (Z.log2 v + 1 - ev + ev) with (Z.log2 v + 1) by lia. lia. }
        assert (0 < 2 ^ ev) by (apply Z.pow_pos_nonneg; lia).
        replace (2 ^ (Z.log2 v + 1)) with (2 ^ (Z.log2 v + 1 - ev) * 2 ^ ev).
        + nia.
        + rewrite <- Z.pow_add_r by lia. f_equal. lia.
      - assert (Hz : rne v ev = 0).
        { apply rne_small; [lia |].
          assert (2 ^ (Z.log2 v + 2) <= 2 ^ ev)
            by (apply Z.pow_le_mono_r; lia).
          replace (Z.log2 v + 2) with (Z.succ (Z.log2 v) + 1) in * by lia.
          rewrite Z.pow_add_r in * by lia. lia. }
        rewrite Hz.
        assert (0 < 2 ^ (Z.log2 v + 1)) by (apply Z.pow_pos_nonneg; lia).
        lia. }
    assert (Hdown : 2 ^ Z.log2 w <= rne w ew * 2 ^ ew).
    { assert (2 ^ (Z.log2 w - ew) <= rne w ew).
      { apply rne_ge; [lia |]. rewrite <- Z.pow_add_r by lia.
        replace (Z.log2 w - ew + ew) with (Z.log2 w) by lia. lia. }
      assert (0 < 2 ^ ew) by (apply Z.pow_pos_nonneg; lia).
      replace (2 ^ Z.log2 w) with (2 ^ (Z.log2 w - ew) * 2 ^ ew).
      + nia.
      + rewrite <- Z.pow_add_r by lia. f_equal. lia. }
    assert (2 ^ (Z.log2 v + 1) <= 2 ^ Z.log2 w)
      by (apply Z.pow_le_mono_r; lia).
    lia.
Qed.

Lemma U_pos : 0 < U.
Proof. unfold U, K. apply Z.pow_pos_nonneg; lia. Qed.

(** Integers up to [2^53] are binary64 values. *)
Lemma RND_int (n : Z) : 0 <= n <= 2 ^ 53 -> RND (n * U) = n * U.
Proof.
  intros Hn. pose proof U_pos as HU.
  destruct (Z.eq_dec n 0) as [-> | Hn0]; [reflexivity |].
  apply RND_exact; [nia |].
  unfold U. rewrite Z.log2_mul_pow2 by (unfold K; lia).
  pose proof (Z.log2_spec n ltac:(lia)) as [Hl1 Hl2].
  pose proof (Z.log2_nonneg n) as Hl0.
  destruct (Z.eq_dec n (2 ^ 53)) as [-> | Hne].
  - rewrite Z.log2_pow2 by lia.
    exists (2 ^ 52). unfold fexpK, K. reflexivity.
  - assert (Z.log2 n < 53).
    { apply Z.log2_lt_pow2; lia. }
    assert (Hfe : fexpK (K + Z.log2 n + 1) <= K) by (unfold fexpK, K; lia).
    pose proof (fexpK_nonneg (K + Z.log2 n + 1)) as Hfe0.
    exists (n * 2 ^ (K - fexpK (K + Z.log2 n + 1))).
    rewrite <- Z.mul_assoc, <- Z.pow_add_r by lia.
    do 2 f_equal. lia.
Qed.

End Rounding.

Module Binary64.

Import Rounding.

(** A non-negative finite value. *)
Definition nnf (x : spec_float) : Prop :=
  match x with
  | S754_zero _ => True
  | S754_finite false _ _ => True
  | _ => False
  end.

(** Its value in units of [2^-2148]. *)
Definition F (x : spec_float) : Z :=
  match x with
  | S754_finite false m e => Z.pos m * 2 ^ (e + K)
  | _ => 0
  end.

Lemma digits2_log2 (p : positive) :
  Z.pos (digits2_pos p) = Z.log2 (Z.pos p) + 1.
Proof.
  assert (Hs : forall q, digits2_pos q = Pos.size q)
    by (induction q as [q IH | q IH |]; simpl; congruence).
  rewrite Hs. destruct p as [p | p |]; simpl; lia.
Qed.

Lemma Zdigits2_log2 (m : Z) : 0 < m -> Zdigits2 m = Z.log2 m + 1.
Proof. destruct m as [| p | p]; try lia. intros _. apply digits2_log2. Qed.

Lemma Zdigits2_nonneg (m : Z) : 0 <= Zdigits2 m.
Proof. destruct m; simpl; lia. Qed.

(** The exponent of a value with [d] digits: [fexp] of binary64. *)
Lemma fexp64 (d : Z) : fexp prec emax d = Z.max (d - 53) (-1074).
Proof. reflexivity. Qed.

Lemma valid_finite (s : bool) (m : positive) (e : Z) :
  valid_binary (S754_finite s m e) = true ->
  e = Z.max (Z.log2 (Z.pos m) + 1 + e - 53) (-1074) /\ e <= 971.
Proof.
  unfold SpecFloat.valid_binary, bounded, canonical_mantissa.
  rewrite andb_true_iff, Z.eqb_eq, Z.leb_le, fexp64, digits2_log2.
  change (emax - prec) with 971. lia.
Qed.

(** A valid value is a fixed point of the rounding. *)
Lemma RND_valid (x : spec_float) :
  valid_binary x = true -> RND (F x) = F x.
Proof.
  destruct x as [s | s | | s m e]; try reflexivity.
  destruct s; [reflexivity |]. intros Hv.
  destruct (valid_finite false m e Hv) as [He _]. simpl F.
  assert (HeK : 0 <= e + K) by (unfold K; lia).
  apply RND_exact.
  { assert (0 < 2 ^ (e + K)) by (apply Z.pow_pos_nonneg; lia). lia. }
  rewrite Z.log2_mul_pow2 by lia.
  assert (Hfe : fexpK (e + K + Z.log2 (Z.pos m) + 1) = e + K)
    by (unfold fexpK, K in *; lia).
  rewrite Hfe. exists (Z.pos m). reflexivity.
Qed.

Lemma F_nonneg (x : spec_float) : valid_binary x = true -> 0 <= F x.
Proof.
  destruct x as [s | s | | s m e]; simpl; try lia.
  destruct s; [lia |]. intros Hv.
  destruct (valid_finite false m e Hv) as [He _].
  assert (0 < 2 ^ (e + K)) by (apply Z.pow_pos_nonneg; unfold K; lia). lia.
Qed.

(** *** The right shift with round and sticky bits *)

Lemma iter_pos_nat {A : Type} (f : A -> A) (p : positive) (x : A) :
  SpecFloat.iter_pos f p x = Nat.iter (Pos.to_nat p) f x.
Proof.
  revert x. induction p as [p IH | p IH |]; intros x; simpl SpecFloat.iter_pos.
  - rewrite !IH, Pos2Nat.inj_xI.
    replace (S (2 * Pos.to_nat p)) with (Pos.to_nat p + S (Pos.to_nat p))%nat
      by lia.
    rewrite Nat.iter_add, Nat.iter_succ_r. reflexivity.
  - rewrite !IH, Pos2Nat.inj_xO.
    replace (2 * Pos.to_nat p)%nat with (Pos.to_nat p + Pos.to_nat p)%nat
      by lia.
    rewrite Nat.iter_add. reflexivity.
  - reflexivity.
Qed.

Lemma shr_1_nonneg (m : Z) (r s : bool) :
  0 <= m ->
  shr_1 {| shr_m := m; shr_r := r; shr_s := s |}
  = {| shr_m := m / 2; shr_r := Z.odd m; shr_s := r || s |}.
Proof.
  intros Hm. rewrite <- Z.div2_div.
  destruct m as [| p | p]; [reflexivity | | lia].
  destruct p; reflexivity.
Qed.

Lemma shr_iter_succ (j : nat) (M : Z) :
  0 <= M ->
  Nat.iter (S j) shr_1 {| shr_m := M; shr_r := false; shr_s := false |}
  = {| shr_m := M / 2 ^ (Z.of_nat j + 1);
       shr_r := Z.odd (M / 2 ^ Z.of_nat j);
       shr_s := negb (M mod 2 ^ Z.of_nat j =? 0) |}.
Proof.
  intros HM. induction j as [| j IH].
  - change (Nat.iter 1 shr_1 ?x) with (shr_1 x).
    rewrite shr_1_nonneg by exact HM.
    change (2 ^ (Z.of_nat 0 + 1)) with 2. change (2 ^ Z.of_nat 0) with 1.
    rewrite Z.div_1_r, Z.mod_1_r. reflexivity.
  - change (Nat.iter (S (S j)) shr_1 ?x) with (shr_1 (Nat.iter (S j) shr_1 x)).
    rewrite IH.
    assert (HP : 0 < 2 ^ Z.of_nat j) by (apply Z.pow_pos_nonneg; lia).
    assert (HP1 : 0 < 2 ^ (Z.of_nat j + 1)) by (apply Z.pow_pos_nonneg; lia).
    rewrite shr_1_nonneg by (apply Z.div_pos; lia).
    replace (Z.of_nat (S j)) with (Z.of_nat j + 1) by lia.
    f_equal.
    + rewrite Z.div_div by lia. f_equal.
      rewrite (Z.pow_add_r 2 (Z.of_nat j + 1) 1) by lia. reflexivity.
    + rewrite (Z.pow_add_r 2 (Z.of_nat j) 1) by lia.
      change (2 ^ 1) with 2.
      rewrite Z.rem_mul_r by lia.
      rewrite (Zmod_odd (M / 2 ^ Z.of_nat j)).
      pose proof (Z.mod_pos_bound M (2 ^ Z.of_nat j) HP) as Hb.
      destruct (Z.odd (M / 2 ^ Z.of_nat j)); simpl.
      * destruct (Z.eqb_spec (M mod 2 ^ Z.of_nat j + 2 ^ Z.of_nat j * 1) 0);
          [lia | reflexivity].
      * rewrite Z.mul_0_r, Z.add_0_r. reflexivity.
Qed.

(** Shifting by [k] bits and rounding on the two extra bits is [rne]. *)
Lemma shr_rne (k : nat) (M : Z) :
  0 <= M ->
  let mrs := Nat.iter k shr_1 {| shr_m := M; shr_r := false; shr_s := false |} in
  round_nearest_even (shr_m mrs) (loc_of_shr_record mrs) = rne M (Z.of_nat k).
Proof.
  intros HM. destruct k as [| j].
  - simpl. unfold rne. change (2 ^ 0) with 1.
    rewrite Z.div_1_r, Z.mod_1_r. reflexivity.
  - cbv zeta. rewrite shr_iter_succ by exact HM.
    replace (Z.of_nat (S j)) with (Z.of_nat j + 1) by lia.
    assert (HP : 0 < 2 ^ Z.of_nat j) by (apply Z.pow_pos_nonneg; lia).
    unfold rne.
    rewrite (Z.pow_add_r 2 (Z.of_nat j) 1) by lia. change (2 ^ 1) with 2.
    rewrite (Z.rem_mul_r M) by lia.
    rewrite <- (Z.div_div M (2 ^ Z.of_nat j) 2) by lia.
    rewrite (Zmod_odd (M / 2 ^ Z.of_nat j)).
    pose proof (Z.mod_pos_bound M (2 ^ Z.of_nat j) HP) as Hb.
    set (lo := M mod 2 ^ Z.of_nat j) in *.
    set (q := M / 2 ^ Z.of_nat j / 2).
    simpl shr_m. unfold loc_of_shr_record.
    destruct (Z.odd (M / 2 ^ Z.of_nat j)).
    + destruct (Z.eqb_spec lo 0) as [Hlo | Hlo]; simpl negb; cbv iota.
      * destruct (Z.ltb_spec (2 * (lo + 2 ^ Z.of_nat j * 1)) (2 ^ Z.of_nat j * 2));
          [lia |].
        destruct (Z.ltb_spec (2 ^ Z.of_nat j * 2) (2 * (lo + 2 ^ Z.of_nat j * 1)));
          [lia |].
        reflexivity.
      * destruct (Z.ltb_spec (2 * (lo + 2 ^ Z.of_nat j * 1)) (2 ^ Z.of_nat j * 2));
          [lia |].
        destruct (Z.ltb_spec (2 ^ Z.of_nat j * 2) (2 * (lo + 2 ^ Z.of_nat j * 1)));
          [| lia].
        reflexivity.
    + rewrite Z.mul_0_r, Z.add_0_r.
      destruct (Z.ltb_spec (2 * lo) (2 ^ Z.of_nat j * 2)); [| lia].
      destruct (negb (lo =? 0)); reflexivity.
Qed.

Lemma shr_exact_spec (M e n : Z) :
  0 <= M ->
  shr {| shr_m := M; shr_r := false; shr_s := false |} e n
  = (Nat.iter (Z.to_nat n) shr_1
       {| shr_m := M; shr_r := false; shr_s := false |},
     e + Z.max n 0).
Proof.
  intros HM. unfold shr. destruct n as [| p | p].
  - rewrite Z.add_0_r. reflexivity.
  - rewrite iter_pos_nat. rewrite Z2Nat.inj_pos.
    replace (Z.max (Z.pos p) 0) with (Z.pos p) by lia. reflexivity.
  - simpl Z.to_nat. replace (Z.max (Z.neg p) 0) with 0 by lia.
    rewrite Z.add_0_r. reflexivity.
Qed.


(** *** Rounding a mantissa and an exponent *)

(** The number of bits [binary_round_aux] drops from [M * 2^E]. *)
Definition dropped (M E : Z) : Z :=
  Z.max (Z.max (Z.log2 M + 1 + E - 53) (-1074) - E) 0.

Lemma RND_pair (M E : Z) :
  0 < M -> - K <= E ->
  RND (M * 2 ^ (E + K))
  = rne M (dropped M E) * 2 ^ (E + dropped M E + K).
Proof.
  intros HM HE. unfold dropped.
  set (n := Z.max (Z.log2 M + 1 + E - 53) (-1074) - E).
  assert (Hex : fexpK (Z.log2 (M * 2 ^ (E + K)) + 1) = n + E + K).
  { rewrite Z.log2_mul_pow2 by lia. unfold fexpK, n, K in *. lia. }
  assert (HP : 0 < 2 ^ (E + K)) by (apply Z.pow_pos_nonneg; lia).
  destruct (Z_lt_le_dec n 0) as [Hn | Hn].
  - replace (Z.max n 0) with 0 by lia.
    unfold rne at 1. change (2 ^ 0) with 1.
    rewrite Z.div_1_r, Z.mod_1_r, Z.add_0_r.
    change (2 * 0 <? 1) with true. cbv iota.
    apply RND_exact; [nia |]. rewrite Hex.
    exists (M * 2 ^ (- n)).
    rewrite <- Z.mul_assoc, <- Z.pow_add_r by (unfold n, K in *; lia).
    do 2 f_equal. lia.
  - replace (Z.max n 0) with n by lia.
    unfold RND. rewrite Hex.
    replace (n + E + K) with (n + (E + K)) by lia.
    rewrite rne_shift by lia.
    do 2 f_equal. lia.
Qed.

Lemma rne_dropped_bound (M E : Z) :
  0 < M -> 0 <= rne M (dropped M E) <= 2 ^ 53.
Proof.
  intros HM.
  pose proof (Z.log2_spec M HM) as [_ Hl]. pose proof (Z.log2_nonneg M) as Hl0.
  set (n := dropped M E).
  assert (Hn : 0 <= n /\ Z.log2 M + 1 - 53 <= n) by (unfold n, dropped; lia).
  split; [apply (rne_ge 0); lia |].
  destruct (Z_le_gt_dec n (Z.log2 M + 1)) as [Hle | Hgt].
  - apply Z.le_trans with (2 ^ (Z.log2 M + 1 - n)).
    + apply rne_le; [lia |]. rewrite <- Z.pow_add_r by lia.
      replace (Z.log2 M + 1 - n + n) with (Z.succ (Z.log2 M)) by lia. lia.
    + apply Z.pow_le_mono_r; lia.
  - rewrite rne_small; [lia | lia |].
    assert (2 ^ (Z.succ (Z.log2 M) + 1) <= 2 ^ n)
      by (apply Z.pow_le_mono_r; lia).
    rewrite Z.pow_add_r in * by lia. lia.
Qed.

(** [binary_round_aux] computes [RND], below the overflow threshold. *)
Lemma binary_round_aux_value (pM : positive) (E : Z) :
  - K <= E -> Z.pos pM * 2 ^ (E + K) < 2 ^ (971 + K) ->
  let r := binary_round_aux prec emax false (Z.pos pM) E loc_Exact in
  nnf r /\ F r = RND (Z.pos pM * 2 ^ (E + K)).
Proof.
  intros HE Hlt r.
  set (M := Z.pos pM) in *. assert (HM : 0 < M) by (unfold M; lia).
  rewrite (RND_pair M E HM HE).
  pose proof (rne_dropped_bound M E HM) as Hm1.
  pose proof (Z.log2_nonneg M) as Hl0.
  assert (Hd : Z.log2 M + 1 + E <= 971).
  { assert (HP : 0 < 2 ^ (E + K)) by (apply Z.pow_pos_nonneg; lia).
    assert (Hlog : Z.log2 (M * 2 ^ (E + K)) < 971 + K).
    { apply Z.log2_lt_pow2; [nia | exact Hlt]. }
    rewrite Z.log2_mul_pow2 in Hlog by lia. lia. }
  subst r. unfold binary_round_aux, shr_fexp.
  change (shr_record_of_loc M loc_Exact)
    with {| shr_m := M; shr_r := false; shr_s := false |}.
  rewrite (Zdigits2_log2 M HM), fexp64.
  rewrite shr_exact_spec by lia.
  set (n := Z.max (Z.log2 M + 1 + E - 53) (-1074) - E).
  pose proof (shr_rne (Z.to_nat n) M ltac:(lia)) as Hrne. cbv zeta in Hrne.
  replace (Z.of_nat (Z.to_nat n)) with (dropped M E) in Hrne
    by (unfold dropped; fold n; lia).
  replace (Z.max n 0) with (dropped M E) by (unfold dropped; fold n; lia).
  rewrite Hrne. clear Hrne.
  set (m1 := rne M (dropped M E)) in *.
  set (e1 := E + dropped M E).
  assert (He1 : -1074 <= e1 <= 970 /\ Z.log2 M + 1 + E - 53 <= e1)
    by (unfold e1, dropped; lia).
  change (shr_record_of_loc m1 loc_Exact)
    with {| shr_m := m1; shr_r := false; shr_s := false |}.
  rewrite shr_exact_spec by lia. rewrite fexp64.
  destruct (Z.eq_dec m1 0) as [Hz | Hnz].
  - rewrite Hz. simpl Zdigits2.
    replace (Z.to_nat (Z.max (0 + e1 - 53) (-1074) - e1)) with 0%nat by lia.
    simpl. split; [exact I | reflexivity].
  - assert (Hm1pos : 0 < m1) by lia.
    rewrite (Zdigits2_log2 m1 Hm1pos).
    destruct (Z.eq_dec m1 (2 ^ 53)) as [Htop | Hlow].
    + rewrite Htop. rewrite Z.log2_pow2 by lia.
      replace (Z.max (53 + 1 + e1 - 53) (-1074) - e1) with 1 by lia.
      change (Z.to_nat 1) with 1%nat.
      change (Nat.iter 1 shr_1 ?x) with (shr_1 x).
      rewrite shr_1_nonneg by lia.
      change (2 ^ 53 / 2) with (2 ^ 52). simpl fst. simpl snd.
      cbv beta iota. change (shr_m {| shr_m := 2 ^ 52; shr_r := _; shr_s := _ |})
        with (Z.pos (2 ^ 52)).
      cbv iota.
      replace (e1 + Z.max 1 0 <=? emax - prec) with true
        by (symmetry; apply Z.leb_le; change (emax - prec) with 971; lia).
      split; [exact I |]. simpl F.
      replace (e1 + Z.max 1 0 + K) with (1 + (e1 + K)) by lia.
      rewrite Z.pow_add_r by (unfold K; lia).
      change (Z.pos (2 ^ 52)) with (2 ^ 52). change (2 ^ 53) with (2 ^ 52 * 2 ^ 1).
      lia.
    + assert (Hlog : Z.log2 m1 < 53) by (apply Z.log2_lt_pow2; lia).
      pose proof (Z.log2_nonneg m1) as Hl1.
      replace (Z.to_nat (Z.max (Z.log2 m1 + 1 + e1 - 53) (-1074) - e1))
        with 0%nat by lia.
      replace (Z.max (Z.max (Z.log2 m1 + 1 + e1 - 53) (-1074) - e1) 0)
        with 0 by lia.
      simpl Nat.iter. simpl fst. simpl snd. cbv beta iota. simpl shr_m.
      destruct m1 as [| p1 | p1]; try lia.
      replace (e1 + 0 <=? emax - prec) with true
        by (symmetry; apply Z.leb_le; change (emax - prec) with 971; lia).
      split; [exact I |]. simpl F. rewrite Z.add_0_r. reflexivity.
Qed.


Lemma iter_xO_value (d m : positive) :
  Z.pos (Pos.iter xO m d) = Z.pos m * 2 ^ Z.pos d.
Proof.
  induction d as [| d IH] using Pos.peano_ind.
  - simpl. lia.
  - rewrite Pos.iter_succ, Pos2Z.inj_xO, IH, Pos2Z.inj_succ.
    rewrite Z.pow_succ_r by lia. lia.
Qed.

Lemma shl_align_value (mx : positive) (ex ex' : Z) :
  - K <= ex -> - K <= ex' ->
  snd (shl_align mx ex ex') = Z.min ex ex' /\
  Z.pos (fst (shl_align mx ex ex')) * 2 ^ (snd (shl_align mx ex ex') + K)
  = Z.pos mx * 2 ^ (ex + K).
Proof.
  intros Hex Hex'. unfold shl_align.
  destruct (ex' - ex) as [| d | d] eqn:Hd; simpl fst; simpl snd.
  - split; [lia | reflexivity].
  - split; [lia | reflexivity].
  - split; [lia |]. rewrite iter_xO_value.
    rewrite <- Z.mul_assoc, <- Z.pow_add_r by lia.
    do 2 f_equal. lia.
Qed.

Lemma binary_round_value (pm : positive) (e : Z) :
  - K <= e -> Z.pos pm * 2 ^ (e + K) < 2 ^ (971 + K) ->
  nnf (binary_round prec emax false pm e) /\
  F (binary_round prec emax false pm e) = RND (Z.pos pm * 2 ^ (e + K)).
Proof.
  intros He Hlt. unfold binary_round.
  set (e' := fexp prec emax (Z.pos (digits2_pos pm) + e)).
  assert (He' : - K <= e') by (unfold e'; rewrite fexp64; unfold K; lia).
  destruct (shl_align_value pm e e' He He') as [Hs Hv].
  destruct (shl_align pm e e') as [mz ez]. simpl fst in *. simpl snd in *.
  rewrite <- Hv. apply binary_round_aux_value; [lia |]. rewrite Hv. exact Hlt.
Qed.

Lemma RND_0 : RND 0 = 0.
Proof. exact (RND_int 0 ltac:(lia)). Qed.

Lemma F_finite_pos (m : positive) (e : Z) :
  - K <= e -> 0 < Z.pos m * 2 ^ (e + K).
Proof.
  intros He. assert (0 < 2 ^ (e + K)) by (apply Z.pow_pos_nonneg; lia). lia.
Qed.

(** *** The operations on non-negative values *)

Lemma SFadd_value (x y : spec_float) :
  valid_binary x = true -> valid_binary y = true -> nnf x -> nnf y ->
  F x + F y < 2 ^ (971 + K) ->
  nnf (SF64add x y) /\ F (SF64add x y) = RND (F x + F y).
Proof.
  intros Vx Vy Nx Ny Hlt.
  destruct x as [sx | sx | | sx mx ex]; try contradiction;
  destruct y as [sy | sy | | sy my ey]; try contradiction.
  - simpl F. rewrite Z.add_0_l, RND_0. destruct sx, sy; simpl; auto.
  - destruct sy; [contradiction |]. change (SF64add _ _) with (S754_finite false my ey).
    split; [exact I |]. rewrite Z.add_0_l. symmetry. apply (RND_valid _ Vy).
  - destruct sx; [contradiction |]. change (SF64add _ _) with (S754_finite false mx ex).
    split; [exact I |]. rewrite Z.add_0_r. symmetry. apply (RND_valid _ Vx).
  - destruct sx; [contradiction |]. destruct sy; [contradiction |].
    destruct (valid_finite _ _ _ Vx) as [Hex _].
    destruct (valid_finite _ _ _ Vy) as [Hey _].
    assert (Hkx : - K <= ex) by (unfold K; lia).
    assert (Hky : - K <= ey) by (unfold K; lia).
    unfold SF64add, SFadd. cbv zeta.
    set (ez := Z.min ex ey). assert (Hkz : - K <= ez) by (unfold ez; lia).
    destruct (shl_align_value mx ex ez Hkx Hkz) as [Hsx Hvx].
    destruct (shl_align_value my ey ez Hky Hkz) as [Hsy Hvy].
    replace (Z.min ex ez) with ez in Hsx by (unfold ez; lia).
    replace (Z.min ey ez) with ez in Hsy by (unfold ez; lia).
    rewrite Hsx in Hvx. rewrite Hsy in Hvy.
    simpl cond_Zopp. simpl Z.add. unfold binary_normalize.
    simpl F in *. rewrite <- Hvx, <- Hvy in *.
    rewrite <- Z.mul_add_distr_r in *.
    rewrite <- Pos2Z.inj_add in *.
    apply binary_round_value; assumption.
Qed.

Lemma SFmul_value (x y : spec_float) :
  valid_binary x = true -> valid_binary y = true -> nnf x -> nnf y ->
  F x * F y < 2 ^ (971 + K) * U ->
  nnf (SF64mul x y) /\ F (SF64mul x y) = RND (F x * F y / U).
Proof.
  intros Vx Vy Nx Ny Hlt. pose proof U_pos as HU.
  destruct x as [sx | sx | | sx mx ex]; try contradiction;
  destruct y as [sy | sy | | sy my ey]; try contradiction.
  - simpl. rewrite Z.div_0_l, RND_0 by lia. auto.
  - destruct sy; [contradiction |]. simpl. rewrite Z.div_0_l, RND_0 by lia. auto.
  - destruct sx; [contradiction |]. simpl F. rewrite Z.mul_0_r.
    simpl. rewrite Z.div_0_l, RND_0 by lia. auto.
  - destruct sx; [contradiction |]. destruct sy; [contradiction |].
    destruct (valid_finite _ _ _ Vx) as [Hex _].
    destruct (valid_finite _ _ _ Vy) as [Hey _].
    assert (Hkx : 0 <= ex + K) by (unfold K; lia).
    assert (Hky : 0 <= ey + K) by (unfold K; lia).
    assert (Hk : K = 2148) by reflexivity.
    assert (Hprod : Z.pos mx * 2 ^ (ex + K) * (Z.pos my * 2 ^ (ey + K))
                    = Z.pos (mx * my) * 2 ^ (ex + ey + K) * U).
    { unfold U. rewrite Pos2Z.inj_mul.
      replace (ex + ey + K) with ((ex + K) + ey) by lia.
      assert (Hpw : 2 ^ (ex + K + ey) * 2 ^ K = 2 ^ (ex + K) * 2 ^ (ey + K)).
      { rewrite <- !Z.pow_add_r by lia. f_equal. lia. }
      rewrite <- (Z.mul_assoc _ (2 ^ (ex + K + ey))), Hpw. lia. }
    simpl F in *. rewrite Hprod in *. rewrite Z.div_mul by lia.
    unfold SF64mul, SFmul. simpl xorb.
    apply binary_round_aux_value; [unfold K in *; lia | nia].
Qed.

Lemma SFsub_value (x y : spec_float) :
  valid_binary x = true -> valid_binary y = true -> nnf x -> nnf y ->
  F y < F x -> F x < 2 ^ (971 + K) ->
  nnf (SF64sub x y) /\ F (SF64sub x y) = RND (F x - F y).
Proof.
  intros Vx Vy Nx Ny Hyx Hlt.
  pose proof (F_nonneg y Vy) as Hy0.
  destruct x as [sx | sx | | sx mx ex]; try contradiction;
  destruct y as [sy | sy | | sy my ey]; try contradiction.
  - simpl in Hyx. lia.
  - simpl F in Hyx at 2. lia.
  - destruct sx; [contradiction |]. change (SF64sub _ _) with (S754_finite false mx ex).
    split; [exact I |]. simpl F at 3. rewrite Z.sub_0_r. symmetry.
    apply (RND_valid _ Vx).
  - destruct sx; [contradiction |]. destruct sy; [contradiction |].
    destruct (valid_finite _ _ _ Vx) as [Hex _].
    destruct (valid_finite _ _ _ Vy) as [Hey _].
    assert (Hkx : - K <= ex) by (unfold K; lia).
    assert (Hky : - K <= ey) by (unfold K; lia).
    unfold SF64sub, SFsub. cbv zeta.
    set (ez := Z.min ex ey). assert (Hkz : - K <= ez) by (unfold ez; lia).
    destruct (shl_align_value mx ex ez Hkx Hkz) as [Hsx Hvx].
    destruct (shl_align_value my ey ez Hky Hkz) as [Hsy Hvy].
    replace (Z.min ex ez) with ez in Hsx by (unfold ez; lia).
    replace (Z.min ey ez) with ez in Hsy by (unfold ez; lia).
    rewrite Hsx in Hvx. rewrite Hsy in Hvy.
    simpl cond_Zopp. simpl F in *. rewrite <- Hvx, <- Hvy in *.
    rewrite <- Z.mul_sub_distr_r in *.
    set (a := Z.pos (shl_align mx ex ez).1) in *.
    set (b := Z.pos (shl_align my ey ez).1) in *.
    assert (HP : 0 < 2 ^ (ez + K)) by (apply Z.pow_pos_nonneg; lia).
    assert (Hab : 0 < a - b) by nia.
    destruct (a - b) as [| p | p] eqn:Hp; try lia.
    unfold binary_normalize.
    apply binary_round_value; [assumption | nia].
Qed.

Lemma SFcompare_value (x y : spec_float) :
  valid_binary x = true -> valid_binary y = true -> nnf x -> nnf y ->
  SFcompare x y = Some (F x ?= F y).
Proof.
  intros Vx Vy Nx Ny.
  destruct x as [sx | sx | | sx mx ex]; try contradiction;
  destruct y as [sy | sy | | sy my ey]; try contradiction.
  - reflexivity.
  - destruct sy; [contradiction |].
    destruct (valid_finite _ _ _ Vy) as [Hey _].
    pose proof (F_finite_pos my ey ltac:(unfold K; lia)).
    change (SFcompare _ _) with (Some Lt). f_equal. symmetry.
    apply Z.compare_lt_iff. exact H.
  - destruct sx; [contradiction |].
    destruct (valid_finite _ _ _ Vx) as [Hex _].
    pose proof (F_finite_pos mx ex ltac:(unfold K; lia)).
    change (SFcompare _ _) with (Some Gt). f_equal. symmetry.
    apply Z.compare_gt_iff. exact H.
  - destruct sx; [contradiction |]. destruct sy; [contradiction |].
    destruct (valid_finite _ _ _ Vx) as [Hex _].
    destruct (valid_finite _ _ _ Vy) as [Hey _].
    pose proof (Z.log2_spec (Z.pos mx) ltac:(lia)) as [Hx1 Hx2].
    pose proof (Z.log2_spec (Z.pos my) ltac:(lia)) as [Hy1 Hy2].
    pose proof (Z.log2_nonneg (Z.pos mx)) as Hlx.
    pose proof (Z.log2_nonneg (Z.pos my)) as Hly.
    assert (Hlt : forall m1 e1 m2 e2,
      0 < m1 -> 0 < m2 -> - 1074 <= e1 -> e1 < e2 ->
      Z.log2 m1 <= 52 -> Z.log2 m2 = 52 ->
      m1 * 2 ^ (e1 + K) < m2 * 2 ^ (e2 + K)).
    { intros m1 e1 m2 e2 H1 H2 He1 He12 Hl1 Hl2.
      pose proof (Z.log2_spec m1 H1) as [_ Hm1].
      pose proof (Z.log2_spec m2 H2) as [Hm2 _]. rewrite Hl2 in Hm2.
      assert (m1 < 2 ^ 53).
      { apply Z.lt_le_trans with (2 ^ Z.succ (Z.log2 m1)); [exact Hm1 |].
        apply Z.pow_le_mono_r; lia. }
      assert (HP1 : 0 < 2 ^ (e1 + K)) by (apply Z.pow_pos_nonneg; unfold K; lia).
      assert (Hp : 2 ^ (e2 + K) = 2 ^ (e2 - e1 - 1) * (2 * 2 ^ (e1 + K))).
      { rewrite <- Z.pow_succ_r, <- Z.pow_add_r by (unfold K; lia).
        f_equal. lia. }
      assert (0 < 2 ^ (e2 - e1 - 1)) by (apply Z.pow_pos_nonneg; lia).
      rewrite Hp.
      change (2 ^ 53) with (2 * 2 ^ 52) in *. nia. }
    change (F (S754_finite false mx ex)) with (Z.pos mx * 2 ^ (ex + K)).
    change (F (S754_finite false my ey)) with (Z.pos my * 2 ^ (ey + K)).
    unfold SFcompare. f_equal.
    destruct (Z.compare_spec ex ey) as [Heq | Hl | Hg].
    + subst ey. rewrite Pos.compare_cont_spec.
      assert (HP : 0 < 2 ^ (ex + K)) by (apply Z.pow_pos_nonneg; unfold K; lia).
      symmetry. destruct (Pos.compare_spec mx my) as [Hm | Hm | Hm].
      * subst my. apply Z.compare_refl.
      * apply Z.compare_lt_iff. nia.
      * apply Z.compare_gt_iff. nia.
    + symmetry. apply Z.compare_lt_iff. apply Hlt; lia.
    + symmetry. apply Z.compare_gt_iff. apply Hlt; lia.
Qed.

End Binary64.

Module Float64.

Import Rounding Binary64 GoNum.

(** The float is a non-negative finite value. *)
Definition NN (x : float) : Prop := nnf (Prim2SF x).

(** Its value in units of [2^-2148]. *)
Definition Fp (x : float) : Z := F (Prim2SF x).

(** The real value of [x] lies in [[lo, hi)]. *)
Definition between (lo : Z) (x : float) (hi : Z) : Prop :=
  NN x /\ lo * U <= Fp x < hi * U.

(** [x] is the non-negative integer [n]. *)
Definition is_int (x : float) (n : Z) : Prop := NN x /\ Fp x = n * U.

Lemma top_le : 2 ^ 64 * U <= 2 ^ (971 + K).
Proof. vm_compute. discriminate. Qed.

Lemma Fp_nonneg (x : float) : 0 <= Fp x.
Proof. apply F_nonneg, Prim2SF_valid. Qed.

Lemma RND_Fp (x : float) : RND (Fp x) = Fp x.
Proof. apply RND_valid, Prim2SF_valid. Qed.

Lemma add_value (x y : float) :
  NN x -> NN y -> Fp x + Fp y < 2 ^ 64 * U ->
  NN (x + y) /\ Fp (x + y) = RND (Fp x + Fp y).
Proof.
  intros Nx Ny Hlt. unfold NN, Fp. rewrite add_spec.
  apply SFadd_value; try apply Prim2SF_valid; try assumption.
  pose proof top_le. unfold Fp in Hlt. lia.
Qed.

Lemma sub_value (x y : float) :
  NN x -> NN y -> Fp y < Fp x -> Fp x < 2 ^ 64 * U ->
  NN (x - y) /\ Fp (x - y) = RND (Fp x - Fp y).
Proof.
  intros Nx Ny Hyx Hlt. unfold NN, Fp. rewrite sub_spec.
  apply SFsub_value; try apply Prim2SF_valid; try assumption.
  pose proof top_le. unfold Fp in Hlt. lia.
Qed.

Lemma mul_value (x y : float) :
  NN x -> NN y -> Fp x * Fp y < 2 ^ 64 * U * U ->
  NN (x * y) /\ Fp (x * y) = RND (Fp x * Fp y / U).
Proof.
  intros Nx Ny Hlt. unfold NN, Fp. rewrite mul_spec.
  apply SFmul_value; try apply Prim2SF_valid; try assumption.
  pose proof top_le. pose proof U_pos. unfold Fp in Hlt. nia.
Qed.

Lemma ltb_value (x y : float) :
  NN x -> NN y -> (x <? y)%float = (Fp x <? Fp y).
Proof.
  intros Nx Ny. rewrite ltb_spec. unfold SFltb, Fp.
  rewrite SFcompare_value by (try apply Prim2SF_valid; assumption).
  unfold Z.ltb. destruct (_ ?= _); reflexivity.
Qed.

Lemma leb_value (x y : float) :
  NN x -> NN y -> (x <=? y)%float = (Fp x <=? Fp y).
Proof.
  intros Nx Ny. rewrite leb_spec. unfold SFleb, Fp.
  rewrite SFcompare_value by (try apply Prim2SF_valid; assumption).
  unfold Z.leb. destruct (_ ?= _); reflexivity.
Qed.

(** A float in Go's interval [[0.0, 1.0)]. *)
Lemma unit_interval (f : float) :
  (0 <=? f)%float = true -> (f <? 1)%float = true -> NN f /\ Fp f < U.
Proof.
  intros H0 H1.
  assert (Nf : NN f).
  { unfold NN. rewrite leb_spec in H0. rewrite ltb_spec in H1.
    change (Prim2SF 0%float) with (S754_zero false) in H0.
    change (Prim2SF 1%float) with (S754_finite false 4503599627370496 (-52)) in H1.
    destruct (Prim2SF f) as [s | s | | s m e]; simpl; auto.
    - destruct s; discriminate.
    - discriminate.
    - destruct s; [discriminate | exact I]. }
  split; [exact Nf |].
  rewrite (ltb_value f 1 Nf I) in H1. apply Z.ltb_lt in H1. exact H1.
Qed.

Lemma float64_of_int_value (n : Z) :
  0 <= n <= 2 ^ 53 -> is_int (float64_of_int n) n.
Proof.
  intros Hn. unfold is_int, NN, Fp, float64_of_int.
  replace (n <? 0) with false by (symmetry; apply Z.ltb_ge; lia).
  rewrite of_uint63_spec, Uint63.of_Z_spec.
  rewrite Z.mod_small by (change wB with (2 ^ 63); lia).
  destruct n as [| p | p]; [split; [exact I | reflexivity] | | lia].
  unfold binary_normalize.
  assert (HK : - K <= 0) by (unfold K; lia).
  assert (Hlt : Z.pos p * 2 ^ (0 + K) < 2 ^ (971 + K)).
  { pose proof top_le. pose proof U_pos. change (2 ^ (0 + K)) with U. nia. }
  destruct (binary_round_value p 0 HK Hlt) as [Hnn HF].
  split; [exact Hnn |]. rewrite HF. change (2 ^ (0 + K)) with U.
  apply RND_int. lia.
Qed.

(** Arithmetic on integers below [2^53] is exact. *)
Lemma add_int (x y : float) (a b : Z) :
  is_int x a -> is_int y b -> 0 <= a -> 0 <= b -> a + b <= 2 ^ 53 ->
  is_int (x + y) (a + b).
Proof.
  intros [Nx Hx] [Ny Hy] Ha Hb Hab. pose proof U_pos.
  destruct (add_value x y Nx Ny) as [Nz Hz]; [rewrite Hx, Hy; nia |].
  split; [exact Nz |].
  rewrite Hz, Hx, Hy, <- Z.mul_add_distr_r. apply RND_int. lia.
Qed.

Lemma sub_int (x y : float) (a b : Z) :
  is_int x a -> is_int y b -> 0 <= b -> b < a -> a <= 2 ^ 53 ->
  is_int (x - y) (a - b).
Proof.
  intros [Nx Hx] [Ny Hy] Hb Hba Ha. pose proof U_pos.
  destruct (sub_value x y Nx Ny) as [Nz Hz]; [rewrite Hx, Hy; nia | rewrite Hx; nia |].
  split; [exact Nz |].
  rewrite Hz, Hx, Hy, <- Z.mul_sub_distr_r. apply RND_int. lia.
Qed.

Lemma mul_int (x y : float) (a b : Z) :
  is_int x a -> is_int y b -> 0 <= a -> 0 <= b -> a * b <= 2 ^ 53 ->
  is_int (x * y) (a * b).
Proof.
  intros [Nx Hx] [Ny Hy] Ha Hb Hab. pose proof U_pos.
  assert (Hp : Fp x * Fp y = a * b * U * U) by (rewrite Hx, Hy; lia).
  destruct (mul_value x y Nx Ny) as [Nz Hz]; [rewrite Hp; nia |].
  split; [exact Nz |].
  rewrite Hz, Hp, Z.div_mul by lia. apply RND_int. nia.
Qed.

(** Adding a non-negative value never lowers a value, and keeps it under
    an integer bound on the exact sum. *)
Lemma add_bounds (x y : float) (c d : Z) :
  NN x -> NN y -> Fp x <= c * U -> Fp y <= d * U ->
  0 <= c + d <= 2 ^ 53 ->
  NN (x + y) /\ Fp x <= Fp (x + y) <= (c + d) * U.
Proof.
  intros Nx Ny Hx Hy Hcd. pose proof U_pos.
  pose proof (Fp_nonneg x). pose proof (Fp_nonneg y).
  destruct (add_value x y Nx Ny) as [Nz Hz]; [nia |].
  split; [exact Nz |]. rewrite Hz. split.
  - rewrite <- (RND_Fp x) at 1. apply RND_mono; lia.
  - rewrite <- (RND_int (c + d)) by lia. apply RND_mono; lia.
Qed.

(** A value in [[0, 1)] times an integer constant stays below it. *)
Lemma mul_unit_bounds (f y : float) (b : Z) :
  NN f -> Fp f < U -> is_int y b -> 0 <= b <= 2 ^ 53 ->
  NN (f * y) /\ Fp (f * y) <= b * U.
Proof.
  intros Nf Hf [Ny Hy] Hb. pose proof U_pos. pose proof (Fp_nonneg f).
  assert (Hp : Fp f * Fp y = (b * Fp f) * U) by (rewrite Hy; lia).
  destruct (mul_value f y Nf Ny) as [Nz Hz]; [rewrite Hp; nia |].
  split; [exact Nz |].
  rewrite Hz, Hp, Z.div_mul by lia.
  rewrite <- (RND_int b) by lia. apply RND_mono; nia.
Qed.

Lemma mul_unit_value (f y : float) (b : Z) :
  NN f -> Fp f < U -> is_int y b -> 0 <= b <= 2 ^ 53 ->
  Fp (f * y) = RND (b * Fp f).
Proof.
  intros Nf Hf [Ny Hy] Hb. pose proof U_pos. pose proof (Fp_nonneg f).
  assert (Hp : Fp f * Fp y = (b * Fp f) * U) by (rewrite Hy; lia).
  destruct (mul_value f y Nf Ny) as [_ Hz]; [rewrite Hp; nia |].
  rewrite Hz, Hp, Z.div_mul by lia. reflexivity.
Qed.

(** A sum is at least the sum of two integer lower bounds. *)
Lemma add_lower (x y : float) (a b : Z) :
  NN x -> NN y -> a * U <= Fp x -> b * U <= Fp y ->
  0 <= a + b <= 2 ^ 53 -> Fp x + Fp y < 2 ^ 64 * U ->
  (a + b) * U <= Fp (x + y).
Proof.
  intros Nx Ny Hx Hy Hab Hlt. pose proof U_pos.
  destruct (add_value x y Nx Ny Hlt) as [_ Hz]. rewrite Hz.
  rewrite <- (RND_int (a + b)) by lia. apply RND_mono; nia.
Qed.

(** A positive difference stays under an integer bound on the exact
    difference. *)
Lemma sub_upper (x y : float) (d : Z) :
  NN x -> NN y -> Fp y < Fp x -> Fp x - Fp y <= d * U ->
  d <= 2 ^ 53 -> Fp x < 2 ^ 64 * U ->
  NN (x - y) /\ Fp (x - y) <= d * U.
Proof.
  intros Nx Ny Hyx Hd Hd53 Hlt. pose proof U_pos.
  destruct (sub_value x y Nx Ny Hyx Hlt) as [Nz Hz].
  split; [exact Nz |]. rewrite Hz.
  rewrite <- (RND_int d) by nia. apply RND_mono; lia.
Qed.

(** Go's [==] against zero holds for the two zeros only. *)
Lemma eqb_zero_inv (v : float) :
  (v =? 0)%float = true -> v = 0%float \/ v = (-0)%float.
Proof.
  rewrite FloatAxioms.eqb_spec. unfold SFeqb.
  change (Prim2SF 0%float) with (S754_zero false).
  destruct (Prim2SF v) as [s | s | | s m e] eqn:Hv; simpl; try discriminate.
  - intros _. rewrite <- (SF2Prim_Prim2SF v), Hv.
    destruct s; [right | left]; reflexivity.
  - destruct s; discriminate.
  - destruct s; discriminate.
Qed.

End Float64.

(** ** The player and the physics step *)

Module GameSpec.

Import Game.

Lemma gravity_per_tick : (Gravity * DeltaTime)%float = 60%float.
Proof. vm_compute. reflexivity. Qed.

(** The state a grounded player rests in. *)
Definition rest (p : Player) : Player :=
  {| ID := ID p; Name := Name p; X := X p; Y := GroundY;
     VelocityY := 0%float; IsGrounded := true; IsAlive := IsAlive p |}.

Lemma physics_at_rest (p : Player) :
  Y p = GroundY -> (VelocityY p =? 0)%float = true ->
  updatePlayerPhysics p = rest p.
Proof.
  intros HY HV. destruct p as [id nm x y v g a]; simpl in *. subst y.
  destruct (Float64.eqb_zero_inv v HV) as [-> | ->];
    vm_compute; reflexivity.
Qed.

Lemma physics_rest_fixed (p : Player) : updatePlayerPhysics (rest p) = rest p.
Proof. exact (physics_at_rest (rest p) eq_refl eq_refl). Qed.

Lemma tickPlayer_alive (p : Player) :
  IsAlive p = true -> tickPlayer p = updatePlayerPhysics p.
Proof. unfold tickPlayer. intros ->. reflexivity. Qed.

Lemma tickPlayer_dead (p : Player) : IsAlive p = false -> tickPlayer p = p.
Proof. unfold tickPlayer. intros ->. reflexivity. Qed.

Lemma iter_tick_rest (p : Player) (n : nat) :
  IsAlive p = true -> Nat.iter n tickPlayer (rest p) = rest p.
Proof.
  intros Ha. induction n as [| n IH]; simpl; [reflexivity |].
  rewrite IH, tickPlayer_alive by exact Ha. apply physics_rest_fixed.
Qed.

(** C5 (jump guard).  [Jump] changes the player exactly when the player was
    alive and grounded: then the vertical velocity becomes the jump
    velocity -600, [IsGrounded] becomes false and every other field is
    kept; an airborne or dead player is returned unchanged. *)
Theorem Jump_guard (p : Player) :
  (IsAlive p = true /\ IsGrounded p = true ->
   Jump p = {| ID := ID p; Name := Name p; X := X p; Y := Y p;
               VelocityY := (-600)%float; IsGrounded := false;
               IsAlive := true |}) /\
  (IsAlive p = false \/ IsGrounded p = false -> Jump p = p) /\
  (Jump p <> p <-> IsAlive p = true /\ IsGrounded p = true) /\
  JumpVelocity = (-600)%float.
Proof.
  destruct p as [id nm x y v g a]; unfold Jump; simpl.
  split; [| split; [| split; [split |]]].
  - intros [-> ->]. reflexivity.
  - intros [-> | ->]; [rewrite andb_false_r |]; reflexivity.
  - intros Hne. destruct g, a; simpl in Hne; auto; exfalso; apply Hne;
      reflexivity.
  - intros [-> ->]. simpl. intros Heq.
    discriminate (f_equal IsGrounded Heq).
  - reflexivity.
Qed.

Lemma Jump_grounded_at_rest (p : Player) :
  grounded_at_rest p -> grounded_at_rest (Jump p).
Proof.
  unfold grounded_at_rest, Jump.
  destruct (IsGrounded p && IsAlive p); simpl; [discriminate | auto].
Qed.

Lemma Kill_grounded_at_rest (p : Player) :
  grounded_at_rest p -> grounded_at_rest (Kill p).
Proof. unfold grounded_at_rest, Kill. simpl. auto. Qed.

Lemma physics_grounded_at_rest (p : Player) :
  grounded_at_rest (updatePlayerPhysics p).
Proof.
  unfold grounded_at_rest, updatePlayerPhysics.
  destruct (GroundY <=? _)%float; simpl; [reflexivity | discriminate].
Qed.

(** C6 (grounded implies at rest).  A new player satisfies
    [IsGrounded = true -> VelocityY = 0]; [Jump], [Kill] and the physics
    step preserve it (the physics step establishes it from any state), so it
    holds in every reachable player state. *)
Theorem grounded_at_rest_invariant :
  (forall id name, grounded_at_rest (NewPlayer id name)) /\
  (forall p, grounded_at_rest p -> grounded_at_rest (Jump p)) /\
  (forall p, grounded_at_rest p -> grounded_at_rest (Kill p)) /\
  (forall p, grounded_at_rest (updatePlayerPhysics p)) /\
  (forall p, grounded_at_rest p -> grounded_at_rest (tickPlayer p)) /\
  (forall p, reachable p -> grounded_at_rest p).
Proof.
  assert (Hnew : forall id name, grounded_at_rest (NewPlayer id name))
    by (intros id name _; reflexivity).
  assert (Htick : forall p, grounded_at_rest p -> grounded_at_rest (tickPlayer p)).
  { intros p Hp. unfold tickPlayer.
    destruct (negb (IsAlive p)); [exact Hp | apply physics_grounded_at_rest]. }
  refine (conj Hnew (conj Jump_grounded_at_rest (conj Kill_grounded_at_rest
           (conj physics_grounded_at_rest (conj Htick _))))).
  intros p Hr. induction Hr.
  - apply Hnew.
  - apply Jump_grounded_at_rest; assumption.
  - apply Kill_grounded_at_rest; assumption.
  - apply physics_grounded_at_rest.
Qed.

(** C9 (the rest state is a fixed point).  An alive player on the ground
    line with zero vertical velocity stays there under any number of tick
    steps: [Y] is [GroundY], the velocity is zero and, after at least one
    step or when the player was grounded already, [IsGrounded] holds; from
    the first step on the state is the same from tick to tick. *)
Theorem rest_state_fixed_point (p : Player) (n : nat) :
  IsAlive p = true -> Y p = GroundY -> (VelocityY p =? 0)%float = true ->
  let q := Nat.iter n tickPlayer p in
  Y q = GroundY /\ (VelocityY q =? 0)%float = true /\
  (IsGrounded p = true \/ (1 <= n)%nat -> IsGrounded q = true) /\
  ((1 <= n)%nat -> q = rest p) /\
  tickPlayer q = rest p.
Proof.
  intros Ha HY HV q.
  assert (Hstep : tickPlayer p = rest p).
  { rewrite tickPlayer_alive by exact Ha. apply physics_at_rest; assumption. }
  destruct n as [| n].
  - subst q; simpl. repeat split; try assumption.
    + intros [Hg | Hn]; [exact Hg | lia].
    + intros Hn; lia.
  - assert (Hq : q = rest p).
    { subst q. rewrite Nat.iter_succ_r, Hstep. apply iter_tick_rest, Ha. }
    rewrite Hq. repeat split.
    rewrite tickPlayer_alive by exact Ha. apply physics_rest_fixed.
Qed.

(** The spec's convergence test: a fall from height 0 with velocity 0
    reaches the rest state after 17 steps. *)
Lemma fall_from_zero_lands (id : Z) (name : string) (x : float) :
  Nat.iter 17 tickPlayer
    {| ID := id; Name := name; X := x; Y := 0%float; VelocityY := 0%float;
       IsGrounded := false; IsAlive := true |}
  = {| ID := id; Name := name; X := x; Y := GroundY; VelocityY := 0%float;
       IsGrounded := true; IsAlive := true |}.
Proof. vm_compute. reflexivity. Qed.

(** The airborne part of a jump: height and velocity after 0, 1, ..., 18
    physics steps from the take-off state. *)
Definition jumpArc : list (float * float) :=
  Eval vm_compute in
  map (fun k =>
         let q := Nat.iter k updatePlayerPhysics
                    (Jump (NewPlayer 0 EmptyString)) in
         (Y q, VelocityY q))
      (seq 0 19).

(** What the kinematic fields of a reachable player can be. *)
Definition on_jump_cycle (p : Player) : Prop :=
  (IsGrounded p = true /\ Y p = GroundY /\ VelocityY p = 0%float) \/
  (IsGrounded p = false /\ In (Y p, VelocityY p) jumpArc).

Ltac find_in_arc := repeat first [left; reflexivity | right].

Lemma physics_on_jump_cycle (p : Player) :
  on_jump_cycle p -> on_jump_cycle (updatePlayerPhysics p).
Proof.
  destruct p as [id nm x y v g a]. unfold on_jump_cycle; simpl.
  intros [(-> & -> & ->) | (-> & Hin)].
  - left. vm_compute. auto.
  - repeat (destruct Hin as [Hin | Hin];
            [injection Hin as <- <-; vm_compute;
             first [left; repeat split; reflexivity
                   | right; split; [reflexivity | find_in_arc]] |]).
    destruct Hin.
Qed.

Lemma reachable_on_jump_cycle (p : Player) : reachable p -> on_jump_cycle p.
Proof.
  induction 1 as [id nm | p _ IH | p _ IH | p _ IH].
  - left. repeat split.
  - unfold Jump. destruct (IsGrounded p && IsAlive p) eqn:Hga; [| exact IH].
    destruct IH as [(_ & HY & _) | (Hg & _)].
    + right. simpl. rewrite HY. split; [reflexivity | left; reflexivity].
    + rewrite Hg in Hga. discriminate.
  - exact IH.
  - apply physics_on_jump_cycle, IH.
Qed.

(** C10 (never below the ground line).  Every reachable player state has
    [Y <= GroundY]: a player spawns on the ground line, and no sequence of
    physics steps, jumps and kills takes it below. *)
Theorem reachable_above_ground (p : Player) :
  reachable p -> (Y p <=? GroundY)%float = true.
Proof.
  intros Hr. destruct (reachable_on_jump_cycle p Hr) as [(_ & -> & _) | (_ & Hin)].
  - reflexivity.
  - destruct p as [id nm x y v g a]; simpl in *.
    repeat (destruct Hin as [Hin | Hin];
            [injection Hin as <- <-; reflexivity |]).
    destruct Hin.
Qed.

Lemma reachable_above_ground_witness :
  (Y (updatePlayerPhysics (Jump (NewPlayer 1 "ada"))) <=? GroundY)%float = true.
Proof.
  apply (reachable_above_ground
           (updatePlayerPhysics (Jump (NewPlayer 1 "ada")))).
  apply reach_physics, reach_jump, reach_new.
Defined.

Lemma rest_state_fixed_point_witness :
  let q := Nat.iter 3 tickPlayer (NewPlayer 1 "ada") in
  Y q = GroundY /\ (VelocityY q =? 0)%float = true /\
  (IsGrounded (NewPlayer 1 "ada") = true \/ (1 <= 3)%nat -> IsGrounded q = true) /\
  ((1 <= 3)%nat -> q = rest (NewPlayer 1 "ada")) /\
  tickPlayer q = rest (NewPlayer 1 "ada").
Proof.
  apply (rest_state_fixed_point (NewPlayer 1 "ada") 3); reflexivity.
Defined.

End GameSpec.

(** ** The tick and the broadcasts *)

Module TickSpec.

Import Game.

Lemma physicsStep_lookup (acc : gmap Z Player * float * float) (ptr k : Z) :
  (physicsStep acc ptr).1.1 !! k =
  if decide (k = ptr) then tickPlayer <$> acc.1.1 !! k else acc.1.1 !! k.
Proof.
  destruct acc as [[ps mx] mn]. unfold physicsStep; simpl.
  case_decide as Hk.
  - subst k. destruct (ps !! ptr) as [player |] eqn:Hp; simpl.
    + unfold tickPlayer. destruct (negb (IsAlive player)); simpl.
      * exact Hp.
      * apply lookup_insert_eq.
    + exact Hp.
  - destruct (ps !! ptr) as [player |]; [| reflexivity].
    destruct (negb (IsAlive player)); simpl; [reflexivity |].
    apply lookup_insert_ne. congruence.
Qed.

Lemma physics_fold_lookup (snapshot : list Z)
    (acc : gmap Z Player * float * float) (k : Z) :
  NoDup snapshot ->
  (foldl physicsStep acc snapshot).1.1 !! k =
  if decide (k ∈ snapshot) then tickPlayer <$> acc.1.1 !! k else acc.1.1 !! k.
Proof.
  intros Hnd. revert acc.
  induction Hnd as [| ptr l Hnotin Hnd IH]; intros acc.
  - simpl. reflexivity.
  - change (foldl physicsStep acc (ptr :: l))
      with (foldl physicsStep (physicsStep acc ptr) l).
    rewrite IH, physicsStep_lookup.
    destruct (decide (k ∈ l)) as [Hl | Hl], (decide (k = ptr)) as [Hp | Hp],
      (decide (k ∈ ptr :: l)) as [Hc | Hc]; try reflexivity;
      rewrite elem_of_cons in Hc; exfalso; subst; tauto.
Qed.

(** The registry after the physics loop of a tick: every alive player has
    taken one physics step, every dead player is as before. *)
Lemma physicsLoop_lookup (ps : gmap Z Player) (k : Z) :
  (physicsLoop (map_to_list ps).*1 ps).1.1 !! k = tickPlayer <$> ps !! k.
Proof.
  unfold physicsLoop.
  rewrite physics_fold_lookup by apply NoDup_fst_map_to_list. simpl.
  case_decide as Hin; [reflexivity |].
  destruct (ps !! k) as [p |] eqn:Hp; [| reflexivity].
  exfalso. apply Hin. apply list_elem_of_fmap.
  exists (k, p). split; [reflexivity |]. apply elem_of_map_to_list, Hp.
Qed.

Section Tick.
Context {B C D : Type} `{!Broadcaster B} `{!ChunkManager C D}.
Variable asChunkBroadcaster : option (ChunkBroadcaster B D).

Lemma tick_players (now : Z) (t : Ticker B C) (k : Z) :
  players (gameState (tick asChunkBroadcaster now t)) !! k =
  tickPlayer <$> players (gameState t) !! k.
Proof.
  unfold tick, GetAllPlayers.
  pose proof (physicsLoop_lookup (players (gameState t)) k) as Hl.
  destruct (physicsLoop _ _) as [[ps mx] mn]. simpl in Hl.
  destruct (chunkPhase _ _ _ _ _ _) as [[b cm] last]. simpl. exact Hl.
Qed.

End Tick.

End TickSpec.

Module NetworkSpec.

Import Network.

Definition toPlayerState (player : Game.Player) : PlayerState :=
  {| I := Game.ID player; X := Game.X player; Y := Game.Y player |}.

Lemma playerStates_omap (gs : Game.GameState) :
  playerStates gs =
  omap (fun ptr =>
          match Game.players gs !! ptr with
          | Some player =>
              if Game.IsAlive player then Some (toPlayerState player) else None
          | None => None
          end)
       (Game.GetAllPlayers gs).
Proof.
  unfold playerStates.
  set (f := fun ptr => _ : option PlayerState).
  assert (Hgen : forall l acc,
    foldl (fun acc ptr =>
             match Game.players gs !! ptr with
             | Some player =>
                 if Game.IsAlive player then
                   acc ++ [ {| I := Game.ID player; X := Game.X player;
                               Y := Game.Y player |} ]
                 else acc
             | None => acc
             end) acc l = acc ++ omap f l).
  { induction l as [| ptr l IH]; intros acc; simpl.
    - rewrite app_nil_r. reflexivity.
    - rewrite IH. subst f; simpl.
      destruct (Game.players gs !! ptr) as [player |]; [| reflexivity].
      destruct (Game.IsAlive player); [| reflexivity].
      rewrite <- app_assoc. reflexivity. }
  apply (Hgen _ []).
Qed.

(** The player list of a state message holds the alive players of the
    registry and nothing else. *)
Lemma playerStates_alive (gs : Game.GameState) (s : PlayerState) :
  s ∈ playerStates gs <->
  exists id player, Game.players gs !! id = Some player /\
                    Game.IsAlive player = true /\ s = toPlayerState player.
Proof.
  rewrite playerStates_omap, list_elem_of_omap. split.
  - intros (ptr & _ & Hs).
    destruct (Game.players gs !! ptr) as [player |] eqn:Hp; [| discriminate].
    destruct (Game.IsAlive player) eqn:Ha; [| discriminate].
    exists ptr, player. injection Hs as <-. auto.
  - intros (id & player & Hp & Ha & ->). exists id. split.
    + unfold Game.GetAllPlayers. apply list_elem_of_fmap.
      exists (id, player). split; [reflexivity |].
      apply elem_of_map_to_list, Hp.
    + rewrite Hp, Ha. reflexivity.
Qed.

Lemma sendAll_lookup (m : list Byte.byte) (h : ClientHub) (id : Z) :
  clients (sendAll m h) !! id = sendTo m <$> clients h !! id.
Proof. unfold sendAll; simpl. apply lookup_fmap. Qed.

Section Hub.
Context `{!Json}.

(** C7 (dead players).  A tick leaves every player whose [IsAlive] is
    false exactly as it was (all fields), while an alive player takes one
    physics step; and the player list of the state message that
    [BroadcastState] encodes holds exactly the players of the registry whose
    [IsAlive] is true, each with its ID and position. *)
Theorem dead_players_frozen_and_unlisted :
  (forall (C : Type) (HC : Game.ChunkManager C Generation.Chunk)
          (cb : option (Game.ChunkBroadcaster ClientHub Generation.Chunk))
          (now : Z) (t : Game.Ticker ClientHub C) (id : Z) (p : Game.Player),
      Game.players (Game.gameState t) !! id = Some p ->
      Game.players (Game.gameState (Game.tick cb now t)) !! id
      = Some (if Game.IsAlive p then Game.updatePlayerPhysics p else p)) /\
  (forall now gs h,
      BroadcastState now gs h =
      match Marshal (stateMsg now gs) with
      | Some messageBytes => sendAll messageBytes h
      | None => h
      end) /\
  (forall now gs,
      D (stateMsg now gs) = StateData {| T := now; P := playerStates gs |}) /\
  (forall gs s,
      s ∈ playerStates gs <->
      exists id p, Game.players gs !! id = Some p /\ Game.IsAlive p = true /\
                   s = {| I := Game.ID p; X := Game.X p; Y := Game.Y p |}).
Proof.
  split; [| split; [| split]].
  - intros C HC cb now t id p Hp.
    rewrite TickSpec.tick_players, Hp. simpl. unfold Game.tickPlayer.
    destruct (Game.IsAlive p); reflexivity.
  - intros now gs h. unfold BroadcastState.
    destruct (Marshal _); reflexivity.
  - reflexivity.
  - exact playerStates_alive.
Qed.

Lemma hub_reachable_capacity (h : ClientHub) (id : Z) (c : ClientConnection) :
  hub_reachable h -> clients h !! id = Some c ->
  capacity (SendChan c) = 10%nat /\ closed c = false.
Proof.
  intros Hr. revert id c.
  assert (Hsend : forall m h,
    (forall id c, clients h !! id = Some c ->
                  capacity (SendChan c) = 10%nat /\ closed c = false) ->
    forall id c, clients (sendAll m h) !! id = Some c ->
                 capacity (SendChan c) = 10%nat /\ closed c = false).
  { intros m h0 IH id c. rewrite sendAll_lookup.
    destruct (clients h0 !! id) as [c0 |] eqn:Hc0; [| discriminate].
    simpl. intros [= <-]. destruct (IH id c0 Hc0) as [Hcap Hcl].
    unfold sendTo, trySend; simpl.
    destruct (_ <? _)%nat; simpl; auto. }
  induction Hr as [| pid h Hr IH | pid h Hr IH | pid h Hr IH
                   | now gs h Hr IH | cid cd h Hr IH]; intros id c.
  - simpl. rewrite lookup_empty. discriminate.
  - unfold AddClient; simpl. destruct (decide (pid = id)) as [-> | Hne].
    + rewrite lookup_insert_eq. intros [= <-]. auto.
    + rewrite lookup_insert_ne by exact Hne. apply IH.
  - unfold RemoveClient; simpl. destruct (decide (pid = id)) as [-> | Hne].
    + rewrite lookup_delete_eq. discriminate.
    + rewrite lookup_delete_ne by exact Hne. apply IH.
  - unfold writeLoopStep.
    destruct (clients h !! pid) as [c0 |] eqn:Hc0; [| apply IH].
    unfold receive. destruct (queue (SendChan c0)) as [| m q] eqn:Hq;
      [apply IH |]. simpl.
    destruct (decide (pid = id)) as [-> | Hne].
    + rewrite lookup_insert_eq. intros [= <-]. simpl. apply (IH id c0 Hc0).
    + rewrite lookup_insert_ne by exact Hne. apply IH.
  - unfold BroadcastState. destruct (Marshal _); [apply Hsend |]; apply IH.
  - unfold BroadcastChunk. destruct (Marshal _); [apply Hsend |]; apply IH.
Qed.

(** C8 (backpressure isolation).  In a broadcast of encoded bytes (state or
    chunk), a registered client whose queue is below capacity gets the
    bytes appended to its queue; a client whose queue is full keeps its
    queue and the message is dropped for it alone.  The new connection
    state of a client is a function of its own old state and the bytes, so
    no client influences another; the set of registered clients is
    unchanged; in a hub the server can reach the capacity is 10.  The
    broadcast is a total function of the hub. *)
Theorem broadcast_backpressure_isolation
    (h : ClientHub) (id : Z) (c : ClientConnection)
    (now : Z) (gs : Game.GameState)
    (cid : Z) (chunk : Generation.Chunk) (bs bc : list Byte.byte) :
  clients h !! id = Some c ->
  Marshal (stateMsg now gs) = Some bs ->
  Marshal (chunkMsg cid chunk) = Some bc ->
  let deliver m :=
    {| PlayerID := PlayerID c;
       SendChan :=
         {| queue := if (length (queue (SendChan c)) <? capacity (SendChan c))%nat
                     then queue (SendChan c) ++ [m]
                     else queue (SendChan c);
            capacity := capacity (SendChan c) |};
       closed := closed c |} in
  clients (BroadcastState now gs h) !! id = Some (deliver bs) /\
  clients (BroadcastChunk cid chunk h) !! id = Some (deliver bc) /\
  ((length (queue (SendChan c)) < capacity (SendChan c))%nat ->
     forall m, queue (SendChan (deliver m)) = queue (SendChan c) ++ [m]) /\
  ((capacity (SendChan c) <= length (queue (SendChan c)))%nat ->
     forall m, deliver m = c) /\
  dom (clients (BroadcastState now gs h)) = dom (clients h) /\
  dom (clients (BroadcastChunk cid chunk h)) = dom (clients h) /\
  (forall h2, clients h2 !! id = Some c ->
     clients (BroadcastState now gs h2) !! id
     = clients (BroadcastState now gs h) !! id /\
     clients (BroadcastChunk cid chunk h2) !! id
     = clients (BroadcastChunk cid chunk h) !! id) /\
  (hub_reachable h -> capacity (SendChan c) = 10%nat).
Proof.
  intros Hc Hbs Hbc deliver.
  assert (Hdel : forall m, sendTo m c = deliver m).
  { intros m. unfold sendTo, trySend, deliver.
    destruct (_ <? _)%nat; destruct c as [pid [q cap] cl]; reflexivity. }
  assert (Hlook : forall m h', clients h' !! id = Some c ->
                               clients (sendAll m h') !! id = Some (deliver m)).
  { intros m h' Hc'. rewrite sendAll_lookup, Hc'. simpl. f_equal. apply Hdel. }
  unfold BroadcastState, BroadcastChunk. rewrite Hbs, Hbc.
  split; [apply Hlook, Hc |]. split; [apply Hlook, Hc |].
  split; [| split; [| split; [| split; [| split]]]].
  - intros Hlt m. unfold deliver; simpl.
    apply Nat.ltb_lt in Hlt. rewrite Hlt. reflexivity.
  - intros Hge m. unfold deliver; simpl.
    apply Nat.ltb_ge in Hge. rewrite Hge.
    destruct c as [pid [q cap] cl]; reflexivity.
  - unfold sendAll; simpl. apply dom_fmap_L.
  - unfold sendAll; simpl. apply dom_fmap_L.
  - intros h2 Hc2. rewrite !Hlook by assumption. split; reflexivity.
  - intros Hr. apply (hub_reachable_capacity h id c Hr Hc).
Qed.

End Hub.

(** A run of the tick: a registry with one dead player in mid-air. *)
Definition fallenPlayer : Game.Player :=
  {| Game.ID := 7; Game.Name := "bob"; Game.X := 100%float;
     Game.Y := 305%float; Game.VelocityY := 0%float;
     Game.IsGrounded := false; Game.IsAlive := false |}.

Definition tickerWithDead
  : Game.Ticker ClientHub Generation.ChunkManager :=
  Game.StartGameTicker
    (Game.AddPlayer fallenPlayer
       (Game.AddPlayer (Game.NewPlayer 1 "ada") Game.NewGameState))
    NewClientHub None.

Lemma dead_players_frozen_and_unlisted_witness :
  Game.players
    (Game.gameState
       (@Game.tick _ _ _ (@hub_Broadcaster eventNameJson)
          (@Generation.manager_ChunkManager _ (Generation.scripted []))
          None 0 tickerWithDead)) !! 7
  = Some fallenPlayer.
Proof.
  exact (proj1 (@dead_players_frozen_and_unlisted eventNameJson)
           Generation.ChunkManager
           (@Generation.manager_ChunkManager _ (Generation.scripted []))
           None 0 tickerWithDead 7 fallenPlayer eq_refl).
Defined.

(** A run of the hub: one client with a full queue, one with room. *)
Definition fullChan : Chan :=
  {| queue := replicate 10 (String.list_byte_of_string "fill"); capacity := 10 |}.

Definition twoClients : ClientHub :=
  {| clients :=
       <[1 := {| PlayerID := 1; SendChan := fullChan; closed := false |}]>
         (clients (AddClient 2 NewClientHub)) |}.

Lemma broadcast_backpressure_isolation_witness :
  clients (@BroadcastState eventNameJson 0 Game.NewGameState twoClients) !! 2
  = Some {| PlayerID := 2;
            SendChan := {| queue := [String.list_byte_of_string "state"];
                           capacity := 10 |};
            closed := false |}.
Proof.
  pose proof (@broadcast_backpressure_isolation eventNameJson twoClients 2
                {| PlayerID := 2; SendChan := make_chan 10; closed := false |}
                0 Game.NewGameState 0 (Generation.mkChunk 0 [])
                (String.list_byte_of_string "state")
                (String.list_byte_of_string "chunk")
                eq_refl eq_refl eq_refl) as H.
  exact (proj1 H).
Defined.

End NetworkSpec.

(** ** The chunk generator and its cache *)

Module GenerationSpec.

Import GoNum Generation.

Section Manager.
Context {R : Type} `{!GoLibrary R}.

Lemma GenerateChunk_ID (seed : string) (chunkID : Z) :
  ID (GenerateChunk seed chunkID) = chunkID.
Proof.
  unfold GenerateChunk. destruct (Intn _ _) as [k rng]. reflexivity.
Qed.

(** Every cached chunk is the generator's output for its key. *)
Definition cache_sound (cm : ChunkManager) : Prop :=
  forall chunkID chunk,
    chunks cm !! chunkID = Some chunk ->
    chunk = GenerateChunk (masterSeed cm) chunkID.

Lemma NewChunkManager_sound (seed : string) : cache_sound (NewChunkManager seed).
Proof. intros chunkID chunk. simpl. rewrite lookup_empty. discriminate. Qed.

Lemma GetOrGenerateChunk_sound (chunkID : Z) (cm : ChunkManager) :
  cache_sound cm ->
  (GetOrGenerateChunk chunkID cm).1 = GenerateChunk (masterSeed cm) chunkID /\
  masterSeed (GetOrGenerateChunk chunkID cm).2 = masterSeed cm /\
  cache_sound (GetOrGenerateChunk chunkID cm).2.
Proof.
  intros Hs. unfold GetOrGenerateChunk.
  destruct (chunks cm !! chunkID) as [chunk |] eqn:Hc; simpl.
  - auto.
  - repeat split. intros k c. simpl.
    destruct (decide (chunkID = k)) as [-> | Hne].
    + rewrite lookup_insert_eq. congruence.
    + rewrite lookup_insert_ne by exact Hne. apply Hs.
Qed.

Lemma getChunksFrom_sound (n : nat) (chunkID : Z) (cm : ChunkManager) :
  cache_sound cm ->
  masterSeed (getChunksFrom n chunkID cm).2 = masterSeed cm /\
  cache_sound (getChunksFrom n chunkID cm).2.
Proof.
  revert chunkID cm. induction n as [| n IH]; intros chunkID cm Hs; simpl.
  - auto.
  - destruct (GetOrGenerateChunk_sound chunkID cm Hs) as (_ & Hseed & Hs1).
    destruct (GetOrGenerateChunk chunkID cm) as [chunk cm1]. simpl in *.
    destruct (IH (wrap64 (chunkID + 1)) cm1 Hs1) as (Hseed2 & Hs2).
    destruct (getChunksFrom n _ cm1) as [rest cm2]. simpl in *.
    split; [congruence | exact Hs2].
Qed.

(** The chunks collected by the loop carry the IDs [chunkID],
    [chunkID + 1], ... in that order. *)
Lemma getChunksFrom_IDs (n : nat) (chunkID : Z) (cm : ChunkManager) :
  cache_sound cm ->
  map ID (getChunksFrom n chunkID cm).1 =
  (fix ids (n : nat) (i : Z) : list Z :=
     match n with O => [] | S n' => i :: ids n' (wrap64 (i + 1)) end)
    n chunkID.
Proof.
  revert chunkID cm. induction n as [| n IH]; intros chunkID cm Hs; simpl.
  - reflexivity.
  - destruct (GetOrGenerateChunk_sound chunkID cm Hs) as (Hc & _ & Hs1).
    destruct (GetOrGenerateChunk chunkID cm) as [chunk cm1]. simpl in *.
    specialize (IH (wrap64 (chunkID + 1)) cm1 Hs1).
    destruct (getChunksFrom n _ cm1) as [rest cm2]. simpl in *.
    rewrite Hc, GenerateChunk_ID, IH. reflexivity.
Qed.

Lemma call_sound (cm : ChunkManager) (c : Call) :
  cache_sound cm ->
  masterSeed (call cm c) = masterSeed cm /\ cache_sound (call cm c).
Proof.
  intros Hs. destruct c as [chunkID | startX endX | playerX chunksAhead
                            | minPlayerX keepBehind |]; simpl.
  - destruct (GetOrGenerateChunk_sound chunkID cm Hs) as (_ & ? & ?). auto.
  - unfold GetChunksInRange.
    destruct (endX <=? startX)%float; [auto |].
    destruct (_ <? 0); [auto |].
    set (n := Z.to_nat _). set (i := int_of_float64 _).
    pose proof (getChunksFrom_sound n i cm Hs) as Hg.
    destruct (getChunksFrom n i cm) as [l cm']. exact Hg.
  - unfold GenerateAheadForPlayer. apply getChunksFrom_sound, Hs.
  - unfold CleanupBehind. split; [reflexivity |].
    intros k c. simpl. intros Hk.
    apply map_lookup_filter_Some in Hk. apply Hs, Hk.
  - auto.
Qed.

Lemma history_sound (calls : list Call) (cm : ChunkManager) :
  cache_sound cm ->
  masterSeed (history calls cm) = masterSeed cm /\
  cache_sound (history calls cm).
Proof.
  unfold history. revert cm.
  induction calls as [| c calls IH]; intros cm Hs; simpl.
  - auto.
  - destruct (call_sound cm c Hs) as (Hseed & Hs1).
    destruct (IH (call cm c) Hs1) as (Hseed2 & Hs2).
    split; [congruence | exact Hs2].
Qed.

(** C3 (determinism).  [GenerateChunk] is a function of the master seed
    and the chunk ID (the generator it draws from is a function of the
    derived seed), so two calls agree on every obstacle.  A manager
    constructed with a seed answers [GetOrGenerateChunk] with that value
    whatever calls it served before; hence two managers constructed with
    the same seed return equal chunks for equal IDs, with the same number
    of obstacles, the same types and the same positions in the same
    order. *)
Theorem chunk_determinism (seed : string) (chunkID : Z) :
  (forall calls,
     (GetOrGenerateChunk chunkID (history calls (NewChunkManager seed))).1
     = GenerateChunk seed chunkID) /\
  (forall calls1 calls2,
     let c1 := (GetOrGenerateChunk chunkID
                  (history calls1 (NewChunkManager seed))).1 in
     let c2 := (GetOrGenerateChunk chunkID
                  (history calls2 (NewChunkManager seed))).1 in
     c1 = c2 /\
     length (Obstacles c1) = length (Obstacles c2) /\
     map Type_ (Obstacles c1) = map Type_ (Obstacles c2) /\
     map X (Obstacles c1) = map X (Obstacles c2) /\
     map Y (Obstacles c1) = map Y (Obstacles c2)).
Proof.
  assert (Hone : forall calls,
    (GetOrGenerateChunk chunkID (history calls (NewChunkManager seed))).1
    = GenerateChunk seed chunkID).
  { intros calls.
    destruct (history_sound calls _ (NewChunkManager_sound seed))
      as (Hseed & Hs).
    destruct (GetOrGenerateChunk_sound chunkID _ Hs) as (Hc & _).
    rewrite Hc, Hseed. reflexivity. }
  split; [exact Hone |].
  intros calls1 calls2 c1 c2.
  assert (H12 : c1 = c2) by (subst c1 c2; rewrite !Hone; reflexivity).
  rewrite H12. repeat split.
Qed.

(** An empty interval is answered with the empty list. *)
Lemma GetChunksInRange_empty (startX endX : float) (cm : ChunkManager) :
  (endX <=? startX)%float = true ->
  GetChunksInRange startX endX cm = Some ([], cm).
Proof. unfold GetChunksInRange. intros ->. reflexivity. Qed.

(** C2, at the example of the documentation of [GetChunksInRange]: the
    range from 5000.0 to 15000.0 is answered with the chunks 1, 2 and 3,
    although chunk 3 starts at 15000 and has no point in [[5000, 15000)]. *)
Theorem GetChunksInRange_includes_chunk_at_endX (seed : string) :
  (fun r => map ID r.1)
    <$> GetChunksInRange 5000%float 15000%float (NewChunkManager seed)
  = Some [1; 2; 3] /\
  (float64_of_int 3 * ChunkSize =? 15000)%float = true.
Proof.
  split; [| vm_compute; reflexivity].
  assert (Hr : GetChunksInRange 5000%float 15000%float (NewChunkManager seed)
               = Some (getChunksFrom 3 1 (NewChunkManager seed))).
  { unfold GetChunksInRange.
    replace (15000 <=? 5000)%float with false by (vm_compute; reflexivity).
    replace (int_of_float64 (5000 / ChunkSize)%float) with 1
      by (vm_compute; reflexivity).
    replace (int_of_float64 (15000 / ChunkSize)%float) with 3
      by (vm_compute; reflexivity).
    reflexivity. }
  rewrite Hr. cbn [fmap option_fmap option_map]. f_equal.
  rewrite getChunksFrom_IDs by apply NewChunkManager_sound.
  reflexivity.
Qed.

End Manager.

(** C1, on a run of [GenerateChunk]: the generator draws 0 for the count
    (three obstacles), then the offset 0.75 * 200 = 150 for the first
    obstacle and 0 for every other draw.  The first two obstacles stand at
    650 and 800: 150 apart, less than [ObstacleSpacing]. *)
Theorem obstacles_closer_than_ObstacleSpacing :
  @GenerateChunk _ (scripted [0; 0; 3; 0; 0; 0; 0; 0; 0; 0]) "seed" 0
  = {| ID := 0;
       Obstacles := [ {| Type_ := 1; X := 650%float; Y := 0%float |};
                      {| Type_ := 1; X := 800%float; Y := 0%float |};
                      {| Type_ := 1; X := 1100%float; Y := 0%float |} ] |} /\
  (800 - 650 <? ObstacleSpacing)%float = true.
Proof. split; vm_compute; reflexivity. Qed.

End GenerationSpec.

Module GenerationBounds.

Import Rounding Binary64 Float64 GoNum Generation.

Lemma int_200 : is_int 200%float 200.
Proof. split; [exact I | vm_compute; reflexivity]. Qed.

Lemma int_300 : is_int 300%float 300.
Proof. split; [exact I | vm_compute; reflexivity]. Qed.

Lemma int_500 : is_int 500%float 500.
Proof. split; [exact I | vm_compute; reflexivity]. Qed.

Lemma int_5000 : is_int 5000%float 5000.
Proof. split; [exact I | vm_compute; reflexivity]. Qed.

(** The scripted source keeps the contract of [math/rand]. *)
Lemma scripted_lawful (script : list Z) : @GoLibrarySpec _ (scripted script).
Proof.
  split.
  - intros n r Hn. destruct r as [| d r']; simpl; [lia |].
    apply Z.mod_pos_bound. exact Hn.
  - intros r. destruct r as [| d r']; simpl; [split; reflexivity |].
    unfold quarter. destruct (d mod 4) as [| p | p].
    + split; reflexivity.
    + destruct p as [p | p |]; try destruct p; split; reflexivity.
    + split; reflexivity.
Qed.

(** What the bounds claim says of one obstacle of the chunk that starts at
    pixel [s]. *)
Definition well_placed (s : Z) (o : Obstacle) : Prop :=
  1 <= Type_ o <= 3 /\ Y o = 0%float /\ between s (X o) (s + 5000).

Section Bounds.
Context {R : Type} `{!GoLibrary R} `{!GoLibrarySpec R}.

Lemma units_le (a b : Z) : a <= b -> a * U <= b * U.
Proof. pose proof U_pos. nia. Qed.

Lemma units_lt (a b : Z) : a < b -> a * U < b * U.
Proof. pose proof U_pos. nia. Qed.

(** A draw of [Float64], scaled by 200. *)
Lemma jitter_bounds (f : float) :
  (0 <=? f)%float = true -> (f <? 1)%float = true ->
  NN (f * 200) /\ Fp (f * 200) <= 200 * U.
Proof.
  intros H0 H1. destruct (unit_interval f H0 H1) as [Nf Hf].
  apply (mul_unit_bounds f 200 200 Nf Hf int_200). lia.
Qed.

(** One pass through the loop body: the draws it consumes, the obstacle
    it appends and the cursor it leaves. *)
Definition drawnType (rng : R) : Z := 1 + (Intn 3 rng).1.
Definition drawnOffset (rng : R) : float := (Float64 (Intn 3 rng).2).1.
Definition drawnJitter (rng : R) : float :=
  (Float64 (Float64 (Intn 3 rng).2).2).1.
Definition afterDraws (rng : R) : R := (Float64 (Float64 (Intn 3 rng).2).2).2.

Definition placed (rng : R) (currentX : float) : Obstacle :=
  {| Type_ := drawnType rng; X := (currentX + drawnOffset rng * 200)%float;
     Y := 0%float |}.

Definition advanced (rng : R) (currentX : float) : float :=
  (currentX + (ObstacleSpacing + drawnJitter rng * 200))%float.

Lemma placeObstacles_step (s : Z) (chunkEndX : float) :
  0 <= s -> s + 5000 <= 2 ^ 53 -> is_int chunkEndX (s + 5000) ->
  forall (n : nat) (rng : R) (currentX : float) (acc : list Obstacle) (c : Z),
    NN currentX -> (s + 500) * U <= Fp currentX <= c * U -> c <= s + 4000 ->
    placeObstacles (S n) rng currentX chunkEndX acc
    = placeObstacles n (afterDraws rng) (advanced rng currentX) chunkEndX
        (acc ++ [placed rng currentX]) /\
    well_placed s (placed rng currentX) /\
    Fp (X (placed rng currentX)) <= (c + 200) * U /\
    NN (advanced rng currentX) /\
    Fp currentX <= Fp (advanced rng currentX) <= (c + 500) * U.
Proof.
  intros Hs Hs53 Hend n rng currentX acc c Ncur [Hlo Hhi] Hc.
  pose proof U_pos as HU.
  assert (Hlim : is_int (chunkEndX - 500) (s + 5000 - 500)).
  { apply sub_int; [exact Hend | exact int_500 | lia..]. }
  destruct Hend as [Nend Fend]. destruct Hlim as [Nlim Flim].
  assert (Hcs : s + 500 <= c).
  { destruct (Z_le_gt_dec (s + 500) c) as [Hle | Hgt]; [exact Hle |].
    pose proof (units_lt c (s + 500) ltac:(lia)). lia. }
  unfold placed, advanced, afterDraws, drawnType, drawnOffset, drawnJitter.
  simpl placeObstacles.
  (* the loop condition holds *)
  assert (Hguard : (currentX <? chunkEndX - 500)%float = true).
  { rewrite (ltb_value _ _ Ncur Nlim), Flim. apply Z.ltb_lt.
    pose proof (units_lt c (s + 5000 - 500) ltac:(lia)). lia. }
  rewrite Hguard.
  pose proof (Intn_range 3 rng ltac:(lia)) as Ht.
  destruct (Intn 3 rng) as [t rng1]. simpl in Ht. simpl fst. simpl snd.
  pose proof (Float64_range rng1) as [Hf0 Hf1].
  destruct (Float64 rng1) as [f rng2]. simpl in Hf0, Hf1. simpl fst. simpl snd.
  destruct (jitter_bounds f Hf0 Hf1) as [Noff Hoff].
  (* the obstacle stays inside the chunk *)
  destruct (add_bounds currentX (f * 200) c 200 Ncur Noff Hhi Hoff ltac:(lia))
    as [NX [HXlo HXhi]].
  assert (Hbreak : (chunkEndX <=? currentX + f * 200)%float = false).
  { rewrite (leb_value _ _ Nend NX), Fend. apply Z.leb_gt.
    pose proof (units_lt (c + 200) (s + 5000) ltac:(lia)). lia. }
  rewrite Hbreak.
  pose proof (Float64_range rng2) as [Hg0 Hg1].
  destruct (Float64 rng2) as [g rng3]. simpl in Hg0, Hg1. simpl fst. simpl snd.
  destruct (jitter_bounds g Hg0 Hg1) as [Njit Hjit].
  (* the cursor advances by at most 500 *)
  destruct int_300 as [N300 F300].
  destruct (add_bounds 300 (g * 200) 300 200 N300 Njit ltac:(lia) Hjit
              ltac:(lia)) as [Nstep [_ Hstep]].
  change (ObstacleSpacing) with 300%float.
  destruct (add_bounds currentX (300 + g * 200) c (300 + 200) Ncur Nstep
              Hhi Hstep ltac:(lia)) as [Ncur' [Hcur'lo Hcur'hi]].
  split; [reflexivity |].
  pose proof (units_le s (s + 500) ltac:(lia)).
  pose proof (units_lt (c + 200) (s + 5000) ltac:(lia)).
  unfold well_placed, between; simpl.
  repeat split; try assumption; lia.
Qed.

Lemma placeObstacles_bounds (s : Z) (chunkEndX : float) :
  0 <= s -> s + 5000 <= 2 ^ 53 -> is_int chunkEndX (s + 5000) ->
  forall (n : nat) (rng : R) (currentX : float) (acc : list Obstacle) (c : Z),
    NN currentX -> (s + 500) * U <= Fp currentX <= c * U ->
    c + 500 * Z.of_nat n <= s + 4500 ->
    exists l, placeObstacles n rng currentX chunkEndX acc = acc ++ l /\
              length l = n /\ Forall (well_placed s) l.
Proof.
  intros Hs Hs53 Hend.
  induction n as [| n IH]; intros rng currentX acc c Ncur [Hlo Hhi] Hc.
  - exists []. rewrite app_nil_r. repeat split. constructor.
  - destruct (placeObstacles_step s chunkEndX Hs Hs53 Hend n rng currentX acc c
                Ncur (conj Hlo Hhi) ltac:(lia))
      as (Hstep & Hplaced & _ & Ncur' & Hcur'lo & Hcur'hi).
    destruct (IH (afterDraws rng) (advanced rng currentX)
                (acc ++ [placed rng currentX]) (c + 500) Ncur'
                ltac:(lia) ltac:(lia))
      as (l & Hl & Hlen & Hall).
    exists (placed rng currentX :: l).
    rewrite Hstep, Hl, <- app_assoc. split; [reflexivity |].
    split; [simpl; lia |]. constructor; assumption.
Qed.

Lemma chunk_edges (chunkID : Z) :
  0 <= chunkID <= 2 ^ 40 ->
  is_int (float64_of_int chunkID * ChunkSize) (5000 * chunkID) /\
  is_int (float64_of_int (chunkID + 1) * ChunkSize) (5000 * chunkID + 5000).
Proof.
  intros Hid. change (2 ^ 40) with 1099511627776 in Hid. split.
  - replace (5000 * chunkID) with (chunkID * 5000) by lia.
    apply mul_int; [apply float64_of_int_value | exact int_5000 | ..];
      change (2 ^ 53) with 9007199254740992; lia.
  - replace (5000 * chunkID + 5000) with ((chunkID + 1) * 5000) by lia.
    apply mul_int; [apply float64_of_int_value | exact int_5000 | ..];
      change (2 ^ 53) with 9007199254740992; lia.
Qed.

(** C4 (bounds), for the chunk IDs from 0 to 2^40: the chunk holds
    between 3 and 8 obstacles; the chunk edges are the integers
    5000 * chunkID and 5000 * (chunkID + 1) exactly; every obstacle has a
    finite X with chunkStartX <= X < chunkEndX, both as the comparisons of
    the code and as real values, a type among 1, 2, 3 and Y = 0. *)
Theorem GenerateChunk_bounds (seed : string) (chunkID : Z) :
  0 <= chunkID <= 2 ^ 40 ->
  let chunk := GenerateChunk seed chunkID in
  let chunkStartX := (float64_of_int chunkID * ChunkSize)%float in
  let chunkEndX := (float64_of_int (chunkID + 1) * ChunkSize)%float in
  (3 <= length (Obstacles chunk) <= 8)%nat /\
  is_int chunkStartX (5000 * chunkID) /\
  is_int chunkEndX (5000 * (chunkID + 1)) /\
  Forall (fun o =>
            (chunkStartX <=? X o)%float = true /\
            (X o <? chunkEndX)%float = true /\
            between (5000 * chunkID) (X o) (5000 * (chunkID + 1)) /\
            (Type_ o = ObstacleTypeTall \/ Type_ o = ObstacleTypeLow \/
             Type_ o = ObstacleTypeSpike) /\
            Y o = 0%float)
         (Obstacles chunk).
Proof.
  intros Hid chunk chunkStartX chunkEndX.
  destruct (chunk_edges chunkID Hid) as [Hstart Hend].
  fold chunkStartX in Hstart. fold chunkEndX in Hend.
  assert (Hid' : 0 <= chunkID <= 1099511627776) by exact Hid.
  set (s := 5000 * chunkID) in *.
  replace (5000 * (chunkID + 1)) with (s + 5000) by (unfold s; lia).
  assert (Hs : 0 <= s) by (unfold s; lia).
  assert (Hs53 : s + 5000 <= 2 ^ 53)
    by (change (2 ^ 53) with 9007199254740992; unfold s; lia).
  assert (Hcur : is_int (chunkStartX + 500) (s + 500)).
  { apply add_int; [exact Hstart | exact int_500 | lia..]. }
  destruct Hcur as [Ncur Fcur].
  subst chunk. unfold GenerateChunk.
  replace (wrap64 (chunkID + 1)) with (chunkID + 1).
  2:{ unfold wrap64. rewrite Z.mod_small; lia. }
  fold chunkStartX chunkEndX.
  pose proof (Intn_range (MaxObstaclesPerChunk - MinObstaclesPerChunk + 1)
                (rand_New (chunkSeed seed chunkID)) ltac:(reflexivity)) as Hk.
  destruct (Intn _ _) as [k rng]. simpl in Hk.
  change (MaxObstaclesPerChunk - MinObstaclesPerChunk + 1) with 6 in Hk.
  change MinObstaclesPerChunk with 3. simpl Obstacles.
  destruct (placeObstacles_bounds s chunkEndX Hs Hs53 Hend
              (Z.to_nat (3 + k)) rng (chunkStartX + 500)%float [] (s + 500)
              Ncur ltac:(rewrite Fcur; lia) ltac:(lia))
    as (l & Hl & Hlen & Hall).
  rewrite Hl. simpl app.
  split; [lia |]. split; [exact Hstart |]. split; [exact Hend |].
  apply Forall_impl with (P := well_placed s); [exact Hall |].
  intros o (Ht & HY & [NX [HXlo HXhi]]).
  destruct Hstart as [Nstart Fstart]. destruct Hend as [Nend Fend].
  split; [| split; [| split; [| split]]].
  - rewrite (leb_value _ _ Nstart NX), Fstart. apply Z.leb_le. exact HXlo.
  - rewrite (ltb_value _ _ NX Nend), Fend. apply Z.ltb_lt. exact HXhi.
  - split; [exact NX | split; assumption].
  - unfold ObstacleTypeTall, ObstacleTypeLow, ObstacleTypeSpike. lia.
  - exact HY.
Qed.

(** X15.  The spacing between the first two obstacles, for every generator that
    keeps the contract of [math/rand] (the run evaluated for C1 is no
    accident of the scripted source): when the first offset draw is at
    least 0.75 and the jitter draw and the second offset draw are at most
    0.25, the second obstacle stands less than [ObstacleSpacing] after the
    first, 250 pixels at most. *)
Theorem first_obstacles_closer_than_ObstacleSpacing
    (seed : string) (chunkID : Z) :
  0 <= chunkID <= 2 ^ 40 ->
  let rng0 := (Intn (MaxObstaclesPerChunk - MinObstaclesPerChunk + 1)
                 (rand_New (chunkSeed seed chunkID))).2 in
  let rng1 := afterDraws rng0 in
  (0.75 <=? drawnOffset rng0)%float = true ->
  (drawnJitter rng0 <=? 0.25)%float = true ->
  (drawnOffset rng1 <=? 0.25)%float = true ->
  exists o1 o2 rest,
    Obstacles (GenerateChunk seed chunkID) = o1 :: o2 :: rest /\
    (X o2 - X o1 <? ObstacleSpacing)%float = true.
Proof.
  intros Hid rng0 rng1 Hf Hg Hf'. pose proof U_pos as HU.
  destruct (chunk_edges chunkID Hid) as [Hstart Hend].
  assert (Hid' : 0 <= chunkID <= 1099511627776) by exact Hid.
  set (s := 5000 * chunkID) in *.
  set (chunkStartX := (float64_of_int chunkID * ChunkSize)%float) in *.
  set (chunkEndX := (float64_of_int (chunkID + 1) * ChunkSize)%float) in *.
  assert (Hs : 0 <= s) by (unfold s; lia).
  assert (Hs53 : s + 5000 <= 2 ^ 53)
    by (change (2 ^ 53) with 9007199254740992; unfold s; lia).
  assert (Hs53' : s + 5000 <= 9007199254740992) by exact Hs53.
  assert (Hcur : is_int (chunkStartX + 500) (s + 500)).
  { apply add_int; [exact Hstart | exact int_500 | lia..]. }
  destruct Hcur as [Ncur Fcur].
  set (cur0 := (chunkStartX + 500)%float) in *.
  (* the generator's draws *)
  unfold GenerateChunk.
  replace (wrap64 (chunkID + 1)) with (chunkID + 1).
  2:{ unfold wrap64. rewrite Z.mod_small; lia. }
  fold chunkStartX chunkEndX cur0.
  pose proof (Intn_range (MaxObstaclesPerChunk - MinObstaclesPerChunk + 1)
                (rand_New (chunkSeed seed chunkID)) ltac:(reflexivity)) as Hk.
  subst rng1 rng0.
  destruct (Intn _ _) as [k rng0]. simpl in Hk, Hf, Hg, Hf'.
  change (MaxObstaclesPerChunk - MinObstaclesPerChunk + 1) with 6 in Hk.
  change MinObstaclesPerChunk with 3. simpl Obstacles.
  destruct (Z.to_nat (3 + k)) as [| [| n]] eqn:Hn; try lia.
  (* two passes through the loop, then the remaining ones *)
  destruct (placeObstacles_step s chunkEndX Hs Hs53 Hend (S n) rng0 cur0 []
              (s + 500) Ncur ltac:(rewrite Fcur; lia) ltac:(lia))
    as (Hstep1 & _ & HX1hi & Ncur1 & Hcur1lo & Hcur1hi).
  set (cur1 := advanced rng0 cur0) in *.
  destruct (placeObstacles_step s chunkEndX Hs Hs53 Hend n (afterDraws rng0)
              cur1 ([] ++ [placed rng0 cur0]) (s + 500 + 500) Ncur1
              ltac:(lia) ltac:(lia))
    as (Hstep2 & _ & _ & Ncur2 & Hcur2lo & Hcur2hi).
  destruct (placeObstacles_bounds s chunkEndX Hs Hs53 Hend n
              (afterDraws (afterDraws rng0)) (advanced (afterDraws rng0) cur1)
              (([] ++ [placed rng0 cur0]) ++ [placed (afterDraws rng0) cur1])
              (s + 500 + 500 + 500) Ncur2 ltac:(lia) ltac:(lia))
    as (l & Hl & _ & _).
  exists (placed rng0 cur0), (placed (afterDraws rng0) cur1), l.
  split; [rewrite Hstep1, Hstep2, Hl; reflexivity |].
  (* the draws, as values *)
  unfold drawnOffset, drawnJitter in Hf, Hg.
  pose proof (Float64_range (Intn 3 rng0).2) as [Hf0 Hf1].
  pose proof (Float64_range (Float64 (Intn 3 rng0).2).2) as [Hg0 Hg1].
  pose proof (Float64_range (Intn 3 (afterDraws rng0)).2) as [Hf'0 Hf'1].
  fold (drawnOffset rng0) in Hf, Hf0, Hf1.
  fold (drawnJitter rng0) in Hg, Hg0, Hg1.
  fold (drawnOffset (afterDraws rng0)) in Hf'0, Hf'1.
  set (f := drawnOffset rng0) in *. set (g := drawnJitter rng0) in *.
  set (f' := drawnOffset (afterDraws rng0)) in *.
  destruct (unit_interval f Hf0 Hf1) as [Nf Ff1].
  destruct (unit_interval g Hg0 Hg1) as [Ng Fg1].
  destruct (unit_interval f' Hf'0 Hf'1) as [Nf' Ff'1].
  assert (H75 : 4 * Fp 0.75 = 3 * U) by (vm_compute; reflexivity).
  assert (H25 : 4 * Fp 0.25 = U) by (vm_compute; reflexivity).
  rewrite (leb_value 0.75 f I Nf) in Hf. apply Z.leb_le in Hf.
  rewrite (leb_value g 0.25 Ng I) in Hg. apply Z.leb_le in Hg.
  rewrite (leb_value f' 0.25 Nf' I) in Hf'. apply Z.leb_le in Hf'.
  pose proof (Fp_nonneg g) as Hg00. pose proof (Fp_nonneg f') as Hf'00.
  destruct (jitter_bounds f Hf0 Hf1) as [Noff _].
  destruct (jitter_bounds g Hg0 Hg1) as [Njit _].
  destruct (jitter_bounds f' Hf'0 Hf'1) as [Noff' _].
  (* the first obstacle is at 650 or beyond *)
  assert (Hoff : 150 * U <= Fp (f * 200)).
  { rewrite (mul_unit_value f 200 200 Nf Ff1 int_200) by lia.
    rewrite <- (RND_int 150) by lia. apply RND_mono; lia. }
  assert (HX1lo : (s + 500 + 150) * U <= Fp (cur0 + f * 200)).
  { apply (add_lower cur0 (f * 200) (s + 500) 150 Ncur Noff).
    - rewrite Fcur; lia.
    - exact Hoff.
    - lia.
    - pose proof (mul_unit_bounds f 200 200 Nf Ff1 int_200 ltac:(lia))
        as [_ Hb].
      rewrite Fcur. nia. }
  (* the cursor advances by 350 at most *)
  assert (Hjit : Fp (g * 200) <= 50 * U).
  { rewrite (mul_unit_value g 200 200 Ng Fg1 int_200) by lia.
    rewrite <- (RND_int 50) by lia. apply RND_mono; lia. }
  destruct int_300 as [N300 F300].
  destruct (add_bounds 300 (g * 200) 300 50 N300 Njit ltac:(lia) Hjit
              ltac:(lia)) as [Nstep [Hsteplo Hstephi]].
  destruct (add_bounds cur0 (300 + g * 200) (s + 500) (300 + 50) Ncur Nstep
              ltac:(rewrite Fcur; lia) Hstephi ltac:(lia))
    as [_ [_ Hcur1hi']].
  assert (Hcur1lo' : (s + 500 + 300) * U <= Fp (cur0 + (300 + g * 200))).
  { apply (add_lower cur0 (300 + g * 200) (s + 500) 300 Ncur Nstep).
    - rewrite Fcur; lia.
    - lia.
    - lia.
    - rewrite Fcur. nia. }
  change (cur0 + (300 + g * 200))%float with cur1 in Hcur1hi', Hcur1lo'.
  (* the second obstacle is at 900 or before *)
  assert (Hoff' : Fp (f' * 200) <= 50 * U).
  { rewrite (mul_unit_value f' 200 200 Nf' Ff'1 int_200) by lia.
    rewrite <- (RND_int 50) by lia. apply RND_mono; lia. }
  destruct (add_bounds cur1 (f' * 200) (s + 500 + (300 + 50)) 50 Ncur1 Noff'
              Hcur1hi' Hoff' ltac:(lia)) as [NX2 [HX2lo HX2hi]].
  destruct (add_bounds cur0 (f * 200) (s + 500) 200 Ncur Noff
              ltac:(rewrite Fcur; lia)
              (proj2 (mul_unit_bounds f 200 200 Nf Ff1 int_200 ltac:(lia)))
              ltac:(lia)) as [NX1 [_ HX1hi']].
  change (X (placed rng0 cur0)) with (cur0 + f * 200)%float.
  change (X (placed (afterDraws rng0) cur1)) with (cur1 + f' * 200)%float.
  destruct (sub_upper (cur1 + f' * 200) (cur0 + f * 200) 250 NX2 NX1)
    as [Ngap Hgap]; try lia; try nia.
  change ObstacleSpacing with 300%float.
  rewrite (ltb_value _ _ Ngap N300), F300.
  apply Z.ltb_lt. lia.
Qed.

End Bounds.

Lemma GenerateChunk_bounds_witness :
  let chunk := @GenerateChunk _ (scripted [4; 2; 3; 1; 0; 2; 2]) "seed" 5 in
  let chunkStartX := (float64_of_int 5 * ChunkSize)%float in
  let chunkEndX := (float64_of_int (5 + 1) * ChunkSize)%float in
  (3 <= length (Obstacles chunk) <= 8)%nat /\
  is_int chunkStartX (5000 * 5) /\
  is_int chunkEndX (5000 * (5 + 1)) /\
  Forall (fun o =>
            (chunkStartX <=? X o)%float = true /\
            (X o <? chunkEndX)%float = true /\
            between (5000 * 5) (X o) (5000 * (5 + 1)) /\
            (Type_ o = ObstacleTypeTall \/ Type_ o = ObstacleTypeLow \/
             Type_ o = ObstacleTypeSpike) /\
            Y o = 0%float)
         (Obstacles chunk).
Proof.
  apply (@GenerateChunk_bounds _ (scripted [4; 2; 3; 1; 0; 2; 2])
           (scripted_lawful _) "seed" 5).
  change (2 ^ 40) with 1099511627776. lia.
Defined.

Lemma first_obstacles_closer_witness :
  exists o1 o2 rest,
    Obstacles (@GenerateChunk _ (scripted [0; 0; 3; 0; 0; 0; 0; 0; 0; 0])
                 "seed" 0) = o1 :: o2 :: rest /\
    (X o2 - X o1 <? ObstacleSpacing)%float = true.
Proof.
  apply (@first_obstacles_closer_than_ObstacleSpacing _
           (scripted [0; 0; 3; 0; 0; 0; 0; 0; 0; 0]) (scripted_lawful _)
           "seed" 0); [change (2 ^ 40) with 1099511627776; lia | ..];
    reflexivity.
Defined.

(** C4 as stated fails for a huge chunk ID: at 2^62 the spacing of the
    binary64 values exceeds the chunk width, the cursor already equals the
    loop bound and no obstacle is generated. *)
Lemma GenerateChunk_empty_at_huge_ID :
  length (Obstacles (@GenerateChunk _ (scripted [4; 2; 3; 1; 0; 2; 2])
                       "seed" (2 ^ 62))) = 0%nat /\
  (float64_of_int (2 ^ 62) * ChunkSize + 500
   =? float64_of_int (2 ^ 62 + 1) * ChunkSize - 500)%float = true.
Proof. split; vm_compute; reflexivity. Qed.

End GenerationBounds.

(** ** The jump cycle *)

Module JumpCycle.

Import Game GameSpec.

(** What the server does to a player: the jump of a client's message, the
    ticker's step, and [Kill]. *)
Inductive PlayerOp := OpJump | OpTick | OpKill.

Definition applyOp (p : Player) (op : PlayerOp) : Player :=
  match op with
  | OpJump => Jump p
  | OpTick => tickPlayer p
  | OpKill => Kill p
  end.

(** X1.  Death is final: no sequence of jumps, ticks and kills changes any
    field of a player whose [IsAlive] is false. *)
Theorem dead_player_never_changes (p : Player) (ops : list PlayerOp) :
  IsAlive p = false -> foldl applyOp p ops = p.
Proof.
  intros Hd. induction ops as [| op ops IH] using rev_ind; [reflexivity |].
  rewrite foldl_app. simpl. rewrite IH.
  destruct p as [id nm x y v g a]. simpl in Hd. subst a.
  destruct op; simpl.
  - unfold Jump. simpl. rewrite andb_false_r. reflexivity.
  - reflexivity.
  - reflexivity.
Qed.

Lemma dead_player_never_changes_witness :
  foldl applyOp (Kill (Jump (NewPlayer 1 "ada"))) [OpTick; OpJump; OpTick; OpKill]
  = Kill (Jump (NewPlayer 1 "ada")).
Proof.
  apply (dead_player_never_changes (Kill (Jump (NewPlayer 1 "ada")))
           [OpTick; OpJump; OpTick; OpKill]).
  reflexivity.
Defined.

Lemma lt_19_cases (k : nat) (P : nat -> Prop) :
  (k < 19)%nat ->
  P 0%nat -> P 1%nat -> P 2%nat -> P 3%nat -> P 4%nat -> P 5%nat -> P 6%nat ->
  P 7%nat -> P 8%nat -> P 9%nat -> P 10%nat -> P 11%nat -> P 12%nat ->
  P 13%nat -> P 14%nat -> P 15%nat -> P 16%nat -> P 17%nat -> P 18%nat -> P k.
Proof.
  intros Hk. do 19 (destruct k as [| k]; [tauto |]). lia.
Qed.

(** X2.  A jump from the ground lasts 19 ticks: for 18 ticks after the jump the
    player is airborne, strictly above the ground line, and a further jump
    request changes nothing; the 19th tick puts the player back in the rest
    state, where it stays. *)
Theorem jump_lands_after_19_ticks (p : Player) :
  IsAlive p = true -> IsGrounded p = true -> Y p = GroundY ->
  (forall k, (k < 19)%nat ->
     let q := Nat.iter k tickPlayer (Jump p) in
     IsGrounded q = false /\ Jump q = q /\
     ((1 <= k)%nat -> (Y q <? GroundY)%float = true)) /\
  (forall n, Nat.iter (19 + n) tickPlayer (Jump p) = rest p).
Proof.
  intros Ha Hg HY. destruct p as [id nm x y v g a]. simpl in Ha, Hg, HY.
  subst a g y.
  split.
  - intros k Hk.
    apply (lt_19_cases k (fun k =>
             let q := Nat.iter k tickPlayer (Jump (mkPlayer id nm x GroundY v true true)) in
             IsGrounded q = false /\ Jump q = q /\
             ((1 <= k)%nat -> (Y q <? GroundY)%float = true)) Hk);
      vm_compute; (split; [reflexivity | split; [reflexivity |]]);
      intros Hle; first [reflexivity | exfalso; lia].
  - intros n. rewrite Nat.add_comm, Nat.iter_add.
    replace (Nat.iter 19 tickPlayer (Jump (mkPlayer id nm x GroundY v true true)))
      with (rest (mkPlayer id nm x GroundY v true true))
      by (vm_compute; reflexivity).
    apply iter_tick_rest. reflexivity.
Qed.

Lemma jump_lands_after_19_ticks_witness :
  (forall k, (k < 19)%nat ->
     let q := Nat.iter k tickPlayer (Jump (NewPlayer 1 "ada")) in
     IsGrounded q = false /\ Jump q = q /\
     ((1 <= k)%nat -> (Y q <? GroundY)%float = true)) /\
  (forall n, Nat.iter (19 + n) tickPlayer (Jump (NewPlayer 1 "ada"))
             = rest (NewPlayer 1 "ada")).
Proof.
  apply (jump_lands_after_19_ticks (NewPlayer 1 "ada")); reflexivity.
Defined.

Lemma reachable_spawn_X (p : Player) : reachable p -> X p = 100%float.
Proof.
  induction 1 as [id nm | p _ IH | p _ IH | p _ IH].
  - reflexivity.
  - unfold Jump. destruct (IsGrounded p && IsAlive p); exact IH.
  - exact IH.
  - unfold updatePlayerPhysics. destruct (GroundY <=? _)%float; exact IH.
Qed.

(** X3.  Where a player can be: no operation moves a player horizontally, so
    [X] stays at the spawn position 100; a jump rises 135 pixels at most
    ([Y] is never less than 305); the vertical velocity stays between the
    jump velocity -600 and 480; a grounded player stands on the ground
    line. *)
Theorem reachable_kinematic_envelope (p : Player) :
  reachable p ->
  X p = 100%float /\
  (305 <=? Y p)%float = true /\
  (JumpVelocity <=? VelocityY p)%float = true /\
  (VelocityY p <=? 480)%float = true /\
  (IsGrounded p = true -> Y p = GroundY).
Proof.
  intros Hr. split; [apply reachable_spawn_X, Hr |].
  destruct (reachable_on_jump_cycle p Hr) as [(Hg & HY & HV) | (Hg & Hin)].
  - rewrite HY, HV. repeat split; reflexivity.
  - rewrite Hg. destruct p as [id nm x y v g a]; simpl in *.
    repeat (destruct Hin as [Hin | Hin];
            [injection Hin as <- <-;
             repeat split; first [reflexivity | discriminate] |]).
    destruct Hin.
Qed.

Lemma reachable_kinematic_envelope_witness :
  let p := Nat.iter 9 updatePlayerPhysics (Jump (NewPlayer 1 "ada")) in
  X p = 100%float /\
  (305 <=? Y p)%float = true /\
  (JumpVelocity <=? VelocityY p)%float = true /\
  (VelocityY p <=? 480)%float = true /\
  (IsGrounded p = true -> Y p = GroundY).
Proof.
  apply (reachable_kinematic_envelope
           (Nat.iter 9 updatePlayerPhysics (Jump (NewPlayer 1 "ada")))).
  simpl. do 9 apply reach_physics. apply reach_jump, reach_new.
Defined.

End JumpCycle.

(** ** The player registry *)

Module Registry.

Import Game.

(** X4.  The snapshot of [GetAllPlayers] lists every registered player once and
    nothing else; its length is [GetPlayerCount]; a new registry has no
    player. *)
Theorem GetAllPlayers_lists_registry (g : GameState) :
  NoDup (GetAllPlayers g) /\
  (forall id, id ∈ GetAllPlayers g <-> exists p, GetPlayer id g = Some p) /\
  Z.of_nat (length (GetAllPlayers g)) = GetPlayerCount g /\
  GetAllPlayers NewGameState = [] /\ GetPlayerCount NewGameState = 0.
Proof.
  unfold GetAllPlayers, GetPlayer, GetPlayerCount.
  split; [apply NoDup_fst_map_to_list |]. split; [| split; [| split]].
  - intros id. rewrite list_elem_of_fmap. split.
    + intros ([k p] & -> & Hin). exists p. apply elem_of_map_to_list, Hin.
    + intros (p & Hp). exists (id, p). split; [reflexivity |].
      apply elem_of_map_to_list, Hp.
  - rewrite length_fmap, length_map_to_list. reflexivity.
  - simpl. rewrite map_to_list_empty. reflexivity.
  - reflexivity.
Qed.

(** X5.  Registering and removing: a player is found under its own ID and
    replaces a player registered under that ID before (the count grows only
    for a new ID); the other players are untouched; removing an ID that is
    not registered changes nothing, and removing a newly registered player
    gives back the registry as it was. *)
Theorem AddPlayer_RemovePlayer_round_trip (p : Player) (g : GameState) :
  GetPlayer (ID p) (AddPlayer p g) = Some p /\
  (forall id, id <> ID p ->
     GetPlayer id (AddPlayer p g) = GetPlayer id g /\
     GetPlayer id (RemovePlayer (ID p) g) = GetPlayer id g) /\
  GetPlayer (ID p) (RemovePlayer (ID p) g) = None /\
  GetPlayerCount (AddPlayer p g) =
    match GetPlayer (ID p) g with
    | Some _ => GetPlayerCount g
    | None => GetPlayerCount g + 1
    end /\
  (GetPlayer (ID p) g = None ->
     RemovePlayer (ID p) g = g /\ RemovePlayer (ID p) (AddPlayer p g) = g).
Proof.
  destruct g as [ps]. unfold GetPlayer, AddPlayer, RemovePlayer, GetPlayerCount.
  simpl. split; [apply lookup_insert_eq |]. split; [| split; [| split]].
  - intros id Hne. split.
    + apply lookup_insert_ne. congruence.
    + apply lookup_delete_ne. congruence.
  - apply lookup_delete_eq.
  - rewrite map_size_insert. destruct (ps !! ID p); simpl; lia.
  - intros Hn. split; f_equal.
    + apply delete_id, Hn.
    + apply delete_insert_id, Hn.
Qed.

End Registry.

(** ** The ticker *)

Module TickerSpec.

Import GoNum Game.

Section Tick.
Context {B C D : Type} `{!Broadcaster B} `{!ChunkManager C D}.
Variable asChunkBroadcaster : option (ChunkBroadcaster B D).

Lemma tick_players_fmap (now : Z) (t : Ticker B C) :
  players (gameState (tick asChunkBroadcaster now t)) =
  tickPlayer <$> players (gameState t).
Proof.
  apply map_eq. intros k. rewrite lookup_fmap.
  apply TickSpec.tick_players.
Qed.

Lemma tickPlayer_frame (p : Player) :
  ID (tickPlayer p) = ID p /\ Name (tickPlayer p) = Name p /\
  X (tickPlayer p) = X p /\ IsAlive (tickPlayer p) = IsAlive p.
Proof.
  unfold tickPlayer, updatePlayerPhysics.
  destruct (negb (IsAlive p)); [auto |].
  destruct (GroundY <=? _)%float; auto.
Qed.

(** X6.  A tick neither registers nor removes a player, and leaves the ID, the
    name, the horizontal position and the [IsAlive] flag of every player as
    they were; it counts itself. *)
Theorem tick_keeps_registry (now : Z) (t : Ticker B C) :
  let t' := tick asChunkBroadcaster now t in
  dom (players (gameState t')) = dom (players (gameState t)) /\
  GetPlayerCount (gameState t') = GetPlayerCount (gameState t) /\
  (forall id p',
     players (gameState t') !! id = Some p' ->
     exists p, players (gameState t) !! id = Some p /\
               ID p' = ID p /\ Name p' = Name p /\ X p' = X p /\
               IsAlive p' = IsAlive p) /\
  tickCount t' = wrap64 (tickCount t + 1).
Proof.
  intros t'. subst t'. rewrite tick_players_fmap.
  split; [apply dom_fmap_L |]. split; [| split].
  - unfold GetPlayerCount. rewrite tick_players_fmap, map_size_fmap.
    reflexivity.
  - intros id p'. rewrite lookup_fmap.
    destruct (players (gameState t) !! id) as [p |]; [| discriminate].
    simpl. intros [= <-]. exists p. split; [reflexivity |].
    apply tickPlayer_frame.
  - unfold tick. destruct (physicsLoop _ _) as [[ps mx] mn].
    destruct (chunkPhase _ _ _ _ _ _) as [[b cm] last]. reflexivity.
Qed.

(** X7.  The chunk management of a tick: [lastBroadcastedChunk] never
    decreases; the broadcaster receives the state of the tick, preceded by
    at most one chunk, and a chunk is broadcast only under an ID greater
    than [lastBroadcastedChunk], which then takes that ID; without a chunk
    manager, or without a registered player, a tick broadcasts no chunk and
    leaves the chunk manager alone. *)
Theorem tick_broadcasts_at_most_one_chunk (now : Z) (t : Ticker B C) :
  let t' := tick asChunkBroadcaster now t in
  lastBroadcastedChunk t <= lastBroadcastedChunk t' /\
  ((lastBroadcastedChunk t' = lastBroadcastedChunk t /\
    broadcaster t' = BroadcastState now (gameState t') (broadcaster t)) \/
   (lastBroadcastedChunk t < lastBroadcastedChunk t' /\
    exists cb chunk,
      asChunkBroadcaster = Some cb /\
      broadcaster t' =
      BroadcastState now (gameState t')
        (@BroadcastChunk _ _ cb (lastBroadcastedChunk t') chunk
           (broadcaster t)))) /\
  (chunkManager t = None \/ players (gameState t) = ∅ ->
   chunkManager t' = chunkManager t /\
   lastBroadcastedChunk t' = lastBroadcastedChunk t /\
   broadcaster t' = BroadcastState now (gameState t') (broadcaster t)).
Proof.
  intros t'. subst t'. unfold tick.
  assert (Hlen : players (gameState t) = ∅ ->
                 length (GetAllPlayers (gameState t)) = 0%nat).
  { intros He. unfold GetAllPlayers. rewrite He, map_to_list_empty.
    reflexivity. }
  destruct (physicsLoop _ _) as [[ps mx] mn].
  unfold chunkPhase.
  destruct (chunkManager t) as [cm |] eqn:Hcm.
  2:{ simpl. split; [lia |]. split; [left; auto |]. auto. }
  destruct (0 <? Z.of_nat (length (GetAllPlayers (gameState t)))) eqn:Hn.
  2:{ simpl. split; [lia |]. split; [left; auto |]. auto. }
  assert (Hno : ~ (Some cm = None \/ players (gameState t) = ∅)).
  { intros [Hc | He]; [discriminate |].
    rewrite (Hlen He) in Hn. discriminate. }
  set (next := wrap64 (int_of_float64 (mx / 5000) + 1)).
  destruct (lastBroadcastedChunk t <? next) eqn:Hlt.
  - apply Z.ltb_lt in Hlt.
    destruct (GetOrGenerateChunkInterface next _) as [chunk cm1].
    destruct chunk as [chunk |], asChunkBroadcaster as [cb |]; simpl;
      (split; [lia |]); (split; [| intros Hc; destruct (Hno Hc)]);
      first [left; split; reflexivity | idtac].
    right. split; [exact Hlt |]. exists cb, chunk. auto.
  - simpl. split; [lia |]. split; [left; auto |].
    intros Hc; destruct (Hno Hc).
Qed.

End Tick.

End TickerSpec.

(** ** The chunk manager *)

Module ManagerSpec.

Import GoNum Generation GenerationSpec.

Lemma wrap64_id (z : Z) : min_int64 <= z <= max_int64 -> wrap64 z = z.
Proof.
  unfold wrap64, min_int64, max_int64. intros Hz.
  rewrite Z.mod_small; lia.
Qed.

Lemma int_of_float64_range (f : float) :
  min_int64 <= int_of_float64 f <= max_int64.
Proof.
  unfold int_of_float64.
  assert (Hmin : min_int64 <= min_int64 <= max_int64)
    by (unfold min_int64, max_int64; lia).
  destruct (Prim2SF f) as [s | s | | s m e]; try exact Hmin.
  - unfold min_int64, max_int64; lia.
  - cbv zeta.
    destruct (_ && _) eqn:Hb; [| exact Hmin].
    apply andb_true_iff in Hb. destruct Hb as [H1 H2].
    apply Z.leb_le in H1, H2. lia.
Qed.

Section Manager.
Context {R : Type} `{!GoLibrary R}.

Lemma GetOrGenerateChunk_lookup (chunkID : Z) (cm : ChunkManager) (id : Z) :
  masterSeed (GetOrGenerateChunk chunkID cm).2 = masterSeed cm /\
  chunks (GetOrGenerateChunk chunkID cm).2 !! id =
  match chunks cm !! id with
  | Some c => Some c
  | None => if decide (id = chunkID)
            then Some (GenerateChunk (masterSeed cm) id) else None
  end.
Proof.
  unfold GetOrGenerateChunk.
  destruct (chunks cm !! chunkID) as [chunk |] eqn:Hc; simpl.
  - split; [reflexivity |].
    destruct (chunks cm !! id) as [c |] eqn:Hid; [reflexivity |].
    case_decide; [congruence | reflexivity].
  - split; [reflexivity |].
    destruct (decide (id = chunkID)) as [-> | Hne].
    + rewrite lookup_insert_eq, Hc. reflexivity.
    + rewrite lookup_insert_ne by congruence.
      destruct (chunks cm !! id); reflexivity.
Qed.

(** The cache after the loop that fetches [n] chunks from [c] on. *)
Lemma getChunksFrom_lookup (n : nat) (c : Z) (cm : ChunkManager) (id : Z) :
  min_int64 <= c -> c + Z.of_nat n <= max_int64 + 1 ->
  masterSeed (getChunksFrom n c cm).2 = masterSeed cm /\
  chunks (getChunksFrom n c cm).2 !! id =
  match chunks cm !! id with
  | Some x => Some x
  | None => if decide (c <= id < c + Z.of_nat n)
            then Some (GenerateChunk (masterSeed cm) id) else None
  end.
Proof.
  revert c cm. induction n as [| n IH]; intros c cm Hlo Hhi.
  - simpl. split; [reflexivity |].
    destruct (chunks cm !! id); [reflexivity |].
    case_decide; [lia | reflexivity].
  - simpl getChunksFrom.
    destruct (GetOrGenerateChunk_lookup c cm id) as [Hseed1 Hl1].
    destruct (GetOrGenerateChunk c cm) as [chunk cm1]. simpl in Hseed1, Hl1.
    destruct n as [| n].
    + simpl. split; [exact Hseed1 |]. rewrite Hl1.
      destruct (chunks cm !! id); [reflexivity |].
      repeat case_decide; try reflexivity; lia.
    + assert (Hw : wrap64 (c + 1) = c + 1)
        by (apply wrap64_id; unfold max_int64, min_int64 in *; lia).
      rewrite Hw.
      destruct (IH (c + 1) cm1 ltac:(lia) ltac:(lia)) as [Hseed2 Hl2].
      destruct (getChunksFrom (S n) (c + 1) cm1) as [rest cm2].
      simpl in Hseed2, Hl2 |- *.
      split; [congruence |]. rewrite Hl2, Hl1, Hseed1.
      destruct (chunks cm !! id); [reflexivity |].
      repeat case_decide; try reflexivity; try lia; congruence.
Qed.

(** X8.  [GetOrGenerateChunk] caches what it returns: the chunk is in the cache
    afterwards and a second call returns it without changing the manager;
    no other entry is touched; a chunk already cached is returned as it is
    and nothing is generated, a missing one is [GenerateChunk] of the
    manager's seed. *)
Theorem GetOrGenerateChunk_caches_its_result (chunkID : Z) (cm : ChunkManager) :
  let chunk := (GetOrGenerateChunk chunkID cm).1 in
  let cm' := (GetOrGenerateChunk chunkID cm).2 in
  chunks cm' !! chunkID = Some chunk /\
  GetOrGenerateChunk chunkID cm' = (chunk, cm') /\
  (forall id, id <> chunkID -> chunks cm' !! id = chunks cm !! id) /\
  (forall c, chunks cm !! chunkID = Some c -> chunk = c /\ cm' = cm) /\
  (chunks cm !! chunkID = None ->
   chunk = GenerateChunk (masterSeed cm) chunkID) /\
  masterSeed cm' = masterSeed cm.
Proof.
  unfold GetOrGenerateChunk.
  destruct (chunks cm !! chunkID) as [c0 |] eqn:Hc; simpl.
  - rewrite Hc. repeat split; try congruence.
  - rewrite lookup_insert_eq. repeat split; try congruence.
    intros id Hne. apply lookup_insert_ne. congruence.
Qed.

Lemma GenerateAheadForPlayer_lookup
    (playerX : float) (chunksAhead : Z) (cm : ChunkManager) (id : Z) :
  let current := int_of_float64 (playerX / ChunkSize) in
  0 <= chunksAhead -> current + chunksAhead <= max_int64 ->
  masterSeed (GenerateAheadForPlayer playerX chunksAhead cm) = masterSeed cm /\
  chunks (GenerateAheadForPlayer playerX chunksAhead cm) !! id =
  match chunks cm !! id with
  | Some x => Some x
  | None => if decide (current <= id <= current + chunksAhead)
            then Some (GenerateChunk (masterSeed cm) id) else None
  end.
Proof.
  intros current H0 Hmax. unfold GenerateAheadForPlayer. fold current.
  pose proof (int_of_float64_range (playerX / ChunkSize)) as Hr.
  fold current in Hr.
  destruct (getChunksFrom_lookup (Z.to_nat (chunksAhead + 1)) current cm id
              ltac:(lia) ltac:(lia)) as [Hseed Hl].
  split; [exact Hseed |]. rewrite Hl.
  destruct (chunks cm !! id); [reflexivity |].
  repeat case_decide; try reflexivity; lia.
Qed.

Lemma cleanup_lookup (th : Z) (m : gmap Z Chunk) (id : Z) :
  filter (fun kv : Z * Chunk => ~ kv.1 < th) m !! id =
  if decide (id < th) then None else m !! id.
Proof.
  destruct (m !! id) as [c |] eqn:Hc.
  - case_decide as Hlt.
    + apply map_lookup_filter_None. right. intros c' Hc'. simpl. tauto.
    + apply map_lookup_filter_Some. split; [exact Hc | exact Hlt].
  - assert (Hn : filter (fun kv : Z * Chunk => ~ kv.1 < th) m !! id = None).
    { apply map_lookup_filter_None. left. exact Hc. }
    rewrite Hn. case_decide; reflexivity.
Qed.

Lemma CleanupBehind_keeps_ahead
    (minPlayerX : float) (keepBehind : Z) (cm : ChunkManager) (id : Z) :
  let trailing := int_of_float64 (minPlayerX / ChunkSize) in
  0 <= keepBehind -> min_int64 <= trailing - keepBehind -> trailing <= id ->
  chunks (CleanupBehind minPlayerX keepBehind cm) !! id = chunks cm !! id.
Proof.
  intros trailing Hk Hmin Hid. unfold CleanupBehind. fold trailing. simpl.
  rewrite cleanup_lookup.
  pose proof (int_of_float64_range (minPlayerX / ChunkSize)) as Hr.
  fold trailing in Hr.
  rewrite wrap64_id by (unfold max_int64 in *; lia).
  case_decide; [lia | reflexivity].
Qed.

(** X9.  [GenerateAheadForPlayer] fills the window from the player's chunk to
    [chunksAhead] chunks further: every ID of the window is cached
    afterwards, a missing one with [GenerateChunk] of the manager's seed;
    what was cached stays as it was, and no ID outside the window is
    added. *)
Theorem GenerateAheadForPlayer_fills_window
    (playerX : float) (chunksAhead : Z) (cm : ChunkManager) :
  let current := int_of_float64 (playerX / ChunkSize) in
  let cm' := GenerateAheadForPlayer playerX chunksAhead cm in
  0 <= chunksAhead -> current + chunksAhead <= max_int64 ->
  masterSeed cm' = masterSeed cm /\
  (forall id c, chunks cm !! id = Some c -> chunks cm' !! id = Some c) /\
  (forall id, current <= id <= current + chunksAhead ->
     chunks cm !! id = None ->
     chunks cm' !! id = Some (GenerateChunk (masterSeed cm) id)) /\
  (forall id, ~ current <= id <= current + chunksAhead ->
     chunks cm' !! id = chunks cm !! id).
Proof.
  intros current cm' H0 Hmax. subst cm'.
  pose proof (fun id => GenerateAheadForPlayer_lookup playerX chunksAhead cm id
                          H0 Hmax) as Hl.
  fold current in Hl.
  split; [apply (Hl 0) |]. split; [| split].
  - intros id c Hc. rewrite (proj2 (Hl id)), Hc. reflexivity.
  - intros id Hid Hn. rewrite (proj2 (Hl id)), Hn.
    case_decide; [reflexivity | lia].
  - intros id Hid. rewrite (proj2 (Hl id)).
    destruct (chunks cm !! id); [reflexivity |].
    case_decide; [lia | reflexivity].
Qed.

(** X10.  [CleanupBehind] removes the chunks whose ID is below the trailing
    player's chunk minus [keepBehind] and no other; a second cleanup at the
    same position removes nothing more; when [keepBehind] is not negative,
    every chunk from the trailing player's chunk on is kept. *)
Theorem CleanupBehind_removes_only_behind
    (minPlayerX : float) (keepBehind : Z) (cm : ChunkManager) :
  let trailing := int_of_float64 (minPlayerX / ChunkSize) in
  let cm' := CleanupBehind minPlayerX keepBehind cm in
  masterSeed cm' = masterSeed cm /\
  (forall id, chunks cm' !! id =
              if decide (id < wrap64 (trailing - keepBehind)) then None
              else chunks cm !! id) /\
  CleanupBehind minPlayerX keepBehind cm' = cm' /\
  (0 <= keepBehind -> min_int64 <= trailing - keepBehind ->
   forall id, trailing <= id -> chunks cm' !! id = chunks cm !! id).
Proof.
  intros trailing cm'. subst cm'.
  split; [reflexivity |]. split; [| split].
  - intros id. apply cleanup_lookup.
  - unfold CleanupBehind. fold trailing. simpl. f_equal.
    apply map_eq. intros id. rewrite !cleanup_lookup.
    case_decide; reflexivity.
  - intros Hk Hmin id Hid. apply CleanupBehind_keeps_ahead; assumption.
Qed.

(** X11.  The two calls of the ticker, in its order: after
    [GenerateAheadForPlayer] for the leading player, a [CleanupBehind] for a
    trailing player that is not ahead of the leading one leaves every chunk
    of the generated window in the cache. *)
Theorem CleanupBehind_keeps_generated_window
    (maxPlayerX minPlayerX : float) (chunksAhead keepBehind : Z)
    (cm : ChunkManager) (id : Z) :
  let leading := int_of_float64 (maxPlayerX / ChunkSize) in
  let trailing := int_of_float64 (minPlayerX / ChunkSize) in
  0 <= chunksAhead -> leading + chunksAhead <= max_int64 ->
  0 <= keepBehind -> min_int64 <= trailing - keepBehind ->
  trailing <= leading ->
  leading <= id <= leading + chunksAhead ->
  exists chunk,
    chunks (CleanupBehind minPlayerX keepBehind
              (GenerateAheadForPlayer maxPlayerX chunksAhead cm)) !! id
    = Some chunk /\
    (chunks cm !! id = None -> chunk = GenerateChunk (masterSeed cm) id) /\
    (forall c, chunks cm !! id = Some c -> chunk = c).
Proof.
  intros leading trailing Ha Hmax Hk Hmin Hle Hid.
  rewrite CleanupBehind_keeps_ahead by (try assumption; fold trailing; lia).
  destruct (GenerateAheadForPlayer_lookup maxPlayerX chunksAhead cm id Ha Hmax)
    as [_ Hl].
  fold leading in Hl. rewrite Hl.
  destruct (chunks cm !! id) as [c |] eqn:Hc.
  - exists c. split; [reflexivity |]. split; [discriminate | congruence].
  - exists (GenerateChunk (masterSeed cm) id).
    rewrite decide_True by exact Hid.
    split; [reflexivity |]. split; [auto | discriminate].
Qed.



(** X13.  [GetAllChunks], on a manager with any history, returns the cached
    chunks and nothing else: each one is [GenerateChunk] of the seed for its
    own ID, no two have the same ID, and there are as many as cache
    entries. *)
Theorem GetAllChunks_returns_the_cache (seed : string) (calls : list Call) :
  let cm := history calls (NewChunkManager seed) in
  Forall (fun c => c = GenerateChunk seed (ID c) /\
                   chunks cm !! ID c = Some c) (GetAllChunks cm) /\
  (forall id c, chunks cm !! id = Some c -> c ∈ GetAllChunks cm) /\
  NoDup (map ID (GetAllChunks cm)) /\
  length (GetAllChunks cm) = size (chunks cm) /\
  GetAllChunks (NewChunkManager seed) = [].
Proof.
  intros cm.
  destruct (history_sound calls _ (NewChunkManager_sound seed)) as [Hseed Hs].
  fold cm in Hseed, Hs. simpl in Hseed. unfold GetAllChunks.
  assert (Hkey : forall id c, chunks cm !! id = Some c ->
                              c = GenerateChunk seed id /\ ID c = id).
  { intros id c Hc. pose proof (Hs id c Hc) as He. rewrite Hseed in He.
    split; [exact He |]. rewrite He. apply GenerateChunk_ID. }
  split; [| split; [| split; [| split]]].
  - apply Forall_forall. intros c Hin. apply list_elem_of_fmap in Hin.
    destruct Hin as ([id c'] & -> & Hin). apply elem_of_map_to_list in Hin.
    simpl. destruct (Hkey id c' Hin) as [He Hid]. rewrite Hid.
    split; [exact He | exact Hin].
  - intros id c Hc. apply list_elem_of_fmap. exists (id, c).
    split; [reflexivity |]. apply elem_of_map_to_list, Hc.
  - assert (Hids : forall l : list (Z * Chunk),
              (forall id c, (id, c) ∈ l -> ID c = id) ->
              map ID (l.*2) = l.*1).
    { induction l as [| [id c] l IH]; intros Hl; [reflexivity |].
      simpl. rewrite (Hl id c) by apply list_elem_of_here.
      f_equal. apply IH. intros id' c' Hin. apply Hl.
      apply list_elem_of_further, Hin. }
    rewrite Hids; [apply NoDup_fst_map_to_list |].
    intros id c Hin. apply elem_of_map_to_list in Hin. apply (Hkey id c Hin).
  - rewrite length_fmap, length_map_to_list. reflexivity.
  - simpl. rewrite map_to_list_empty. reflexivity.
Qed.

End Manager.

(** Runs on a new manager, with the scripted source. *)
Lemma GenerateAheadForPlayer_fills_window_witness :
  chunks (@GenerateAheadForPlayer _ (scripted []) 5000%float 2
            (NewChunkManager "seed")) !! 3
  = Some (@GenerateChunk _ (scripted []) "seed" 3).
Proof.
  destruct (@GenerateAheadForPlayer_fills_window _ (scripted []) 5000%float 2
              (NewChunkManager "seed") ltac:(lia)
              ltac:(vm_compute; discriminate))
    as (_ & _ & Hnew & _).
  apply Hnew; [vm_compute; split; discriminate | reflexivity].
Defined.

Lemma CleanupBehind_keeps_generated_window_witness :
  exists chunk,
    chunks (@CleanupBehind 15000%float 1
              (@GenerateAheadForPlayer _ (scripted []) 15000%float 2
                 (NewChunkManager "seed"))) !! 4
    = Some chunk /\
    (chunks (NewChunkManager "seed") !! 4 = None ->
     chunk = @GenerateChunk _ (scripted []) "seed" 4) /\
    (forall c, chunks (NewChunkManager "seed") !! 4 = Some c -> chunk = c).
Proof.
  apply (@CleanupBehind_keeps_generated_window _ (scripted [])
           15000%float 15000%float 2 1 (NewChunkManager "seed") 4);
    vm_compute; try discriminate; split; discriminate.
Defined.


End ManagerSpec.

(** ** The order of the obstacles of a chunk *)

Module SpacingSpec.

Import Rounding Binary64 Float64 GoNum Generation GenerationBounds.

(** The least integer multiple of the unit at or above a value. *)
Lemma ceil_unit (v : Z) :
  0 <= v -> exists m, 0 <= m /\ v <= m * U < v + U.
Proof.
  intros Hv. pose proof U_pos as HU.
  exists ((v + U - 1) / U).
  pose proof (Z.div_mod (v + U - 1) U ltac:(lia)) as Hd.
  pose proof (Z.mod_pos_bound (v + U - 1) U HU) as Hm.
  split; [apply Z.div_pos; lia |]. nia.
Qed.

(** Every obstacle of the list stands at least 99 pixels before each
    later one. *)
Fixpoint ascending (l : list Obstacle) : Prop :=
  match l with
  | [] => True
  | o :: l' =>
      Forall (fun o' => Fp (X o) + 99 * U <= Fp (X o')) l' /\ ascending l'
  end.

Section Spacing.
Context {R : Type} `{!GoLibrary R} `{!GoLibrarySpec R}.

(** One pass through the loop: the obstacle is not before the cursor, and
    the cursor it leaves is at least 99 pixels after the obstacle. *)
Lemma placed_before_advanced (rng : R) (currentX : float) (c : Z) :
  NN currentX -> Fp currentX <= c * U -> 0 <= c -> c + 500 <= 2 ^ 53 ->
  Fp currentX <= Fp (X (placed rng currentX)) /\
  Fp (X (placed rng currentX)) + 99 * U <= Fp (advanced rng currentX).
Proof.
  intros Ncur Hc Hc0 Hc53. pose proof U_pos as HU.
  pose proof (Fp_nonneg currentX) as Hcur0.
  assert (Hc53' : c + 500 <= 9007199254740992) by exact Hc53.
  unfold placed, advanced, drawnOffset, drawnJitter. simpl X.
  pose proof (Float64_range (Intn 3 rng).2) as [Hf0 Hf1].
  pose proof (Float64_range (Float64 (Intn 3 rng).2).2) as [Hg0 Hg1].
  set (f := (Float64 (Intn 3 rng).2).1) in *.
  set (g := (Float64 (Float64 (Intn 3 rng).2).2).1) in *.
  destruct (jitter_bounds f Hf0 Hf1) as [Noff Hoff].
  destruct (jitter_bounds g Hg0 Hg1) as [Njit Hjit].
  pose proof (Fp_nonneg (f * 200)) as Hoff0.
  destruct int_300 as [N300 F300].
  destruct (add_bounds 300 (g * 200) 300 200 N300 Njit ltac:(lia) Hjit
              ltac:(lia)) as [Nstep [Hsteplo Hstephi]].
  rewrite F300 in Hsteplo.
  change ObstacleSpacing with 300%float.
  destruct (add_bounds currentX (f * 200) c 200 Ncur Noff Hc Hoff ltac:(lia))
    as [NX [HXlo _]].
  split; [exact HXlo |].
  destruct (ceil_unit (Fp currentX + 200 * U) ltac:(lia)) as (m & Hm0 & Hmlo & Hmhi).
  assert (Hm53 : m + 99 <= 2 ^ 53).
  { assert (m < c + 201 + 1) by nia. lia. }
  assert (Hm53' : m + 99 <= 9007199254740992) by exact Hm53.
  destruct (add_value currentX (f * 200) Ncur Noff) as [_ HX]; [nia |].
  destruct (add_value currentX (300 + g * 200) Ncur Nstep) as [_ Hadv]; [nia |].
  rewrite HX, Hadv.
  assert (H1 : RND (Fp currentX + Fp (f * 200)) <= m * U).
  { rewrite <- (RND_int m) by lia. apply RND_mono; lia. }
  assert (H2 : (m + 99) * U <= RND (Fp currentX + Fp (300 + g * 200))).
  { rewrite <- (RND_int (m + 99)) by lia. apply RND_mono; nia. }
  lia.
Qed.

Lemma placeObstacles_ascending (s : Z) (chunkEndX : float) :
  0 <= s -> s + 5000 <= 2 ^ 53 -> is_int chunkEndX (s + 5000) ->
  forall (n : nat) (rng : R) (currentX : float) (acc : list Obstacle) (c : Z),
    NN currentX -> (s + 500) * U <= Fp currentX <= c * U ->
    c + 500 * Z.of_nat n <= s + 4500 ->
    exists l, placeObstacles n rng currentX chunkEndX acc = acc ++ l /\
              length l = n /\
              Forall (fun o => well_placed s o /\ Fp currentX <= Fp (X o)) l /\
              ascending l.
Proof.
  intros Hs Hs53 Hend.
  assert (Hs53' : s + 5000 <= 9007199254740992) by exact Hs53.
  induction n as [| n IH]; intros rng currentX acc c Ncur [Hlo Hhi] Hc.
  - exists []. rewrite app_nil_r. repeat split; constructor.
  - destruct (placeObstacles_step s chunkEndX Hs Hs53 Hend n rng currentX acc c
                Ncur (conj Hlo Hhi) ltac:(lia))
      as (Hstep & Hplaced & _ & Ncur' & Hcur'lo & Hcur'hi).
    destruct (placed_before_advanced rng currentX c Ncur Hhi)
      as [Hbefore Hafter]; [| change (2 ^ 53) with 9007199254740992; lia |].
    { pose proof U_pos. pose proof (Fp_nonneg currentX). nia. }
    destruct (IH (afterDraws rng) (advanced rng currentX)
                (acc ++ [placed rng currentX]) (c + 500) Ncur'
                ltac:(lia) ltac:(lia))
      as (l & Hl & Hlen & Hall & Hasc).
    exists (placed rng currentX :: l).
    rewrite Hstep, Hl, <- app_assoc. split; [reflexivity |].
    split; [simpl; lia |]. split.
    + constructor; [split; assumption |].
      eapply Forall_impl; [exact Hall |]. intros o [Hw Ho].
      split; [exact Hw | lia].
    + split; [| exact Hasc].
      eapply Forall_impl; [exact Hall |]. cbv beta. intros o [_ Ho]. lia.
Qed.

Lemma ascending_lookup (l : list Obstacle) :
  ascending l ->
  forall (i j : nat) (o1 o2 : Obstacle),
    (i < j)%nat -> l !! i = Some o1 -> l !! j = Some o2 ->
    Fp (X o1) + 99 * U <= Fp (X o2).
Proof.
  induction l as [| o l IH]; intros Hasc i j o1 o2 Hij H1 H2.
  - rewrite lookup_nil in H1. discriminate.
  - destruct Hasc as [Hall Hasc]. destruct j as [| j]; [lia |].
    simpl in H2. destruct i as [| i].
    + simpl in H1. injection H1 as <-.
      rewrite Forall_forall in Hall. apply Hall.
      apply list_elem_of_lookup. exists j. exact H2.
    + simpl in H1. apply (IH Hasc i j); [lia | assumption..].
Qed.

(** The obstacles of a chunk with an ID from 0 to 2^40. *)
Lemma GenerateChunk_layout (seed : string) (chunkID : Z) :
  0 <= chunkID <= 2 ^ 40 ->
  (3 <= length (Obstacles (GenerateChunk seed chunkID)) <= 8)%nat /\
  Forall (well_placed (5000 * chunkID)) (Obstacles (GenerateChunk seed chunkID)) /\
  ascending (Obstacles (GenerateChunk seed chunkID)).
Proof.
  intros Hid.
  destruct (chunk_edges chunkID Hid) as [Hstart Hend].
  assert (Hid' : 0 <= chunkID <= 1099511627776) by exact Hid.
  set (s := 5000 * chunkID) in *.
  set (chunkStartX := (float64_of_int chunkID * ChunkSize)%float) in *.
  set (chunkEndX := (float64_of_int (chunkID + 1) * ChunkSize)%float) in *.
  assert (Hs : 0 <= s) by (unfold s; lia).
  assert (Hs53 : s + 5000 <= 2 ^ 53)
    by (change (2 ^ 53) with 9007199254740992; unfold s; lia).
  assert (Hcur : is_int (chunkStartX + 500) (s + 500)).
  { apply add_int; [exact Hstart | exact int_500 | lia..]. }
  destruct Hcur as [Ncur Fcur].
  unfold GenerateChunk.
  replace (wrap64 (chunkID + 1)) with (chunkID + 1).
  2:{ unfold wrap64. rewrite Z.mod_small; lia. }
  fold chunkStartX chunkEndX.
  pose proof (Intn_range (MaxObstaclesPerChunk - MinObstaclesPerChunk + 1)
                (rand_New (chunkSeed seed chunkID)) ltac:(reflexivity)) as Hk.
  destruct (Intn _ _) as [k rng]. simpl in Hk.
  change (MaxObstaclesPerChunk - MinObstaclesPerChunk + 1) with 6 in Hk.
  change MinObstaclesPerChunk with 3. simpl Obstacles.
  destruct (placeObstacles_ascending s chunkEndX Hs Hs53 Hend
              (Z.to_nat (3 + k)) rng (chunkStartX + 500)%float [] (s + 500)
              Ncur ltac:(rewrite Fcur; lia) ltac:(lia))
    as (l & Hl & Hlen & Hall & Hasc).
  rewrite Hl. simpl app. split; [lia |]. split; [| exact Hasc].
  eapply Forall_impl; [exact Hall |]. intros o [Hw _]. exact Hw.
Qed.

(** X14.  The obstacles of a chunk come in ascending order of [X], at least 99
    pixels apart, for the chunk IDs from 0 to 2^40: the cursor advances by
    300 or more while an obstacle stands less than 200 after the cursor
    (the exact bound 100 can be missed by the rounding of binary64). *)
Theorem obstacles_ascending_99_apart
    (seed : string) (chunkID : Z) (i j : nat) (o1 o2 : Obstacle) :
  0 <= chunkID <= 2 ^ 40 ->
  (i < j)%nat ->
  Obstacles (GenerateChunk seed chunkID) !! i = Some o1 ->
  Obstacles (GenerateChunk seed chunkID) !! j = Some o2 ->
  (X o1 <? X o2)%float = true /\ (99 <=? X o2 - X o1)%float = true.
Proof.
  intros Hid Hij H1 H2. pose proof U_pos as HU.
  destruct (GenerateChunk_layout seed chunkID Hid) as (_ & Hall & Hasc).
  assert (Hid' : 0 <= chunkID <= 1099511627776) by exact Hid.
  pose proof (ascending_lookup _ Hasc i j o1 o2 Hij H1 H2) as Hgap.
  rewrite Forall_forall in Hall.
  destruct (Hall o1) as (_ & _ & N1 & Hlo1 & Hhi1);
    [apply list_elem_of_lookup; exists i; exact H1 |].
  destruct (Hall o2) as (_ & _ & N2 & Hlo2 & Hhi2);
    [apply list_elem_of_lookup; exists j; exact H2 |].
  split.
  - rewrite (ltb_value _ _ N1 N2). apply Z.ltb_lt. lia.
  - destruct (sub_value (X o2) (X o1) N2 N1) as [Nd Hd]; [lia | nia |].
    assert (H99 : Fp 99 = 99 * U) by (vm_compute; reflexivity).
    rewrite (leb_value 99 _ I Nd), H99, Hd. apply Z.leb_le.
    rewrite <- (RND_int 99) by lia. apply RND_mono; lia.
Qed.

End Spacing.

Lemma obstacles_ascending_99_apart_witness :
  (650 <? 800)%float = true /\ (99 <=? 800 - 650)%float = true.
Proof.
  apply (@obstacles_ascending_99_apart _
           (scripted [0; 0; 3; 0; 0; 0; 0; 0; 0; 0]) (scripted_lawful _)
           "seed" 0 0 1
           {| Type_ := 1; X := 650%float; Y := 0%float |}
           {| Type_ := 1; X := 800%float; Y := 0%float |});
    [change (2 ^ 40) with 1099511627776; lia | lia | reflexivity..].
Defined.

End SpacingSpec.

(** ** The hub *)

Module HubSpec.

Import Network NetworkSpec.

(** What holds of every client of a hub the server can reach. *)
Definition client_ok (id : Z) (c : ClientConnection) : Prop :=
  PlayerID c = id /\ capacity (SendChan c) = 10%nat /\
  (length (queue (SendChan c)) <= 10)%nat /\ closed c = false.

Lemma sendTo_ok (m : list Byte.byte) (id : Z) (c : ClientConnection) :
  client_ok id c -> client_ok id (sendTo m c).
Proof.
  intros (Hid & Hcap & Hlen & Hcl). unfold client_ok, sendTo, trySend. simpl.
  destruct (_ <? _)%nat eqn:Hlt; simpl; [| auto].
  apply Nat.ltb_lt in Hlt. rewrite length_app. simpl.
  repeat split; try assumption. lia.
Qed.

Lemma writeLoopStep_lookup (playerID : Z) (h : ClientHub) (id : Z) :
  clients (writeLoopStep playerID h) !! id =
  if decide (id = playerID) then
    (fun c => {| PlayerID := PlayerID c;
                 SendChan := {| queue := tail (queue (SendChan c));
                                capacity := capacity (SendChan c) |};
                 closed := closed c |}) <$> clients h !! id
  else clients h !! id.
Proof.
  unfold writeLoopStep. case_decide as Hid.
  - subst id. destruct (clients h !! playerID) as [c |] eqn:Hc; [| exact Hc].
    unfold receive. destruct c as [pid [q cap] cl]. simpl.
    destruct q as [| m q]; simpl.
    + exact Hc.
    + apply lookup_insert_eq.
  - destruct (clients h !! playerID) as [c |]; [| reflexivity].
    destruct (receive (SendChan c)) as [[m ch] |]; [| reflexivity].
    simpl. apply lookup_insert_ne. congruence.
Qed.

Section Hub.
Context `{!Json}.

Lemma hub_reachable_clients (h : ClientHub) :
  hub_reachable h -> forall id c, clients h !! id = Some c -> client_ok id c.
Proof.
  assert (Hsend : forall m h,
    (forall id c, clients h !! id = Some c -> client_ok id c) ->
    forall id c, clients (sendAll m h) !! id = Some c -> client_ok id c).
  { intros m h0 IH id c. rewrite sendAll_lookup.
    destruct (clients h0 !! id) as [c0 |] eqn:Hc0; [| discriminate].
    simpl. intros [= <-]. apply sendTo_ok, IH, Hc0. }
  induction 1 as [| pid h Hr IH | pid h Hr IH | pid h Hr IH
                  | now gs h Hr IH | cid cd h Hr IH]; intros id c.
  - simpl. rewrite lookup_empty. discriminate.
  - unfold AddClient; simpl. destruct (decide (pid = id)) as [-> | Hne].
    + rewrite lookup_insert_eq. intros [= <-].
      unfold client_ok. simpl. repeat split. lia.
    + rewrite lookup_insert_ne by exact Hne. apply IH.
  - unfold RemoveClient; simpl. destruct (decide (pid = id)) as [-> | Hne].
    + rewrite lookup_delete_eq. discriminate.
    + rewrite lookup_delete_ne by exact Hne. apply IH.
  - rewrite writeLoopStep_lookup. case_decide as Hid; [| apply IH].
    destruct (clients h !! id) as [c0 |] eqn:Hc0; [| discriminate].
    simpl. intros [= <-]. destruct (IH id c0 Hc0) as (H1 & H2 & H3 & H4).
    unfold client_ok. simpl. repeat split; try assumption.
    destruct (queue (SendChan c0)); simpl in *; lia.
  - unfold BroadcastState. destruct (Marshal _); [apply Hsend |]; apply IH.
  - unfold BroadcastChunk. destruct (Marshal _); [apply Hsend |]; apply IH.
Qed.

Lemma broadcast_dom (h : ClientHub) :
  (forall now gs, dom (clients (BroadcastState now gs h)) = dom (clients h)) /\
  (forall id chunk, dom (clients (BroadcastChunk id chunk h)) = dom (clients h)).
Proof.
  unfold BroadcastState, BroadcastChunk. split; intros a b;
    destruct (Marshal _); try reflexivity; unfold sendAll; simpl;
    apply dom_fmap_L.
Qed.

(** X16.  In every hub the server can reach (clients added and removed, writers
    running, broadcasts of states and chunks in any order), a client is
    stored under its own player ID, its channel is open and was made with
    capacity 10, and never holds more than 10 messages. *)
Theorem hub_queues_hold_at_most_10 (h : ClientHub) (id : Z) (c : ClientConnection) :
  hub_reachable h -> clients h !! id = Some c ->
  PlayerID c = id /\ capacity (SendChan c) = 10%nat /\
  (length (queue (SendChan c)) <= 10)%nat /\ closed c = false.
Proof. intros Hr Hc. exact (hub_reachable_clients h Hr id c Hc). Qed.

Lemma writeLoop_drains (n : nat) (playerID : Z) (h : ClientHub) (id : Z) :
  clients (Nat.iter n (writeLoopStep playerID) h) !! id =
  if decide (id = playerID) then
    (fun c => {| PlayerID := PlayerID c;
                 SendChan := {| queue := drop n (queue (SendChan c));
                                capacity := capacity (SendChan c) |};
                 closed := closed c |}) <$> clients h !! id
  else clients h !! id.
Proof.
  revert h. induction n as [| n IH]; intros h.
  - simpl. case_decide; [| reflexivity].
    destruct (clients h !! id) as [[pid [q cap] cl] |]; reflexivity.
  - rewrite Nat.iter_succ_r, IH, writeLoopStep_lookup.
    case_decide; [| reflexivity].
    destruct (clients h !! id) as [[pid [q cap] cl] |]; [| reflexivity].
    simpl. destruct q; simpl; rewrite ?drop_nil; reflexivity.
Qed.

(** X17.  The channel of a client is first in, first out: a broadcast puts its
    message behind the messages already queued (when there is room), and
    the writer takes the oldest message first, so after [n] writes the
    [n] oldest messages are gone and the others wait in their order; the
    writes of one client leave the other clients alone. *)
Theorem channel_is_first_in_first_out
    (h : ClientHub) (id : Z) (c : ClientConnection)
    (now : Z) (gs : Game.GameState) (bs : list Byte.byte) (n : nat) :
  clients h !! id = Some c ->
  Marshal (stateMsg now gs) = Some bs ->
  (length (queue (SendChan c)) < capacity (SendChan c))%nat ->
  (queue ∘ SendChan <$>
     clients (Nat.iter n (writeLoopStep id) (BroadcastState now gs h)) !! id)
  = Some (drop n (queue (SendChan c) ++ [bs])) /\
  (forall id', id' <> id ->
     clients (Nat.iter n (writeLoopStep id) (BroadcastState now gs h)) !! id'
     = clients (BroadcastState now gs h) !! id').
Proof.
  intros Hc Hbs Hroom. split.
  - rewrite writeLoop_drains, decide_True by reflexivity.
    unfold BroadcastState. rewrite Hbs, sendAll_lookup, Hc. simpl.
    unfold trySend. apply Nat.ltb_lt in Hroom. rewrite Hroom. reflexivity.
  - intros id' Hne. rewrite writeLoop_drains, decide_False by exact Hne.
    reflexivity.
Qed.

End Hub.

(** Eleven state broadcasts to a client whose writer does not run. *)
Definition elevenBroadcasts : ClientHub :=
  Nat.iter 11 (@BroadcastState eventNameJson 0 Game.NewGameState)
    (AddClient 1 NewClientHub).

Definition tenStates : ClientConnection :=
  {| PlayerID := 1;
     SendChan := {| queue := replicate 10 (String.list_byte_of_string "state");
                    capacity := 10 |};
     closed := false |}.

Lemma hub_queues_hold_at_most_10_witness :
  PlayerID tenStates = 1 /\ capacity (SendChan tenStates) = 10%nat /\
  (length (queue (SendChan tenStates)) <= 10)%nat /\ closed tenStates = false.
Proof.
  apply (@hub_queues_hold_at_most_10 eventNameJson elevenBroadcasts 1 tenStates).
  - unfold elevenBroadcasts. simpl Nat.iter.
    do 11 apply hub_state. apply hub_add, hub_new.
  - vm_compute. reflexivity.
Defined.

Lemma channel_is_first_in_first_out_witness :
  (queue ∘ SendChan <$>
     clients (Nat.iter 1 (writeLoopStep 2)
                (@BroadcastState eventNameJson 0 Game.NewGameState
                   (@BroadcastState eventNameJson 0 Game.NewGameState
                      twoClients))) !! 2)
  = Some [String.list_byte_of_string "state"].
Proof.
  apply (@channel_is_first_in_first_out eventNameJson
           (@BroadcastState eventNameJson 0 Game.NewGameState twoClients) 2
           {| PlayerID := 2;
              SendChan := {| queue := [String.list_byte_of_string "state"];
                             capacity := 10 |};
              closed := false |}
           0 Game.NewGameState (String.list_byte_of_string "state") 1);
    [reflexivity | reflexivity | simpl; lia].
Defined.

End HubSpec.

(** ** The chunk message *)

Module ChunkMessageSpec.

Import Rounding Binary64 Float64 GoNum Generation GenerationBounds SpacingSpec.

(** [encoding/json] encodes every non-negative finite value. *)
Lemma NN_json_float (f : float) : NN f -> Network.json_float f = true.
Proof.
  unfold NN, Network.json_float, is_nan, is_infinity. intros Hf.
  rewrite !FloatAxioms.eqb_spec, abs_spec.
  change (Prim2SF infinity) with (S754_infinity false).
  destruct (Prim2SF f) as [s | s | | s m e]; try destruct s;
    try contradiction; simpl.
  - reflexivity.
  - reflexivity.
  - unfold SFeqb, SFcompare. simpl.
    rewrite Z.compare_refl, Pos.compare_refl. reflexivity.
Qed.

Definition toObstacleData (o : Obstacle) : Network.ObstacleData :=
  {| Network.obstacleT := Type_ o; Network.obstacleX := X o;
     Network.obstacleY := Y o |}.

Section Convert.
Context {R : Type} `{!GoLibrary R} `{!GoLibrarySpec R}.

(** X18.  A generated chunk reaches the clients whole, for the chunk IDs from 0
    to 2^40: every coordinate is a finite number, so the conversion
    through JSON that [BroadcastChunk] performs keeps every obstacle, with
    its type and position, in the generator's order; the chunk message
    carries between 3 and 8 obstacles. *)
Theorem generated_chunk_is_sent_whole (seed : string) (chunkID id : Z) :
  0 <= chunkID <= 2 ^ 40 ->
  let chunk := GenerateChunk seed chunkID in
  Network.convertChunkToObstacles chunk = map toObstacleData (Obstacles chunk) /\
  (3 <= length (Network.convertChunkToObstacles chunk) <= 8)%nat /\
  Network.chunkMsg id chunk =
  {| Network.E := "chunk";
     Network.D := Network.ChunkData
                    {| Network.chunkID := id;
                       Network.Obs := map toObstacleData (Obstacles chunk) |} |}.
Proof.
  intros Hid chunk.
  destruct (GenerateChunk_layout seed chunkID Hid) as (Hlen & Hall & _).
  fold chunk in Hlen, Hall.
  assert (Hconv : Network.convertChunkToObstacles chunk
                  = map toObstacleData (Obstacles chunk)).
  { unfold Network.convertChunkToObstacles.
    replace (forallb _ (Obstacles chunk)) with true; [reflexivity |].
    symmetry. apply forallb_forall. intros o Hin.
    rewrite Forall_forall in Hall.
    destruct (Hall o) as (_ & HY & NX & _);
      [apply list_elem_of_In; exact Hin |].
    rewrite (NN_json_float _ NX), HY. reflexivity. }
  split; [exact Hconv |]. split.
  - rewrite Hconv, length_map. exact Hlen.
  - unfold Network.chunkMsg. rewrite Hconv. reflexivity.
Qed.

End Convert.

Lemma generated_chunk_is_sent_whole_witness :
  Network.convertChunkToObstacles
    (@GenerateChunk _ (scripted [0; 0; 3; 0; 0; 0; 0; 0; 0; 0]) "seed" 0)
  = [ {| Network.obstacleT := 1; Network.obstacleX := 650%float;
         Network.obstacleY := 0%float |};
      {| Network.obstacleT := 1; Network.obstacleX := 800%float;
         Network.obstacleY := 0%float |};
      {| Network.obstacleT := 1; Network.obstacleX := 1100%float;
         Network.obstacleY := 0%float |} ].
Proof.
  apply (@generated_chunk_is_sent_whole _
           (scripted [0; 0; 3; 0; 0; 0; 0; 0; 0; 0]) (scripted_lawful _)
           "seed" 0 0).
  change (2 ^ 40) with 1099511627776. lia.
Defined.

End ChunkMessageSpec.

(** ** Player names *)

Module SanitizeSpec.

Import Handler.

(** Every byte of the string satisfies [P]. *)
Fixpoint every (P : Ascii.ascii -> bool) (s : string) : bool :=
  match s with
  | EmptyString => true
  | String c s' => P c && every P s'
  end.

(** The bytes that open or close markup: the angle brackets and the two
    quotes. *)
Definition markup (c : Ascii.ascii) : bool :=
  let n := Ascii.nat_of_ascii c in
  ((n =? 60) || (n =? 62) || (n =? 39) || (n =? 34))%nat.

(** The five bytes [html.EscapeString] replaces: the markup bytes and the
    ampersand. *)
Definition replaced (c : Ascii.ascii) : bool :=
  (markup c || (Ascii.nat_of_ascii c =? 38)%nat).

Lemma every_append (P : Ascii.ascii -> bool) (s1 s2 : string) :
  every P (String.append s1 s2) = every P s1 && every P s2.
Proof.
  induction s1 as [| c s1 IH]; simpl; [reflexivity |].
  rewrite IH, andb_assoc. reflexivity.
Qed.

Lemma length_append (s1 s2 : string) :
  String.length (String.append s1 s2)
  = (String.length s1 + String.length s2)%nat.
Proof. induction s1 as [| c s1 IH]; simpl; [reflexivity | rewrite IH; reflexivity]. Qed.

Lemma escapeByte_spec (c : Ascii.ascii) :
  every (fun c => negb (markup c)) (escapeByte c) = true /\
  (1 <= String.length (escapeByte c) <= 5)%nat /\
  (replaced c = false -> escapeByte c = String c EmptyString).
Proof.
  destruct c as [[] [] [] [] [] [] [] []];
    (split; [reflexivity | split; [simpl; lia |]]);
    intros Hr; first [reflexivity | discriminate Hr].
Qed.

Lemma EscapeString_spec (s : string) :
  every (fun c => negb (markup c)) (EscapeString s) = true /\
  (String.length s <= String.length (EscapeString s) <= 5 * String.length s)%nat /\
  (every (fun c => negb (replaced c)) s = true -> EscapeString s = s).
Proof.
  induction s as [| c s (IH1 & IH2 & IH3)]; simpl.
  - repeat split; lia.
  - destruct (escapeByte_spec c) as (Hc1 & Hc2 & Hc3).
    rewrite every_append, Hc1, IH1, length_append.
    split; [reflexivity |]. split; [lia |].
    intros Hs. apply andb_true_iff in Hs. destruct Hs as [Hc Hs].
    rewrite Hc3 by (apply negb_true_iff; exact Hc). simpl.
    rewrite IH3 by exact Hs. reflexivity.
Qed.

Lemma substring_prefix (P : Ascii.ascii -> bool) (n : nat) (s : string) :
  (String.length (String.substring 0 n s) <= n)%nat /\
  (every P s = true -> every P (String.substring 0 n s) = true) /\
  (s <> EmptyString -> (0 < n)%nat -> String.substring 0 n s <> EmptyString).
Proof.
  revert s. induction n as [| n IH]; intros s.
  - destruct s; simpl; repeat split; try lia; auto.
  - destruct s as [| c s]; simpl.
    + repeat split; try lia; auto.
    + destruct (IH s) as (H1 & H2 & _). split; [lia |]. split.
      * intros Hs. apply andb_true_iff in Hs. destruct Hs as [-> Hs].
        simpl. apply H2, Hs.
      * discriminate.
Qed.

Section Sanitize.
Context `{!Strings}.

(** The name after trimming and cutting, as [sanitizePlayerName] hands it
    to [html.EscapeString]. *)
Definition cut (name : string) : string :=
  if (30 <? String.length (TrimSpace name))%nat
  then String.substring 0 30 (TrimSpace name) else TrimSpace name.

Lemma sanitizePlayerName_cut (name : string) :
  sanitizePlayerName name =
  if String.eqb (EscapeString (cut name)) EmptyString then "Player"
  else EscapeString (cut name).
Proof. reflexivity. Qed.

Lemma cut_length (name : string) : (String.length (cut name) <= 30)%nat.
Proof.
  unfold cut. destruct (30 <? _)%nat eqn:Hlt.
  - apply (substring_prefix (fun _ => true)).
  - apply Nat.ltb_ge in Hlt. exact Hlt.
Qed.

(** X19.  A sanitized name is never empty, holds none of the bytes [<], [>],
    ['] and the double quote, and is at most 150 bytes long: the name is
    cut to 30 bytes before the escape, which writes up to five bytes for
    one. *)
Theorem sanitizePlayerName_is_markup_free (name : string) :
  sanitizePlayerName name <> EmptyString /\
  every (fun c => negb (markup c)) (sanitizePlayerName name) = true /\
  (String.length (sanitizePlayerName name) <= 150)%nat.
Proof.
  rewrite sanitizePlayerName_cut.
  destruct (EscapeString_spec (cut name)) as (Hm & Hl & _).
  pose proof (cut_length name) as Hc.
  destruct (String.eqb_spec (EscapeString (cut name)) EmptyString) as [He | Hne].
  - repeat split; [discriminate | simpl; lia].
  - repeat split; [exact Hne | exact Hm | lia].
Qed.

(** X20.  A name whose trimmed form holds none of the five escaped bytes comes
    out as that form, cut to its first 30 bytes when it is longer; the
    empty one comes out as ["Player"]. *)
Theorem sanitizePlayerName_keeps_plain_names (name : string) :
  every (fun c => negb (replaced c)) (TrimSpace name) = true ->
  sanitizePlayerName name =
  if String.eqb (TrimSpace name) EmptyString then "Player"
  else if (30 <? String.length (TrimSpace name))%nat
       then String.substring 0 30 (TrimSpace name)
       else TrimSpace name.
Proof.
  intros Hp. rewrite sanitizePlayerName_cut.
  assert (Hcut : every (fun c => negb (replaced c)) (cut name) = true).
  { unfold cut. destruct (30 <? _)%nat; [| exact Hp].
    apply substring_prefix, Hp. }
  destruct (EscapeString_spec (cut name)) as (_ & _ & Hid).
  rewrite (Hid Hcut). fold (cut name).
  destruct (String.eqb_spec (TrimSpace name) EmptyString) as [He | Hne].
  - unfold cut. rewrite He. reflexivity.
  - assert (Hc : cut name <> EmptyString).
    { unfold cut. destruct (30 <? _)%nat; [| exact Hne].
      apply (substring_prefix (fun _ => true)); [exact Hne | lia]. }
    apply String.eqb_neq in Hc. rewrite Hc. reflexivity.
Qed.

End Sanitize.

Lemma sanitizePlayerName_keeps_plain_names_witness :
  @sanitizePlayerName asciiTrim "  TestPlayer  " = "TestPlayer".
Proof.
  apply (@sanitizePlayerName_keeps_plain_names asciiTrim "  TestPlayer  ").
  reflexivity.
Defined.

End SanitizeSpec.

(** ** One connection *)

Module HandlerSpec.

Import GoNum Network Handler.

Lemma wrap64_range (z : Z) : min_int64 <= wrap64 z <= max_int64.
Proof.
  unfold wrap64, min_int64, max_int64.
  pose proof (Z.mod_pos_bound (z + 2 ^ 63) (2 ^ 64) ltac:(lia)). lia.
Qed.

Lemma wrap64_succ_neq (z : Z) :
  min_int64 <= z <= max_int64 -> wrap64 (z + 1) <> z.
Proof.
  unfold wrap64, min_int64, max_int64. intros Hz.
  destruct (Z.eq_dec z (2 ^ 63 - 1)) as [-> | Hne].
  - vm_compute. discriminate.
  - rewrite Z.mod_small; lia.
Qed.

(** A frame that is not a join. *)
Definition notJoin (r : Read) : Prop :=
  match r with
  | Unparsable => True
  | Parsed msg => receivedE msg <> "join"
  end.

(** A frame that is not a join that decodes. *)
Definition noValidJoin (r : Read) : Prop :=
  match r with
  | Unparsable => True
  | Parsed msg => receivedE msg <> "join" \/ joinMsg msg = None
  end.

Definition joinFrame (name : string) (now : Z) (sent : bool) : Read :=
  Parsed {| receivedE := "join"; joinMsg := Some {| N := name |};
            serverTime := now; written := sent |}.

Section Handler.
Context `{!Strings}.

(** A message that is not a join touches the player of the connection and
    nothing else. *)
Lemma handleMessage_other (msg : Received) (l : Locals) (s : Server) :
  receivedE msg <> "join" ->
  exists gs,
    handleMessage msg l s =
    (Continue, l, {| playerIDCounter := playerIDCounter s; gameState := gs;
                     clientHub := clientHub s |}) /\
    (forall id, id <> playerID l ->
                Game.players gs !! id = Game.players (gameState s) !! id) /\
    (playerID l = 0 -> gs = gameState s) /\
    dom (Game.players gs) = dom (Game.players (gameState s)).
Proof.
  intros Hne. unfold handleMessage.
  apply String.eqb_neq in Hne. rewrite Hne.
  destruct (String.eqb (receivedE msg) "jump").
  - exists (handleJump (playerID l) (gameState s)).
    split; [reflexivity |]. unfold handleJump.
    destruct (playerID l =? 0) eqn:H0.
    + repeat split; reflexivity.
    + apply Z.eqb_neq in H0. unfold Game.GetPlayer.
      destruct (Game.players (gameState s) !! playerID l) as [p |] eqn:Hp.
      * simpl. split; [| split].
        -- intros id Hid. apply lookup_insert_ne. congruence.
        -- intros Hz. contradiction.
        -- apply dom_insert_lookup_L. rewrite Hp. eauto.
      * repeat split; reflexivity.
  - exists (gameState s). destruct s. repeat split; reflexivity.
Qed.

(** The message loop over frames without a join. *)
Lemma messageLoop_other (reads : list Read) (l : Locals) (s : Server) :
  Forall notJoin reads ->
  exists gs,
    messageLoop reads l s =
    (l, {| playerIDCounter := playerIDCounter s; gameState := gs;
           clientHub := clientHub s |}) /\
    (forall id, id <> playerID l ->
                Game.players gs !! id = Game.players (gameState s) !! id) /\
    (playerID l = 0 -> gs = gameState s) /\
    dom (Game.players gs) = dom (Game.players (gameState s)).
Proof.
  intros Hall. revert s. induction Hall as [| r reads Hr Hall IH]; intros s.
  - exists (gameState s). destruct s. repeat split; reflexivity.
  - destruct r as [| msg]; simpl messageLoop; [apply IH |].
    destruct (handleMessage_other msg l s Hr) as (gs1 & -> & H1 & H2 & H3).
    destruct (IH {| playerIDCounter := playerIDCounter s; gameState := gs1;
                    clientHub := clientHub s |})
      as (gs2 & -> & G1 & G2 & G3).
    simpl in *. exists gs2. split; [reflexivity |]. split; [| split].
    + intros id Hid. rewrite G1, H1 by exact Hid. reflexivity.
    + intros Hz. rewrite G2, H2 by exact Hz. reflexivity.
    + congruence.
Qed.

(** X21.  A connection that joins once and is closed later leaves no trace but
    the ID it used up: when the ID was free, the registry and the hub are
    in the end what they were before the join, whatever the client sent in
    between. *)
Theorem HandleClient_join_and_leave
    (name : string) (now : Z) (reads : list Read) (s : Server) :
  let id := wrap64 (playerIDCounter s + 1) in
  id <> 0 ->
  Game.GetPlayer id (gameState s) = None ->
  clients (clientHub s) !! id = None ->
  Forall notJoin reads ->
  HandleClient (joinFrame name now true :: reads) s =
  {| playerIDCounter := id; gameState := gameState s;
     clientHub := clientHub s |}.
Proof.
  intros id Hid Hp Hc Hall. unfold HandleClient, joinFrame.
  simpl messageLoop. unfold handleMessage, handleJoin, getNextPlayerID.
  simpl. fold id.
  set (s1 := {| playerIDCounter := id;
                gameState := Game.AddPlayer
                               (Game.NewPlayer id (sanitizePlayerName name))
                               (gameState s);
                clientHub := AddClient id (clientHub s) |}).
  set (l1 := {| playerID := id; playerName := sanitizePlayerName name |}).
  destruct (messageLoop_other reads l1 s1 Hall) as (gs & -> & H1 & _ & H3).
  unfold disconnect. simpl.
  apply Z.eqb_neq in Hid. rewrite Hid. f_equal.
  - destruct (gameState s) as [ps]. destruct gs as [ps2].
    unfold Game.RemovePlayer, Game.GetPlayer in *. simpl in *. f_equal.
    apply map_eq. intros k. destruct (decide (k = id)) as [-> | Hne].
    + rewrite lookup_delete_eq, Hp. reflexivity.
    + rewrite lookup_delete_ne by congruence.
      rewrite H1 by exact Hne. apply lookup_insert_ne. congruence.
  - destruct (clientHub s) as [cs]. unfold RemoveClient, AddClient. simpl in *.
    f_equal. apply delete_insert_id, Hc.
Qed.

(** X22.  When the welcome message cannot be written, [HandleClient] returns at
    once: the hub is not touched and the frames that follow are not read.
    The player made for the join has been added to the registry before,
    and stays there: [handleJoin] reports the ID 0, for which the deferred
    clean-up removes nothing. *)
Theorem HandleClient_welcome_not_written
    (name : string) (now : Z) (reads : list Read) (s : Server) :
  let id := wrap64 (playerIDCounter s + 1) in
  HandleClient (joinFrame name now false :: reads) s =
  {| playerIDCounter := id;
     gameState := Game.AddPlayer (Game.NewPlayer id (sanitizePlayerName name))
                    (gameState s);
     clientHub := clientHub s |} /\
  handleJoin {| receivedE := "join"; joinMsg := Some {| N := name |};
                serverTime := now; written := false |}
             (playerIDCounter s) (gameState s)
  = ((0, EmptyString, true),
     Some {| ID := id; Seed := String.append "vibe-runner-" (itoa id);
             ServerTime := now |},
     (id, Game.AddPlayer (Game.NewPlayer id (sanitizePlayerName name))
            (gameState s))).
Proof. split; reflexivity. Qed.

(** X23.  A connection that never sends a join that decodes changes nothing:
    jumps before a join, unknown events and frames that do not parse are
    ignored, and a join whose payload does not decode closes the
    connection. *)
Theorem HandleClient_without_join (reads : list Read) (s : Server) :
  Forall noValidJoin reads -> HandleClient reads s = s.
Proof.
  intros Hall. unfold HandleClient.
  set (l0 := {| playerID := 0; playerName := EmptyString |}).
  assert (Hloop : exists l, playerID l = 0 /\ messageLoop reads l0 s = (l, s)).
  { assert (H0 : playerID l0 = 0) by reflexivity.
    clearbody l0. revert l0 H0.
    induction Hall as [| r reads Hr Hall IH]; intros l0 H0.
    - exists l0. auto.
    - destruct r as [| msg]; simpl messageLoop; [apply IH, H0 |].
      destruct (String.eqb_spec (receivedE msg) "join") as [He | Hne].
      + destruct Hr as [Hr | Hr]; [contradiction |].
        unfold handleMessage, handleJoin.
        rewrite He, Hr. simpl. destruct s.
        exists {| playerID := 0; playerName := EmptyString |}. auto.
      + destruct (handleMessage_other msg l0 s Hne) as (gs & -> & _ & H2 & _).
        rewrite (H2 H0). destruct s. apply IH, H0. }
  destruct Hloop as (l & Hl & ->). unfold disconnect. rewrite Hl. reflexivity.
Qed.

(** X24.  [HandleClient] removes the player of the last join only: after a
    second join on the same connection, the player and the hub client of
    the first join stay registered when the connection is closed. *)
Theorem HandleClient_second_join
    (name1 name2 : string) (now1 now2 : Z) (reads : list Read) (s : Server) :
  let id1 := wrap64 (playerIDCounter s + 1) in
  Forall notJoin reads ->
  let s' := HandleClient (joinFrame name1 now1 true ::
                          joinFrame name2 now2 true :: reads) s in
  Game.GetPlayer id1 (gameState s')
  = Some (Game.NewPlayer id1 (sanitizePlayerName name1)) /\
  clients (clientHub s') !! id1
  = Some {| PlayerID := id1; SendChan := make_chan 10; closed := false |} /\
  playerIDCounter s' = wrap64 (id1 + 1).
Proof.
  intros id1 Hall s'. subst s'. unfold HandleClient, joinFrame.
  simpl messageLoop. unfold handleMessage, handleJoin, getNextPlayerID.
  simpl. fold id1. set (id2 := wrap64 (id1 + 1)).
  assert (Hne : id2 <> id1) by (apply wrap64_succ_neq, wrap64_range).
  match goal with
  | |- context [messageLoop reads ?l ?s1] =>
      destruct (messageLoop_other reads l s1 Hall) as (gs & -> & H1 & _ & _)
  end.
  simpl in H1. unfold disconnect. simpl.
  destruct (id2 =? 0) eqn:Hz; simpl.
  - unfold Game.GetPlayer. rewrite H1 by congruence.
    rewrite lookup_insert_ne by exact Hne. rewrite lookup_insert_eq.
    rewrite lookup_insert_ne by exact Hne. rewrite lookup_insert_eq. auto.
  - unfold Game.GetPlayer. simpl.
    rewrite lookup_delete_ne by exact Hne. rewrite H1 by congruence.
    rewrite lookup_insert_ne by exact Hne. rewrite lookup_insert_eq.
    rewrite lookup_delete_ne by exact Hne.
    rewrite lookup_insert_ne by exact Hne. rewrite lookup_insert_eq. auto.
Qed.

End Handler.

Definition emptyServer : Server :=
  {| playerIDCounter := 0; gameState := Game.NewGameState;
     clientHub := NewClientHub |}.

Definition jumpFrame : Read :=
  Parsed {| receivedE := "jump"; joinMsg := None; serverTime := 0;
            written := true |}.

Lemma HandleClient_join_and_leave_witness :
  @HandleClient asciiTrim (joinFrame "ada" 0 true :: [jumpFrame; Unparsable])
    emptyServer
  = {| playerIDCounter := 1; gameState := Game.NewGameState;
       clientHub := NewClientHub |}.
Proof.
  apply (@HandleClient_join_and_leave asciiTrim "ada" 0 [jumpFrame; Unparsable]
           emptyServer).
  - vm_compute. discriminate.
  - reflexivity.
  - reflexivity.
  - repeat constructor. simpl. discriminate.
Defined.

Lemma HandleClient_without_join_witness :
  @HandleClient asciiTrim [jumpFrame; Unparsable] emptyServer = emptyServer.
Proof.
  apply (@HandleClient_without_join asciiTrim [jumpFrame; Unparsable]
           emptyServer).
  constructor; [left; simpl; discriminate | repeat constructor].
Defined.

Lemma HandleClient_second_join_witness :
  Game.GetPlayer 1
    (gameState (@HandleClient asciiTrim
                  (joinFrame "ada" 0 true :: joinFrame "bob" 1 true :: [jumpFrame])
                  emptyServer))
  = Some (Game.NewPlayer 1 "ada").
Proof.
  apply (@HandleClient_second_join asciiTrim "ada" "bob" 0 1 [jumpFrame]
           emptyServer).
  repeat constructor. simpl. discriminate.
Defined.

End HandlerSpec.

(** ** The server *)

Module ServerSpec.

Import GoNum Network Handler Main.

Section Server.
Context {R : Type} `{!Generation.GoLibrary R} `{!Json} `{!Strings}.

(** What holds of the shared objects between two events. *)
Record server_ok (s : Server) : Prop := {
  ok_counter : 0 <= playerIDCounter s;
  ok_players : forall id p,
    Game.players (gameState s) !! id = Some p ->
    Game.ID p = id /\ 1 <= id <= playerIDCounter s /\ Game.reachable p /\
    exists name, Game.Name p = sanitizePlayerName name;
  ok_hub : hub_reachable (clientHub s);
  ok_clients : forall id c,
    clients (clientHub s) !! id = Some c -> 1 <= id <= playerIDCounter s
}.

Definition locals_ok (l : Locals) (s : Server) : Prop :=
  0 <= playerID l <= playerIDCounter s.

Lemma handleJump_ok (l : Locals) (s : Server) :
  server_ok s ->
  server_ok {| playerIDCounter := playerIDCounter s;
               gameState := handleJump (playerID l) (gameState s);
               clientHub := clientHub s |}.
Proof.
  intros [Hc Hp Hh Hcl]. split; simpl; try assumption.
  unfold handleJump. destruct (playerID l =? 0); [exact Hp |].
  unfold Game.GetPlayer.
  destruct (Game.players (gameState s) !! playerID l) as [q |] eqn:Hq;
    [| exact Hp].
  simpl. intros id p. destruct (decide (playerID l = id)) as [<- | Hne].
  - rewrite lookup_insert_eq. intros [= <-].
    destruct (Hp _ _ Hq) as (Ki & Kr & Kre & Knm).
    split; [| split; [exact Kr | split; [apply Game.reach_jump, Kre |]]].
    + unfold Game.Jump. destruct (_ && _); exact Ki.
    + unfold Game.Jump. destruct (_ && _); exact Knm.
  - rewrite lookup_insert_ne by exact Hne. apply Hp.
Qed.

Lemma handleMessage_ok (msg : Received) (l : Locals) (s : Server) :
  server_ok s -> locals_ok l s -> playerIDCounter s < max_int64 ->
  let '(flow, l', s') := handleMessage msg l s in
  server_ok s' /\ locals_ok l' s' /\
  playerIDCounter s <= playerIDCounter s' <= playerIDCounter s + 1 /\
  (flow = Return -> playerID l' = 0).
Proof.
  intros Hs Hl Hmax. unfold handleMessage.
  destruct (String.eqb (receivedE msg) "join").
  - unfold handleJoin. destruct (joinMsg msg) as [j |].
    + unfold getNextPlayerID.
      assert (Hw : wrap64 (playerIDCounter s + 1) = playerIDCounter s + 1).
      { apply ManagerSpec.wrap64_id. destruct Hs as [Hc _ _ _].
        unfold min_int64, max_int64 in *. lia. }
      rewrite Hw. set (id := playerIDCounter s + 1).
      destruct Hs as [Hc Hp Hh Hcl].
      assert (Hplayers : forall k p,
        Game.players (Game.AddPlayer
                        (Game.NewPlayer id (sanitizePlayerName (N j)))
                        (gameState s)) !! k = Some p ->
        Game.ID p = k /\ 1 <= k <= id /\ Game.reachable p /\
        exists name, Game.Name p = sanitizePlayerName name).
      { intros k p. unfold Game.AddPlayer. simpl.
        destruct (decide (id = k)) as [<- | Hne].
        - rewrite lookup_insert_eq. intros [= <-]. simpl.
          split; [reflexivity |]. split; [unfold id; lia |].
          split; [apply Game.reach_new | eexists; reflexivity].
        - rewrite lookup_insert_ne by exact Hne. intros Hk.
          destruct (Hp _ _ Hk) as (Ki & Kr & Kre & Knm).
          repeat split; try assumption; unfold id; lia. }
      destruct (written msg); simpl.
      * split; [split; simpl |].
        -- unfold id; lia.
        -- exact Hplayers.
        -- apply hub_add, Hh.
        -- intros k c. unfold AddClient. simpl.
           destruct (decide (id = k)) as [<- | Hne].
           ++ intros _. unfold id; lia.
           ++ rewrite lookup_insert_ne by exact Hne. intros Hk.
              pose proof (Hcl _ _ Hk). unfold id; lia.
        -- unfold locals_ok. simpl. unfold id.
           split; [lia |]. split; [lia | discriminate].
      * split; [split; simpl |].
        -- unfold id; lia.
        -- exact Hplayers.
        -- exact Hh.
        -- intros k c Hk. pose proof (Hcl _ _ Hk). unfold id; lia.
        -- unfold locals_ok. simpl. unfold id.
           split; [lia |]. split; [lia | reflexivity].
    + simpl. destruct s as [c gs hub]. simpl in *.
      split; [exact Hs |]. unfold locals_ok. simpl.
      destruct Hs as [Hc _ _ _]. simpl in Hc.
      split; [lia |]. split; [lia | reflexivity].
  - destruct (String.eqb (receivedE msg) "jump").
    + split; [apply handleJump_ok, Hs |]. unfold locals_ok in *. simpl.
      split; [exact Hl |]. split; [lia | discriminate].
    + split; [exact Hs |]. split; [exact Hl |]. split; [lia | discriminate].
Qed.

Lemma disconnect_ok (l : Locals) (s : Server) :
  server_ok s -> server_ok (disconnect l s).
Proof.
  intros [Hc Hp Hh Hcl]. unfold disconnect.
  destruct (playerID l =? 0); [split; assumption |].
  split; simpl; try assumption.
  - intros id p. unfold Game.RemovePlayer. simpl.
    destruct (decide (playerID l = id)) as [<- | Hne].
    + rewrite lookup_delete_eq. discriminate.
    + rewrite lookup_delete_ne by exact Hne. apply Hp.
  - apply hub_remove, Hh.
  - intros id c. unfold RemoveClient. simpl.
    destruct (decide (playerID l = id)) as [<- | Hne].
    + rewrite lookup_delete_eq. discriminate.
    + rewrite lookup_delete_ne by exact Hne. apply Hcl.
Qed.

Lemma disconnect_counter (l : Locals) (s : Server) :
  playerIDCounter (disconnect l s) = playerIDCounter s.
Proof. unfold disconnect. destruct (_ =? _); reflexivity. Qed.

(** The tick of the server: the registry and the hub after it. *)
Lemma tickerFires_shared (now : Z) (w : World) :
  let w' := tickerFires now w in
  playerIDCounter (shared w') = playerIDCounter (shared w) /\
  handlers w' = handlers w /\
  Game.players (gameState (shared w')) =
    Game.tickPlayer <$> Game.players (gameState (shared w)) /\
  (clientHub (shared w') =
     BroadcastState now (gameState (shared w')) (clientHub (shared w)) \/
   exists id chunk,
     clientHub (shared w') =
     BroadcastState now (gameState (shared w'))
       (BroadcastChunk id chunk (clientHub (shared w)))).
Proof.
  intros w'. subst w'. unfold tickerFires.
  split; [reflexivity |]. split; [reflexivity |]. simpl shared.
  cbn [gameState clientHub].
  split; [apply TickerSpec.tick_players_fmap |].
  unfold Game.tick. cbn [Game.gameState Game.tickCount].
  destruct (Game.physicsLoop _ _) as [[ps mx] mn].
  unfold Game.chunkPhase.
  cbn [Game.chunkManager Game.broadcaster Game.lastBroadcastedChunk].
  destruct (chunkManager w) as [cm |]; [| left; reflexivity].
  destruct (0 <? _); [| left; reflexivity].
  destruct (lastBroadcastedChunk w <? _); [| left; reflexivity].
  cbn [Game.GetOrGenerateChunkInterface Generation.manager_ChunkManager].
  unfold Generation.GetOrGenerateChunkInterface.
  destruct (Generation.GetOrGenerateChunk _ _) as [chunk cm2].
  right. eexists _, chunk. reflexivity.
Qed.

(** What holds of the server between two events. *)
Record world_ok (w : World) : Prop := {
  ok_shared : server_ok (shared w);
  ok_handlers : forall conn l,
    handlers w !! conn = Some l -> locals_ok l (shared w)
}.

Lemma main_ok : world_ok main.
Proof.
  split.
  - split; simpl.
    + lia.
    + intros id p. rewrite lookup_empty. discriminate.
    + apply hub_new.
    + intros id c. rewrite lookup_empty. discriminate.
  - intros conn l. simpl. rewrite lookup_empty. discriminate.
Qed.

Lemma tickPlayer_reachable (p : Game.Player) :
  Game.reachable p -> Game.reachable (Game.tickPlayer p).
Proof.
  intros Hr. unfold Game.tickPlayer.
  destruct (negb (Game.IsAlive p)); [exact Hr | apply Game.reach_physics, Hr].
Qed.

Lemma step_ok (w : World) (e : Event) :
  world_ok w -> playerIDCounter (shared w) < max_int64 ->
  world_ok (step w e) /\
  playerIDCounter (shared w) <= playerIDCounter (shared (step w e))
    <= playerIDCounter (shared w) + 1.
Proof.
  intros Hw Hmax. pose proof Hw as [Hs Hh].
  destruct e as [conn | conn [| msg] | conn | now | pid]; simpl step.
  - (* Accept *)
    destruct (handlers w !! conn) eqn:Hl; [split; [exact Hw | lia] |].
    split; [| simpl; lia]. split; simpl; try assumption.
    intros conn' l. destruct (decide (conn = conn')) as [<- | Hne].
    + rewrite lookup_insert_eq. intros [= <-]. unfold locals_ok. simpl.
      destruct Hs as [K0 _ _ _]. lia.
    + rewrite lookup_insert_ne by exact Hne. apply Hh.
  - (* Receive, a frame that does not parse *)
    split; [exact Hw | lia].
  - (* Receive, a message *)
    destruct (handlers w !! conn) as [l |] eqn:Hl; [| split; [exact Hw | lia]].
    pose proof (handleMessage_ok msg l (shared w) Hs (Hh _ _ Hl) Hmax) as Hm.
    destruct (handleMessage msg l (shared w)) as [[flow l'] s'].
    destruct Hm as (Hs' & Hl' & Hcnt & Hret).
    destruct flow; simpl.
    + split; [| exact Hcnt]. split; simpl; try assumption.
      intros conn' l0. destruct (decide (conn = conn')) as [<- | Hne].
      * rewrite lookup_insert_eq. intros [= <-]. exact Hl'.
      * rewrite lookup_insert_ne by exact Hne. intros Hl0.
        pose proof (Hh _ _ Hl0) as Hk. unfold locals_ok in *. lia.
    + rewrite disconnect_counter. split; [| exact Hcnt].
      split; simpl; try assumption.
      * apply disconnect_ok, Hs'.
      * intros conn' l0. destruct (decide (conn = conn')) as [<- | Hne].
        -- rewrite lookup_delete_eq. discriminate.
        -- rewrite lookup_delete_ne by exact Hne. intros Hl0.
           pose proof (Hh _ _ Hl0) as Hk. unfold locals_ok in *.
           rewrite disconnect_counter. lia.
  - (* Close *)
    destruct (handlers w !! conn) as [l |] eqn:Hl; [| split; [exact Hw | lia]].
    simpl. rewrite disconnect_counter. split; [| lia].
    split; simpl; try assumption.
    + apply disconnect_ok, Hs.
    + intros conn' l0. destruct (decide (conn = conn')) as [<- | Hne].
      * rewrite lookup_delete_eq. discriminate.
      * rewrite lookup_delete_ne by exact Hne. intros Hl0.
        pose proof (Hh _ _ Hl0) as Hk. unfold locals_ok in *.
        rewrite disconnect_counter. lia.
  - (* TickerFires *)
    destruct (tickerFires_shared now w) as (Hcnt & Hhs & Hps & Hhub).
    rewrite Hcnt. split; [| lia].
    destruct Hs as [K0 Hp Hr Hcl].
    split; [split |..].
    + rewrite Hcnt. exact K0.
    + rewrite Hcnt, Hps. intros id p. rewrite lookup_fmap.
      destruct (Game.players (gameState (shared w)) !! id) as [q |] eqn:Hq;
        [| discriminate].
      simpl. intros [= <-]. destruct (Hp _ _ Hq) as (Ki & Kr & Kre & Knm).
      destruct (TickerSpec.tickPlayer_frame q) as (Fi & Fn & _).
      rewrite Fi, Fn.
      split; [exact Ki |]. split; [exact Kr |].
      split; [apply tickPlayer_reachable, Kre | exact Knm].
    + destruct Hhub as [-> | (id & chunk & ->)].
      * apply hub_state, Hr.
      * apply hub_state, hub_chunk, Hr.
    + rewrite Hcnt. intros id c Hk.
      assert (Hdom : id ∈ dom (clients (clientHub (shared w)))).
      { apply elem_of_dom_2 in Hk.
        destruct Hhub as [Hb | (id' & chunk & Hb)]; rewrite Hb in Hk.
        - rewrite (proj1 (HubSpec.broadcast_dom _)) in Hk. exact Hk.
        - rewrite (proj1 (HubSpec.broadcast_dom _)) in Hk.
          rewrite (proj2 (HubSpec.broadcast_dom _)) in Hk. exact Hk. }
      apply elem_of_dom in Hdom. destruct Hdom as [c0 Hc0].
      apply (Hcl _ _ Hc0).
    + rewrite Hhs. intros conn l Hl. unfold locals_ok. rewrite Hcnt.
      apply (Hh _ _ Hl).
  - (* WriterRuns *)
    split; [| simpl; lia]. destruct Hs as [K0 Hp Hr Hcl].
    split; simpl; try assumption. split; simpl; try assumption.
    + apply hub_write, Hr.
    + intros id c. rewrite HubSpec.writeLoopStep_lookup.
      destruct (clients (clientHub (shared w)) !! id) as [c0 |] eqn:Hc0.
      * intros _. apply (Hcl _ _ Hc0).
      * case_decide; discriminate.
Qed.

(** Every state of the server: [main], then fewer than [2^63] events. *)
Lemma run_ok (events : list Event) :
  Z.of_nat (length events) < max_int64 ->
  world_ok (run events main) /\
  playerIDCounter (shared (run events main)) <= Z.of_nat (length events).
Proof.
  induction events as [| e events IH] using rev_ind; intros Hlen.
  - split; [apply main_ok | simpl; lia].
  - rewrite length_app in Hlen. simpl in Hlen.
    destruct IH as [Hw Hcnt]; [lia |].
    unfold run. rewrite foldl_app. simpl foldl.
    fold (run events main).
    destruct (step_ok (run events main) e Hw ltac:(lia))
      as [Hw' Hcnt'].
    split; [exact Hw' |]. rewrite length_app. simpl. lia.
Qed.

(** X25.  The players of the server keep their identity: whatever happens
    (connections accepted and closed, messages of any kind, ticks, writes),
    a registered player is stored under its own ID, which a join assigned
    (between 1 and [playerIDCounter], no more than one per event), and its
    name is a sanitized one: not empty, free of markup bytes, 150 bytes at
    most. *)
Theorem registered_players_keep_id_and_name
    (events : list Event) (id : Z) (p : Game.Player) :
  let w := run events main in
  Z.of_nat (length events) < max_int64 ->
  Game.players (gameState (shared w)) !! id = Some p ->
  Game.ID p = id /\
  1 <= id <= playerIDCounter (shared w) /\
  playerIDCounter (shared w) <= Z.of_nat (length events) /\
  Game.Name p <> EmptyString /\
  SanitizeSpec.every (fun c => negb (SanitizeSpec.markup c)) (Game.Name p)
  = true /\
  (String.length (Game.Name p) <= 150)%nat.
Proof.
  intros w Hlen Hp. destruct (run_ok events Hlen) as [[Hs _] Hcnt].
  destruct (ok_players _ Hs id p Hp) as (Ki & Kr & _ & name & Knm).
  split; [exact Ki |]. split; [exact Kr |]. split; [exact Hcnt |].
  rewrite Knm.
  destruct (SanitizeSpec.EscapeString_spec (SanitizeSpec.cut name))
    as (Hm & Hl & _).
  pose proof (SanitizeSpec.cut_length name) as Hc.
  rewrite SanitizeSpec.sanitizePlayerName_cut.
  destruct (String.eqb_spec (EscapeString (SanitizeSpec.cut name)) EmptyString)
    as [He | Hne].
  - repeat split; [discriminate | simpl; lia].
  - repeat split; [exact Hne | exact Hm | lia].
Qed.


(** X27.  The hub of the server: a registered client belongs to an ID that a
    join assigned, is stored under that ID, and its channel of capacity 10
    never holds more than 10 messages. *)
Theorem server_clients_have_bounded_queues
    (events : list Event) (id : Z) (c : ClientConnection) :
  let w := run events main in
  Z.of_nat (length events) < max_int64 ->
  clients (clientHub (shared w)) !! id = Some c ->
  PlayerID c = id /\ 1 <= id <= playerIDCounter (shared w) /\
  capacity (SendChan c) = 10%nat /\
  (length (queue (SendChan c)) <= 10)%nat.
Proof.
  intros w Hlen Hc. destruct (run_ok events Hlen) as [[Hs _] _].
  destruct (HubSpec.hub_reachable_clients _ (ok_hub _ Hs) id c Hc)
    as (K1 & K2 & K3 & _).
  pose proof (ok_clients _ Hs id c Hc). auto.
Qed.

Lemma omap_keys_NoDup {A : Type} (f : Z -> option A) (key : A -> Z) (l : list Z) :
  (forall k a, f k = Some a -> key a = k) -> NoDup l ->
  NoDup (map key (omap f l)) /\
  (forall k, k ∈ map key (omap f l) -> k ∈ l) /\
  (length (omap f l) <= length l)%nat.
Proof.
  intros Hkey Hnd. induction Hnd as [| k l Hnotin Hnd IH]; simpl.
  - split; [constructor |]. split; [auto | lia].
  - destruct IH as (IH1 & IH2 & IH3).
    destruct (f k) as [a |] eqn:Hf; simpl.
    + rewrite (Hkey _ _ Hf). split; [| split].
      * constructor; [| exact IH1]. intros Hin. apply Hnotin, IH2, Hin.
      * intros k' Hin. apply elem_of_cons in Hin.
        destruct Hin as [-> | Hin]; [apply list_elem_of_here |].
        apply list_elem_of_further, IH2, Hin.
      * apply le_n_S, IH3.
    + split; [exact IH1 |]. split; [| apply Nat.le_le_succ_r, IH3].
      intros k' Hin. apply list_elem_of_further, IH2, Hin.
Qed.

(** X28.  The state message of the server lists every alive player once: no
    two entries of its player list carry the same ID, and the list is no
    longer than the registry. *)
Theorem state_message_lists_each_player_once
    (events : list Event) :
  let w := run events main in
  Z.of_nat (length events) < max_int64 ->
  NoDup (map I (playerStates (gameState (shared w)))) /\
  Z.of_nat (length (playerStates (gameState (shared w))))
    <= Game.GetPlayerCount (gameState (shared w)).
Proof.
  intros w Hlen. destruct (run_ok events Hlen) as [[Hs _] _].
  fold w in Hs. rewrite NetworkSpec.playerStates_omap.
  set (f := fun ptr : Z => _ : option PlayerState).
  destruct (omap_keys_NoDup f I (Game.GetAllPlayers (gameState (shared w))))
    as (Hnd & _ & Hle).
  - intros k a. unfold f.
    destruct (Game.players (gameState (shared w)) !! k) as [p |] eqn:Hp;
      [| discriminate].
    destruct (Game.IsAlive p); [| discriminate].
    intros [= <-]. simpl. apply (ok_players _ Hs k p Hp).
  - apply NoDup_fst_map_to_list.
  - split; [exact Hnd |].
    unfold Game.GetPlayerCount. apply Nat2Z.inj_le.
    etrans; [exact Hle |]. unfold Game.GetAllPlayers.
    rewrite length_fmap, length_map_to_list. reflexivity.
Qed.

(** The leading and trailing positions the physics loop reports when
    every player stands at the spawn position. *)
Lemma physicsLoop_at_spawn (ps : gmap Z Game.Player) :
  (forall id p, ps !! id = Some p -> Game.X p = 100%float) ->
  ps <> ∅ ->
  (Game.physicsLoop (map_to_list ps).*1 ps).1.2 = 100%float /\
  (Game.physicsLoop (map_to_list ps).*1 ps).2 = 100%float.
Proof.
  intros HX Hne. unfold Game.physicsLoop.
  assert (Hkeys : forall ptr, ptr ∈ (map_to_list ps).*1 ->
                              exists p, ps !! ptr = Some p).
  { intros ptr Hin. apply list_elem_of_fmap in Hin.
    destruct Hin as ([k p] & -> & Hin). exists p.
    apply elem_of_map_to_list, Hin. }
  destruct ((map_to_list ps).*1) as [| ptr l] eqn:Hl.
  { exfalso. apply Hne. apply map_to_list_empty_iff.
    destruct (map_to_list ps); [reflexivity | discriminate]. }
  destruct (Hkeys ptr) as [p0 Hp0]; [apply list_elem_of_here |].
  rewrite Hp0, (HX _ _ Hp0).
  assert (Hfold : forall (snapshot : list Z) (acc : gmap Z Game.Player * float * float),
    (forall id p, acc.1.1 !! id = Some p -> Game.X p = 100%float) ->
    acc.1.2 = 100%float -> acc.2 = 100%float ->
    (foldl Game.physicsStep acc snapshot).1.2 = 100%float /\
    (foldl Game.physicsStep acc snapshot).2 = 100%float).
  { induction snapshot as [| q snapshot IH]; intros [[m mx] mn] Hm Hmx Hmn;
      simpl in Hm, Hmx, Hmn; subst mx mn.
    - simpl. auto.
    - change (foldl Game.physicsStep (m, 100%float, 100%float) (q :: snapshot))
        with (foldl Game.physicsStep
                (Game.physicsStep (m, 100%float, 100%float) q) snapshot).
      apply IH.
      + intros id p.
        rewrite (TickSpec.physicsStep_lookup (m, 100%float, 100%float) q id).
        simpl. case_decide; [| apply Hm].
        destruct (m !! id) as [p1 |] eqn:Hp1; [| discriminate].
        simpl. intros [= <-].
        rewrite (proj1 (proj2 (proj2 (TickerSpec.tickPlayer_frame p1)))).
        apply (Hm _ _ Hp1).
      + unfold Game.physicsStep. destruct (m !! q) as [p1 |] eqn:Hp1;
          [| reflexivity].
        destruct (negb (Game.IsAlive p1)) eqn:Ha; [reflexivity |]. simpl.
        assert (Hx : Game.X (Game.updatePlayerPhysics p1) = 100%float).
        { unfold Game.updatePlayerPhysics.
          destruct (_ <=? _)%float; simpl; apply (Hm _ _ Hp1). }
        rewrite Hx. reflexivity.
      + unfold Game.physicsStep. destruct (m !! q) as [p1 |] eqn:Hp1;
          [| reflexivity].
        destruct (negb (Game.IsAlive p1)) eqn:Ha; [reflexivity |]. simpl.
        assert (Hx : Game.X (Game.updatePlayerPhysics p1) = 100%float).
        { unfold Game.updatePlayerPhysics.
          destruct (_ <=? _)%float; simpl; apply (Hm _ _ Hp1). }
        rewrite Hx. reflexivity. }
  apply Hfold; [exact HX | reflexivity..].
Qed.

(** The cache [main] leaves: the chunks 0, 1 and 2 of the master seed. *)
Definition first_chunks (seed : string) (cm : Generation.ChunkManager) : Prop :=
  Generation.masterSeed cm = seed /\
  forall id, Generation.chunks cm !! id =
             if decide (0 <= id <= 2)
             then Some (Generation.GenerateChunk seed id) else None.

Lemma first_chunks_hit (seed : string) (cm : Generation.ChunkManager) (id : Z) :
  first_chunks seed cm -> 0 <= id <= 2 ->
  Generation.GetOrGenerateChunk id cm = (Generation.GenerateChunk seed id, cm).
Proof.
  intros [_ Hl] Hid. unfold Generation.GetOrGenerateChunk.
  rewrite Hl, decide_True by exact Hid. reflexivity.
Qed.

(** The chunk phase of a tick whose leading and trailing positions are
    the spawn position, on the cache of the chunks 0, 1 and 2. *)
Lemma chunkPhase_first_chunks
    (seed : string) (count : Z) (nplayers : nat)
    (t : Game.Ticker ClientHub Generation.ChunkManager)
    (cm : Generation.ChunkManager) :
  Game.chunkManager t = Some cm -> first_chunks seed cm ->
  Game.lastBroadcastedChunk t = -1 \/ Game.lastBroadcastedChunk t = 1 ->
  let r := @Game.chunkPhase _ _ _ Generation.manager_ChunkManager
             (Some hub_ChunkBroadcaster) (wrap64 (count + 1)) nplayers
             100%float 100%float t in
  r.1.2 = Some cm /\ (r.2 = -1 \/ r.2 = 1).
Proof.
  intros Hcm Hfc Hlast r. subst r. unfold Game.chunkPhase. rewrite Hcm.
  destruct (0 <? _); [| simpl; auto].
  cbn [Game.GenerateAheadForPlayer Game.GetOrGenerateChunkInterface
       Game.CleanupBehind Generation.manager_ChunkManager].
  assert (Hahead : Generation.GenerateAheadForPlayer 100 2 cm = cm).
  { unfold Generation.GenerateAheadForPlayer.
    replace (int_of_float64 (100 / Generation.ChunkSize)) with 0
      by (vm_compute; reflexivity).
    change (Z.to_nat (2 + 1)) with 3%nat. simpl Generation.getChunksFrom.
    rewrite (first_chunks_hit seed cm 0 Hfc) by lia.
    change (wrap64 (0 + 1)) with 1.
    rewrite (first_chunks_hit seed cm 1 Hfc) by lia.
    change (wrap64 (1 + 1)) with 2.
    rewrite (first_chunks_hit seed cm 2 Hfc) by lia.
    reflexivity. }
  assert (Hclean : Generation.CleanupBehind 100 1 cm = cm).
  { unfold Generation.CleanupBehind.
    replace (int_of_float64 (100 / Generation.ChunkSize)) with 0
      by (vm_compute; reflexivity).
    change (wrap64 (0 - 1)) with (-1).
    destruct cm as [sd cs]. simpl. f_equal.
    apply map_eq. intros id. rewrite ManagerSpec.cleanup_lookup.
    case_decide as Hlt; [| reflexivity].
    destruct Hfc as [_ Hl]. simpl in Hl. rewrite Hl.
    rewrite decide_False by lia. reflexivity. }
  rewrite Hahead.
  replace (wrap64 (int_of_float64 (100 / 5000) + 1)) with 1
    by (vm_compute; reflexivity).
  unfold Generation.GetOrGenerateChunkInterface.
  rewrite (first_chunks_hit seed cm 1 Hfc) by lia.
  destruct (Game.lastBroadcastedChunk t <? 1);
    destruct (Z.rem _ 80 =? 0); simpl; rewrite ?Hclean; auto.
Qed.

Lemma mainChunkManager_first_chunks (unixTime : Z) :
  first_chunks (String.append "vibe-runner-" (itoa unixTime))
    (mainChunkManager unixTime).
Proof.
  unfold mainChunkManager.
  set (seed := String.append "vibe-runner-" (itoa unixTime)).
  simpl foldl.
  set (cm0 := Generation.NewChunkManager seed).
  set (cm1 := (Generation.GetOrGenerateChunk 0 cm0).2).
  set (cm2 := (Generation.GetOrGenerateChunk 1 cm1).2).
  set (cm3 := (Generation.GetOrGenerateChunk 2 cm2).2).
  assert (L1 : forall id, Generation.masterSeed cm1 = seed /\ _)
    by (intros id; exact (ManagerSpec.GetOrGenerateChunk_lookup 0 cm0 id)).
  assert (L2 : forall id, Generation.masterSeed cm2 = _ /\ _)
    by (intros id; exact (ManagerSpec.GetOrGenerateChunk_lookup 1 cm1 id)).
  assert (L3 : forall id, Generation.masterSeed cm3 = _ /\ _)
    by (intros id; exact (ManagerSpec.GetOrGenerateChunk_lookup 2 cm2 id)).
  fold cm1 in L1. fold cm2 in L2. fold cm3 in L3.
  pose proof (proj1 (L1 0)) as S1. pose proof (proj1 (L2 0)) as S2.
  pose proof (proj1 (L3 0)) as S3.
  split; [congruence |]. intros id.
  rewrite (proj2 (L3 id)), (proj2 (L2 id)), (proj2 (L1 id)).
  change (Generation.chunks cm0 !! id) with ((∅ : gmap Z Generation.Chunk) !! id).
  rewrite lookup_empty, S2, S1.
  repeat case_decide; try reflexivity; try lia.
Qed.

(** X29.  The ticker of the later [main], which hands it the chunk manager
    with the chunks 0, 1 and 2 generated: as long as every player stands
    at the spawn position [X] = 100 (where the server leaves them), a tick
    leaves the chunk manager exactly as it is, since the window it
    generates ahead is the chunks 0, 1 and 2 and the clean-up removes none
    of them; the only chunk it ever broadcasts is chunk 1. *)
Theorem ticker_keeps_the_first_three_chunks
    (unixTime now : Z) (t : Game.Ticker ClientHub Generation.ChunkManager) :
  let seed := String.append "vibe-runner-" (itoa unixTime) in
  let t' := @Game.tick _ _ _ hub_Broadcaster Generation.manager_ChunkManager
              (Some hub_ChunkBroadcaster) now t in
  Game.chunkManager t = Some (mainChunkManager unixTime) ->
  (forall id p, Game.players (Game.gameState t) !! id = Some p ->
                Game.X p = 100%float) ->
  Game.lastBroadcastedChunk t = -1 \/ Game.lastBroadcastedChunk t = 1 ->
  Game.chunkManager t' = Some (mainChunkManager unixTime) /\
  (Game.lastBroadcastedChunk t' = -1 \/ Game.lastBroadcastedChunk t' = 1) /\
  (forall id p, Game.players (Game.gameState t') !! id = Some p ->
                Game.X p = 100%float) /\
  (forall id, Generation.chunks (mainChunkManager unixTime) !! id =
              if decide (0 <= id <= 2)
              then Some (Generation.GenerateChunk seed id) else None).
Proof.
  intros seed t' Hcm HX Hlast.
  pose proof (mainChunkManager_first_chunks unixTime) as Hfc. fold seed in Hfc.
  set (cm := mainChunkManager unixTime) in *.
  assert (HX' : forall id p, Game.players (Game.gameState t') !! id = Some p ->
                             Game.X p = 100%float).
  { intros id p. subst t'. rewrite TickerSpec.tick_players_fmap, lookup_fmap.
    destruct (Game.players (Game.gameState t) !! id) as [q |] eqn:Hq;
      [| discriminate].
    simpl. intros [= <-].
    rewrite (proj1 (proj2 (proj2 (TickerSpec.tickPlayer_frame q)))).
    apply (HX _ _ Hq). }
  split; [| split; [| split; [exact HX' | apply Hfc]]]; subst t';
    unfold Game.tick, Game.GetAllPlayers.
  - destruct (decide (Game.players (Game.gameState t) = ∅)) as [He | Hne].
    + rewrite He, map_to_list_empty. simpl. unfold Game.chunkPhase.
      rewrite Hcm. reflexivity.
    + pose proof (physicsLoop_at_spawn _ HX Hne) as [Hmx Hmn].
      destruct (Game.physicsLoop _ _) as [[ps mx] mn]. simpl in Hmx, Hmn.
      subst mx mn.
      destruct (chunkPhase_first_chunks seed (Game.tickCount t)
                  (length (map_to_list (Game.players (Game.gameState t))).*1)
                  t cm Hcm Hfc Hlast) as [Hc _].
      destruct (Game.chunkPhase _ _ _ _ _ _) as [[b c] l]. simpl in *.
      exact Hc.
  - destruct (decide (Game.players (Game.gameState t) = ∅)) as [He | Hne].
    + rewrite He, map_to_list_empty. simpl. unfold Game.chunkPhase.
      rewrite Hcm. exact Hlast.
    + pose proof (physicsLoop_at_spawn _ HX Hne) as [Hmx Hmn].
      destruct (Game.physicsLoop _ _) as [[ps mx] mn]. simpl in Hmx, Hmn.
      subst mx mn.
      destruct (chunkPhase_first_chunks seed (Game.tickCount t)
                  (length (map_to_list (Game.players (Game.gameState t))).*1)
                  t cm Hcm Hfc Hlast) as [_ Hl].
      destruct (Game.chunkPhase _ _ _ _ _ _) as [[b c] l]. simpl in *.
      exact Hl.
Qed.

End Server.

(** A run of the server: a client connects, joins and jumps between two
    ticks. *)
Definition someEvents : list Event :=
  [Accept 7; Receive 7 (HandlerSpec.joinFrame "ada" 0 true); TickerFires 0;
   Receive 7 HandlerSpec.jumpFrame; TickerFires 50].

Definition someWorld : World :=
  @run _ (Generation.scripted []) eventNameJson asciiTrim someEvents
    main.

Definition adaInTheAir : Game.Player :=
  {| Game.ID := 1; Game.Name := "ada"; Game.X := 100%float;
     Game.Y := 413%float; Game.VelocityY := (-540)%float;
     Game.IsGrounded := false; Game.IsAlive := true |}.

Lemma registered_players_keep_id_and_name_witness :
  Game.ID adaInTheAir = 1 /\
  1 <= 1 <= playerIDCounter (shared someWorld) /\
  playerIDCounter (shared someWorld) <= Z.of_nat (length someEvents) /\
  Game.Name adaInTheAir <> EmptyString /\
  SanitizeSpec.every (fun c => negb (SanitizeSpec.markup c))
    (Game.Name adaInTheAir) = true /\
  (String.length (Game.Name adaInTheAir) <= 150)%nat.
Proof.
  apply (@registered_players_keep_id_and_name _ (Generation.scripted [])
           eventNameJson asciiTrim someEvents 1 adaInTheAir
           ltac:(vm_compute; reflexivity)).
  vm_compute. reflexivity.
Defined.


Definition adaClient : ClientConnection :=
  {| PlayerID := 1;
     SendChan := {| queue := [String.list_byte_of_string "state";
                              String.list_byte_of_string "state"];
                    capacity := 10 |};
     closed := false |}.

Lemma server_clients_have_bounded_queues_witness :
  PlayerID adaClient = 1 /\ 1 <= 1 <= playerIDCounter (shared someWorld) /\
  capacity (SendChan adaClient) = 10%nat /\
  (length (queue (SendChan adaClient)) <= 10)%nat.
Proof.
  apply (@server_clients_have_bounded_queues _ (Generation.scripted [])
           eventNameJson asciiTrim someEvents 1 adaClient
           ltac:(vm_compute; reflexivity)).
  vm_compute. reflexivity.
Defined.

Lemma state_message_lists_each_player_once_witness :
  NoDup (map I (playerStates (gameState (shared someWorld)))) /\
  Z.of_nat (length (playerStates (gameState (shared someWorld))))
    <= Game.GetPlayerCount (gameState (shared someWorld)).
Proof.
  apply (@state_message_lists_each_player_once _ (Generation.scripted [])
           eventNameJson asciiTrim someEvents
           ltac:(vm_compute; reflexivity)).
Defined.

(** The ticker of the later [main] before its first tick, with one player
    in the registry. *)
Definition laterTicker : Game.Ticker ClientHub Generation.ChunkManager :=
  Game.StartGameTicker
    (Game.AddPlayer (Game.NewPlayer 1 "ada") Game.NewGameState)
    (AddClient 1 NewClientHub)
    (Some (@mainChunkManager _ (Generation.scripted []) 1700000000)).

Lemma ticker_keeps_the_first_three_chunks_witness :
  Game.chunkManager
    (@Game.tick _ _ _ (@hub_Broadcaster eventNameJson)
       (@Generation.manager_ChunkManager _ (Generation.scripted []))
       (Some (@hub_ChunkBroadcaster eventNameJson)) 0 laterTicker)
  = Some (@mainChunkManager _ (Generation.scripted []) 1700000000) /\
  Game.lastBroadcastedChunk
    (@Game.tick _ _ _ (@hub_Broadcaster eventNameJson)
       (@Generation.manager_ChunkManager _ (Generation.scripted []))
       (Some (@hub_ChunkBroadcaster eventNameJson)) 0 laterTicker) = 1.
Proof.
  destruct (@ticker_keeps_the_first_three_chunks _ (Generation.scripted [])
              eventNameJson 1700000000 0 laterTicker eq_refl)
    as (Hc & _ & _ & _).
  - intros id p Hp.
    change (Game.players (Game.gameState laterTicker))
      with (<[1 := Game.NewPlayer 1 "ada"]> (∅ : gmap Z Game.Player)) in Hp.
    apply lookup_insert_Some in Hp.
    destruct Hp as [[_ <-] | [_ Hp]]; [reflexivity |].
    rewrite lookup_empty in Hp. discriminate.
  - left. reflexivity.
  - split; [exact Hc | vm_compute; reflexivity].
Defined.

End ServerSpec.
